(** * A shallow embedding of the PCF font loader ([pcf_font/cache.py],
      [pcf_font/pcf.py]) and the properties of its cache, its decoders
      and its table catalogue. *)

From Stdlib Require Import ZArith String Strings.Byte Bool Lia List Permutation.
From Stdlib Require Import QArith Qround Sorted.
Import ListNotations.
Open Scope Z_scope.

(** ** Python results: a value, or a raised exception.  An exception
       keeps the mutations done before it was raised, so the state is
       threaded through both outcomes. *)

Module Py.

Inductive exn : Type :=
| ValueError (msg : string)
| KeyError
| AttributeError
| StructError
| OSError
| EOFError.

Inductive res (A : Type) : Type :=
| Ok (a : A)
| Raise (e : exn).
Arguments Ok {A} a.
Arguments Raise {A} e.

Definition M (S A : Type) : Type := S -> res A * S.

Definition ret {S A : Type} (a : A) : M S A := fun s => (Ok a, s).

Definition raise {S A : Type} (e : exn) : M S A := fun s => (Raise e, s).

Definition bind {S A B : Type} (m : M S A) (f : A -> M S B) : M S B :=
  fun s =>
    match m s with
    | (Ok a, s') => f a s'
    | (Raise e, s') => (Raise e, s')
    end.

Definition state {S : Type} : M S S := fun s => (Ok s, s).

Definition when {S : Type} (b : bool) (m : M S unit) : M S unit :=
  if b then m else ret tt.

(** Python's [for x in xs: body x]. *)
Fixpoint for_each {S A : Type} (xs : list A) (body : A -> M S unit) : M S unit :=
  match xs with
  | [] => ret tt
  | x :: rest => bind (body x) (fun _ => for_each rest body)
  end.

(** A list comprehension [[f x for x in xs]] whose body has effects. *)
Fixpoint map_m {S A B : Type} (f : A -> M S B) (xs : list A) : M S (list B) :=
  match xs with
  | [] => ret []
  | x :: rest =>
      bind (f x) (fun y => bind (map_m f rest) (fun ys => ret (y :: ys)))
  end.

End Py.
Import Py.

Declare Scope py_scope.
Delimit Scope py_scope with py.
Notation "x <- m ;; k" := (bind m (fun x => k))
  (at level 61, m at next level, right associativity) : py_scope.
Notation "' pat <- m ;; k" := (bind m (fun x => match x with pat => k end))
  (at level 61, pat pattern, m at next level, right associativity) : py_scope.
Notation "m ;; k" := (bind m (fun _ => k))
  (at level 61, right associativity) : py_scope.
Open Scope py_scope.

(** ** [collections.OrderedDict]: an association list, first pair at the
       front, one pair per key. *)

Module OrderedDict.
Section Dict.
Context {K V : Type}.
Variable K_eq_dec : forall x y : K, {x = y} + {x <> y}.

Definition t : Type := list (K * V).

Definition keys (d : t) : list K := map fst d.

Definition len (d : t) : Z := Z.of_nat (length d).

Fixpoint lookup (key : K) (d : t) : option V :=
  match d with
  | [] => None
  | (k, v) :: rest => if K_eq_dec key k then Some v else lookup key rest
  end.

(** [key in d] *)
Definition contains (key : K) (d : t) : bool :=
  match lookup key d with Some _ => true | None => false end.

(** [d.get(key, default)] *)
Definition get (key : K) (default : V) (d : t) : V :=
  match lookup key d with Some v => v | None => default end.

Fixpoint remove (key : K) (d : t) : t :=
  match d with
  | [] => []
  | (k, v) :: rest =>
      if K_eq_dec key k then remove key rest else (k, v) :: remove key rest
  end.

(** [d[key] = value]: a present key keeps its place, a new one goes to
    the back. *)
Fixpoint assign (key : K) (value : V) (d : t) : t :=
  match d with
  | [] => [(key, value)]
  | (k, v) :: rest =>
      if K_eq_dec key k then (key, value) :: rest
      else (k, v) :: assign key value rest
  end.

Definition setitem (key : K) (value : V) : M t unit :=
  fun d => (Ok tt, assign key value d).

(** [d.popitem()]: removes and returns the pair at the back; KeyError on
    an empty dictionary. *)
Definition popitem : M t (K * V) :=
  fun d =>
    match rev d with
    | [] => (Raise KeyError, d)
    | kv :: front => (Ok kv, rev front)
    end.

(** [d.move_to_end(key, last)]: KeyError on an absent key. *)
Definition move_to_end (key : K) (last : bool) : M t unit :=
  fun d =>
    match lookup key d with
    | None => (Raise KeyError, d)
    | Some v =>
        if last then (Ok tt, remove key d ++ [(key, v)])
        else (Ok tt, (key, v) :: remove key d)
    end.

End Dict.
Arguments t : clear implicits.
End OrderedDict.

(** ** [cache.py]: class [LruCache].  A stored value is a Python
       reference: [None], or [Some x] for an object [x]. *)

Module LruCache.
Section Cache.
Context {K V : Type}.
Variable K_eq_dec : forall x y : K, {x = y} + {x <> y}.

Record t : Type := Build
  { _cache : OrderedDict.t K (option V);
    _capacity : Z }.

(** [__init__] *)
Definition init (capacity : Z) : t :=
  {| _cache := []; _capacity := capacity |}.

(** Runs a dictionary method on [self._cache]. *)
Definition on_cache {A : Type} (m : M (OrderedDict.t K (option V)) A) : M t A :=
  fun self =>
    let (r, d) := m (_cache self) in
    (r, {| _cache := d; _capacity := _capacity self |}).

Definition get (key : K) : M t (option V) :=
  self <- state ;;
  let data := OrderedDict.get K_eq_dec key None (_cache self) in
  match data with
  | Some _ => on_cache (OrderedDict.move_to_end K_eq_dec key false)
  | None => ret tt
  end ;;
  ret data.

Definition put (key : K) (value : option V) : M t unit :=
  self <- state ;;
  when (OrderedDict.len (_cache self) >=? _capacity self)
       (on_cache OrderedDict.popitem ;; ret tt) ;;
  on_cache (OrderedDict.setitem K_eq_dec key value) ;;
  on_cache (OrderedDict.move_to_end K_eq_dec key false).

Definition contains (key : K) : M t bool :=
  self <- state ;;
  ret (OrderedDict.contains K_eq_dec key (_cache self)).

End Cache.
Arguments t : clear implicits.
End LruCache.

(** ** [pcf.py]: the byte stream, [struct], and the decoders *)

Module Pcf.

(** [micropython.const] is the identity. *)
Definition const (x : Z) : Z := x.

Definition _PCF_TABLETYPE_ACCELERATORS : Z := const (Z.shiftl 1 1).
Definition _PCF_TABLETYPE_METRICS : Z := const (Z.shiftl 1 2).
Definition _PCF_TABLETYPE_BITMAPS : Z := const (Z.shiftl 1 3).
Definition _PCF_TABLETYPE_BDFENCODINGS : Z := const (Z.shiftl 1 5).
Definition _PCF_TABLETYPE_BDFACCELERATORS : Z := const (Z.shiftl 1 8).
Definition _PCF_BYTE_MASK : Z := const (Z.shiftl 1 2).
Definition _PCF_BIT_MASK : Z := const (Z.shiftl 1 3).
Definition _PCF_SCAN_UNIT_MASK : Z := const (Z.shiftl 3 4).
Definition _PCF_GLYPH_PAD_MASK : Z := const (Z.shiftl 3 0).
Definition _PCF_COMPRESSED_METRICS : Z := const 256.
Definition _PCF_ACCEL_W_INKBOUNDS : Z := const 256.

Record TableTocEntry : Type := mkTableTocEntry
  { format : Z; size : Z; offset : Z }.

Record MetricsEntry : Type := mkMetricsEntry
  { left_side_bearing : Z;
    right_side_bearing : Z;
    character_width : Z;
    character_ascent : Z;
    character_descent : Z;
    character_attributes : Z }.

(** *** The file object: its bytes, the position, and the calls made on
    it (latest first). *)

Inductive io_event : Type :=
| Seek (target : Z)
| Read (count : Z).

Record File : Type := mkFile
  { content : list byte;
    pos : Z;
    log : list io_event }.

(** [open(filename, "rb")] on a file holding [bytes]. *)
Definition open (bytes : list byte) : File :=
  {| content := bytes; pos := 0; log := [] |}.

(** [f.seek(target)]: a negative target is refused. *)
Definition seek (target : Z) : M File unit :=
  fun f =>
    if target <? 0 then (Raise OSError, f)
    else (Ok tt, {| content := content f; pos := target;
                    log := Seek target :: log f |}).

(** [f.read(count)], [count] a [calcsize]: the bytes from the position
    on, fewer than [count] at the end of the file. *)
Definition read (count : Z) : M File (list byte) :=
  fun f =>
    let data := firstn (Z.to_nat count) (skipn (Z.to_nat (pos f)) (content f)) in
    (Ok data, {| content := content f;
                 pos := pos f + Z.of_nat (length data);
                 log := Read count :: log f |}).

(** *** [struct]: the formats the loader uses, ["<"] or [">"] followed
    by the codes [B], [h], [H], [i], [I]. *)

Inductive byte_order : Type := LittleEndian | BigEndian.

Inductive code : Type := c_B | c_h | c_H | c_i | c_I.

Definition struct_format : Type := (byte_order * list code)%type.

Definition code_size (c : code) : nat :=
  match c with
  | c_B => 1
  | c_h | c_H => 2
  | c_i | c_I => 4
  end%nat.

Definition code_signed (c : code) : bool :=
  match c with
  | c_h | c_i => true
  | c_B | c_H | c_I => false
  end.

Definition calcsize (fmt : struct_format) : Z :=
  Z.of_nat (fold_right (fun c n => (code_size c + n)%nat) 0%nat (snd fmt)).

Definition byte_value (b : byte) : Z := Z.of_N (Byte.to_N b).

(** Unsigned value of a byte string, most significant byte first. *)
Definition uint_be (bs : list byte) : Z :=
  fold_left (fun acc b => acc * 256 + byte_value b) bs 0.

Definition decode (order : byte_order) (c : code) (bs : list byte) : Z :=
  let u := uint_be (match order with
                    | BigEndian => bs
                    | LittleEndian => rev bs
                    end) in
  let bits := 8 * Z.of_nat (code_size c) in
  if code_signed c && (2 ^ (bits - 1) <=? u) then u - 2 ^ bits else u.

Fixpoint unpack_fields (order : byte_order) (codes : list code)
         (buffer : list byte) : list Z :=
  match codes with
  | [] => []
  | c :: rest =>
      decode order c (firstn (code_size c) buffer)
      :: unpack_fields order rest (skipn (code_size c) buffer)
  end.

(** [struct.unpack]: [struct.error] unless the buffer has exactly
    [calcsize] bytes. *)
Definition unpack (fmt : struct_format) (buffer : list byte) : res (list Z) :=
  if Z.of_nat (length buffer) =? calcsize fmt
  then Ok (unpack_fields (fst fmt) (snd fmt) buffer)
  else Raise StructError.

Definition lift {S A : Type} (r : res A) : M S A := fun s => (r, s).

Definition read_values (format_ : struct_format) : M File (list Z) :=
  let size := calcsize format_ in
  buffer <- read size ;;
  lift (unpack format_ buffer).

(** Unpacking a tuple into one, two, four, five or six names: ValueError
    when the lengths differ. *)
Definition tuple1 {S : Type} (vs : list Z) : M S Z :=
  match vs with
  | [a] => ret a
  | _ => raise (ValueError "unpack")
  end.

Definition tuple2 {S : Type} (vs : list Z) : M S (Z * Z) :=
  match vs with
  | [a; b] => ret (a, b)
  | _ => raise (ValueError "unpack")
  end.

Definition tuple4 {S : Type} (vs : list Z) : M S (Z * Z * Z * Z) :=
  match vs with
  | [a; b; c; d] => ret (a, b, c, d)
  | _ => raise (ValueError "unpack")
  end.

Definition tuple5 {S : Type} (vs : list Z) : M S (Z * Z * Z * Z * Z) :=
  match vs with
  | [a; b; c; d; e] => ret (a, b, c, d, e)
  | _ => raise (ValueError "unpack")
  end.

Definition bytes_per_row (width bytes_align : Z) : Z :=
  let unit_align_bits := bytes_align * 8 in
  let block_count := (width + unit_align_bits - 1) / unit_align_bits in
  block_count * bytes_align.

(** The [MetricsEntry] built from the unpacked values. *)
Definition MetricsEntry_of {S : Type} (vs : list Z) : M S MetricsEntry :=
  match vs with
  | [a; b; c; d; e; f] => ret (mkMetricsEntry a b c d e f)
  | _ => raise (ValueError "unpack")
  end.

Definition read_metrics_entry_standard : M File MetricsEntry :=
  vs <- read_values (BigEndian, [c_h; c_h; c_h; c_h; c_h; c_H]) ;;
  MetricsEntry_of vs.

Definition read_metrics_entry_compressed : M File MetricsEntry :=
  vs <- read_values (BigEndian, [c_B; c_B; c_B; c_B; c_B]) ;;
  '(left_side_bearing, right_side_bearing, character_width,
    character_ascent, character_descent) <- tuple5 vs ;;
  let left_side_bearing := left_side_bearing - 128 in
  let right_side_bearing := right_side_bearing - 128 in
  let character_width := character_width - 128 in
  let character_ascent := character_ascent - 128 in
  let character_descent := character_descent - 128 in
  let attributes := 0 in
  ret (mkMetricsEntry left_side_bearing right_side_bearing character_width
                      character_ascent character_descent attributes).

End Pcf.

(** ** [pcf.py]: class [PcfFont] *)

Module PcfFont.
Import Pcf.

(** [fontio.Glyph]; [bitmap] is the address of the bitmap object. *)
Record Glyph : Type := mkGlyph
  { bitmap : nat;
    tile_index : Z;
    width : Z;
    height : Z;
    dx : Z;
    dy : Z;
    shift_x : Z;
    shift_y : Z }.

Definition bytes_eqb (a b : list byte) : bool :=
  if list_eq_dec Byte.byte_eq_dec a b then true else false.

Definition necessary_tables_types : list Z :=
  [ _PCF_TABLETYPE_ACCELERATORS;
    _PCF_TABLETYPE_METRICS;
    _PCF_TABLETYPE_BITMAPS;
    _PCF_TABLETYPE_BDFENCODINGS;
    _PCF_TABLETYPE_BDFACCELERATORS ].

Definition is_necessary (type_ : Z) : bool :=
  if in_dec Z.eq_dec type_ necessary_tables_types then true else false.

Definition Tables : Type := OrderedDict.t Z TableTocEntry.

(** [tables[key]] *)
Definition getitem {S : Type} (key : Z) (tables : Tables) : M S TableTocEntry :=
  match OrderedDict.lookup Z.eq_dec key tables with
  | Some entry => ret entry
  | None => raise KeyError
  end.

(** The loop over [range(tables_count)] that fills [tables]. *)
Fixpoint read_toc (count : nat) (tables : Tables) : M File Tables :=
  match count with
  | O => ret tables
  | S count' =>
      vs <- read_values (LittleEndian, [c_I; c_I; c_I; c_I]) ;;
      '(type_, format_, size, offset) <- tuple4 vs ;;
      read_toc count'
        (if is_necessary type_
         then OrderedDict.assign Z.eq_dec type_
                (mkTableTocEntry format_ size offset) tables
         else tables)
  end.

Definition check_format (entry : TableTocEntry) : M File unit :=
  if negb (Z.land (format entry) (Z.lor _PCF_BYTE_MASK _PCF_BIT_MASK)
           =? Z.lor _PCF_BYTE_MASK _PCF_BIT_MASK)
  then raise (ValueError "Only support MSByte data and MSBit glyph")
  else ret tt.

(** [sorted] on integers. *)
Fixpoint insert_sorted (x : Z) (l : list Z) : list Z :=
  match l with
  | [] => [x]
  | y :: rest => if x <=? y then x :: l else y :: insert_sorted x rest
  end.

Definition sorted (l : list Z) : list Z := fold_right insert_sorted [] l.

Definition ord (c : Ascii.ascii) : Z := Z.of_N (Ascii.N_of_ascii c).

(** The argument of [load_glyphs]: an int, a str (here of characters
    below 256, each standing for its code), or an iterable of ints. *)
Inductive code_points_arg : Type :=
| CodePoint (c : Z)
| Text (s : string)
| Iter (cs : list Z).

Definition gc_collect {S : Type} : M S unit := ret tt.

Fixpoint list_set {A : Type} (i : nat) (x : A) (l : list A) : list A :=
  match l, i with
  | [], _ => []
  | _ :: rest, O => x :: rest
  | y :: rest, S i' => y :: list_set i' x rest
  end.

Section Host.

(** The display runtime: the bitmap objects, [displayio.Bitmap(width,
    height, value_count)], and [bitmaptools.readinto(bitmap, file,
    bits_per_pixel, element_size, reverse_pixels_in_element)], which
    fills the bitmap in place from the file. *)
Variable Bitmap : Type.
Variable DisplayioBitmap : Z -> Z -> Z -> res Bitmap.
Variable _bitmap_readinto : Z -> Z -> bool -> M (Bitmap * File) unit.

(** The objects the font allocates. *)
Inductive obj : Type :=
| OBitmap (b : Bitmap)
| OGlyph (g : Glyph).

(** The font object, with the store of the objects it has allocated
    ([heap]; the address of an object is its index). *)
Record t : Type := mk
  { _file : File;
    _glyph_padding : Z;
    _metrics_compressed : bool;
    _min_byte2 : Z;
    _max_byte2 : Z;
    _min_byte1 : Z;
    _max_byte1 : Z;
    _default_char : Z;
    _ascent : Z;
    _descent : Z;
    _bounding_box : Z * Z * Z * Z;
    _bitmap_position_lut_location : Z;
    _bitmap_data_location : Z;
    _metrics_data_location : Z;
    _encoded_glyph_indices_location : Z;
    _cache : LruCache.t Z nat;
    heap : list obj }.

Definition set_file (f : File) (self : t) : t :=
  mk f (_glyph_padding self) (_metrics_compressed self)
     (_min_byte2 self) (_max_byte2 self) (_min_byte1 self) (_max_byte1 self)
     (_default_char self) (_ascent self) (_descent self) (_bounding_box self)
     (_bitmap_position_lut_location self) (_bitmap_data_location self)
     (_metrics_data_location self) (_encoded_glyph_indices_location self)
     (_cache self) (heap self).

Definition set_cache (c : LruCache.t Z nat) (self : t) : t :=
  mk (_file self) (_glyph_padding self) (_metrics_compressed self)
     (_min_byte2 self) (_max_byte2 self) (_min_byte1 self) (_max_byte1 self)
     (_default_char self) (_ascent self) (_descent self) (_bounding_box self)
     (_bitmap_position_lut_location self) (_bitmap_data_location self)
     (_metrics_data_location self) (_encoded_glyph_indices_location self)
     c (heap self).

Definition set_heap (h : list obj) (self : t) : t :=
  mk (_file self) (_glyph_padding self) (_metrics_compressed self)
     (_min_byte2 self) (_max_byte2 self) (_min_byte1 self) (_max_byte1 self)
     (_default_char self) (_ascent self) (_descent self) (_bounding_box self)
     (_bitmap_position_lut_location self) (_bitmap_data_location self)
     (_metrics_data_location self) (_encoded_glyph_indices_location self)
     (_cache self) h.

(** Runs a file method on [self._file]. *)
Definition on_file {A : Type} (m : M File A) : M t A :=
  fun self => let (r, f) := m (_file self) in (r, set_file f self).

(** Runs a cache method on [self._cache]. *)
Definition on_lru {A : Type} (m : M (LruCache.t Z nat) A) : M t A :=
  fun self => let (r, c) := m (_cache self) in (r, set_cache c self).

(** A constructor call: the new object goes to a fresh address. *)
Definition alloc (o : obj) : M t nat :=
  fun self => (Ok (length (heap self)), set_heap (heap self ++ [o]) self).

Definition __init__ (bytes : list byte) (capacity : Z) : res t * File :=
  (seek 0 ;;
   magic <- read 4 ;;
   if negb (bytes_eqb [x01; x66; x63; x70] magic)
   then raise (ValueError "Magic mismatch, unknown font file")
   else
   vs <- read_values (LittleEndian, [c_I]) ;;
   tables_count <- tuple1 vs ;;
   tables <- read_toc (Z.to_nat tables_count) [] ;;
   if OrderedDict.len tables <? 4
   then raise (ValueError "Corrupted font data")
   else
   for_each (map snd tables) check_format ;;
   bitmaps <- getitem _PCF_TABLETYPE_BITMAPS tables ;;
   if negb (Z.land (format bitmaps) _PCF_SCAN_UNIT_MASK =? 0)
   then raise (ValueError "Only support bits stored in bytes")
   else
   let glyph_padding := 2 ^ (Z.land (format bitmaps) _PCF_GLYPH_PAD_MASK) in
   seek (offset bitmaps + 4) ;;
   vs <- read_values (BigEndian, [c_I]) ;;
   glyph_count <- tuple1 vs ;;
   metrics <- getitem _PCF_TABLETYPE_METRICS tables ;;
   seek (offset metrics + 4) ;;
   let metrics_compressed :=
     Z.land (format metrics) _PCF_COMPRESSED_METRICS >? 0 in
   vs <- (if metrics_compressed
          then read_values (BigEndian, [c_H])
          else read_values (BigEndian, [c_I])) ;;
   metrics_count <- tuple1 vs ;;
   if negb (metrics_count =? glyph_count)
   then raise (ValueError "Corrupted font data")
   else
   encodings <- getitem _PCF_TABLETYPE_BDFENCODINGS tables ;;
   seek (offset encodings + 4) ;;
   vs <- read_values (BigEndian, [c_h; c_h; c_h; c_h; c_h]) ;;
   '(min_byte2, max_byte2, min_byte1, max_byte1, default_char) <- tuple5 vs ;;
   acc_table <-
     match (if OrderedDict.contains Z.eq_dec _PCF_TABLETYPE_ACCELERATORS tables
            then OrderedDict.lookup Z.eq_dec _PCF_TABLETYPE_ACCELERATORS tables
            else OrderedDict.lookup Z.eq_dec _PCF_TABLETYPE_BDFACCELERATORS tables)
     with
     | Some entry => ret entry
     | None => raise AttributeError
     end ;;
   seek (offset acc_table + 4 + 8) ;;
   vs <- read_values (BigEndian, [c_i; c_i]) ;;
   '(ascent, descent) <- tuple2 vs ;;
   (if Z.land (format acc_table) _PCF_ACCEL_W_INKBOUNDS >? 0
    then seek (offset acc_table + 4 + 8 + 4 + 4 + 4 + 24)
    else seek (offset acc_table + 4 + 8 + 4 + 4 + 4)) ;;
   minbounds <- read_metrics_entry_standard ;;
   maxbounds <- read_metrics_entry_standard ;;
   let width := right_side_bearing maxbounds - left_side_bearing minbounds in
   let height := character_ascent maxbounds + character_descent maxbounds in
   let bitmap_position_lut_location := offset bitmaps + 4 + 4 in
   f <- state ;;
   ret {| _file := f;
          _glyph_padding := glyph_padding;
          _metrics_compressed := metrics_compressed;
          _min_byte2 := min_byte2;
          _max_byte2 := max_byte2;
          _min_byte1 := min_byte1;
          _max_byte1 := max_byte1;
          _default_char := default_char;
          _ascent := ascent;
          _descent := descent;
          _bounding_box :=
            (width, height, left_side_bearing minbounds,
             - character_descent maxbounds);
          _bitmap_position_lut_location := bitmap_position_lut_location;
          _bitmap_data_location :=
            bitmap_position_lut_location + (glyph_count + 4) * 4;
          _metrics_data_location :=
            offset metrics + 4 + (if metrics_compressed then 2 else 4);
          _encoded_glyph_indices_location := offset encodings + 4 + 5 * 2;
          _cache := LruCache.init capacity;
          heap := [] |}) (open bytes).

Definition _get_glyph_index (code_point : Z) : M t Z :=
  self <- state ;;
  let enc1 := Z.land (Z.shiftr code_point 8) 255 in
  let enc2 := Z.land code_point 255 in
  if negb ((_min_byte1 self <=? enc1) && (enc1 <=? _max_byte1 self))
     || negb ((_min_byte2 self <=? enc2) && (enc2 <=? _max_byte2 self))
  then ret (-1)
  else
    let index_offset :=
      (enc1 - _min_byte1 self) * (_max_byte2 self - _min_byte2 self + 1)
      + (enc2 - _min_byte2 self) in
    on_file (seek (_encoded_glyph_indices_location self + index_offset * 2)) ;;
    vs <- on_file (read_values (BigEndian, [c_H])) ;;
    glyph_index <- tuple1 vs ;;
    if glyph_index =? 65535 then ret (-1) else ret glyph_index.

Definition _get_glyph_bitmap_offset (glyph_index : Z) : M t Z :=
  self <- state ;;
  on_file (seek (_bitmap_position_lut_location self + glyph_index * 4)) ;;
  vs <- on_file (read_values (BigEndian, [c_I])) ;;
  tuple1 vs.

Definition _get_metrics (glyph_index : Z) : M t MetricsEntry :=
  self <- state ;;
  if _metrics_compressed self
  then on_file (seek (_metrics_data_location self + glyph_index * 5)) ;;
       on_file read_metrics_entry_compressed
  else on_file (seek (_metrics_data_location self + glyph_index * 12)) ;;
       on_file read_metrics_entry_standard.

(** The dictionary comprehension of [load_glyphs]. *)
Fixpoint collect_indices (code_points : list Z) (glyphs_indices : OrderedDict.t Z Z)
  : M t (OrderedDict.t Z Z) :=
  match code_points with
  | [] => ret glyphs_indices
  | c :: rest =>
      index <- _get_glyph_index c ;;
      collect_indices rest
        (if index >=? 0
         then OrderedDict.assign Z.eq_dec c index glyphs_indices
         else glyphs_indices)
  end.

(** One round of the first loop of [load_glyphs]; returns the address of
    the new bitmap. *)
Definition create_glyph (entry : MetricsEntry * Z) : M t nat :=
  let (metrics, code_point) := entry in
  let width := right_side_bearing metrics - left_side_bearing metrics in
  let height := character_ascent metrics + character_descent metrics in
  b <- lift (DisplayioBitmap width height 2) ;;
  bitmap <- alloc (OBitmap b) ;;
  glyph <- alloc (OGlyph (mkGlyph bitmap 0 width height
                                   (left_side_bearing metrics)
                                   (- character_descent metrics)
                                   (character_width metrics) 0)) ;;
  on_lru (LruCache.put Z.eq_dec code_point (Some glyph)) ;;
  ret bitmap.

(** [_bitmap_readinto] on the bitmap at address [bitmap] and on
    [self._file]. *)
Definition readinto (bitmap : nat) (bits_per_pixel element_size : Z)
           (reverse_pixels_in_element : bool) : M t unit :=
  fun self =>
    match nth_error (heap self) bitmap with
    | Some (OBitmap b) =>
        let '(r, (b', f')) :=
          _bitmap_readinto bits_per_pixel element_size
                           reverse_pixels_in_element (b, _file self) in
        (r, set_file f' (set_heap (list_set bitmap (OBitmap b') (heap self)) self))
    | _ => (Raise AttributeError, self)
    end.

(** One round of the second loop of [load_glyphs]. *)
Definition fill_bitmap (entry : Z * nat) : M t unit :=
  let (bmp_offset, bitmap) := entry in
  self <- state ;;
  on_file (seek (_bitmap_data_location self + bmp_offset)) ;;
  readinto bitmap 1 (_glyph_padding self) true.

Definition load_glyphs (code_points : code_points_arg) : M t unit :=
  let code_points :=
    match code_points with
    | CodePoint c => [c]
    | Text s => map ord (list_ascii_of_string s)
    | Iter cs => cs
    end in
  self <- state ;;
  let code_points :=
    sorted (filter (fun c => negb (OrderedDict.contains Z.eq_dec c
                                     (LruCache._cache (_cache self))))
                   code_points) in
  match code_points with
  | [] => ret tt
  | _ =>
      glyphs_indices <- collect_indices code_points [] ;;
      match glyphs_indices with
      | [] => ret tt
      | _ =>
          bitmaps_offsets <-
            map_m _get_glyph_bitmap_offset (map snd glyphs_indices) ;;
          char_metrics <- map_m _get_metrics (map snd glyphs_indices) ;;
          gc_collect ;;
          bitmaps <-
            map_m create_glyph
                  (combine char_metrics (OrderedDict.keys glyphs_indices)) ;;
          for_each (combine bitmaps_offsets bitmaps) fill_bitmap
      end
  end.

Definition get_glyph (code_point : Z) : M t (option nat) :=
  present <- on_lru (LruCache.contains Z.eq_dec code_point) ;;
  when (negb present)
       (load_glyphs (CodePoint code_point) ;; gc_collect) ;;
  on_lru (LruCache.get Z.eq_dec code_point).

Definition ascent (self : t) : Z := _ascent self.

Definition descent (self : t) : Z := _descent self.

Definition get_bounding_box (self : t) : Z * Z * Z * Z := _bounding_box self.

End Host.

Arguments OBitmap {Bitmap} b.
Arguments OGlyph {Bitmap} g.
Arguments _file {Bitmap} t.
Arguments _glyph_padding {Bitmap} t.
Arguments _metrics_compressed {Bitmap} t.
Arguments _min_byte2 {Bitmap} t.
Arguments _max_byte2 {Bitmap} t.
Arguments _min_byte1 {Bitmap} t.
Arguments _max_byte1 {Bitmap} t.
Arguments _default_char {Bitmap} t.
Arguments _ascent {Bitmap} t.
Arguments _descent {Bitmap} t.
Arguments _bounding_box {Bitmap} t.
Arguments _bitmap_position_lut_location {Bitmap} t.
Arguments _bitmap_data_location {Bitmap} t.
Arguments _metrics_data_location {Bitmap} t.
Arguments _encoded_glyph_indices_location {Bitmap} t.
Arguments _cache {Bitmap} t.
Arguments heap {Bitmap} t.
Arguments set_file {Bitmap} f self.
Arguments set_cache {Bitmap} c self.
Arguments set_heap {Bitmap} h self.
Arguments on_file {Bitmap A} m self.
Arguments on_lru {Bitmap A} m self.
Arguments alloc {Bitmap} o self.
Arguments _get_glyph_index {Bitmap} code_point.
Arguments _get_glyph_bitmap_offset {Bitmap} glyph_index.
Arguments _get_metrics {Bitmap} glyph_index.
Arguments collect_indices {Bitmap} code_points glyphs_indices.
Arguments create_glyph {Bitmap} DisplayioBitmap entry.
Arguments readinto {Bitmap} _bitmap_readinto bitmap bits_per_pixel element_size
          reverse_pixels_in_element.
Arguments fill_bitmap {Bitmap} _bitmap_readinto entry.
Arguments load_glyphs {Bitmap} DisplayioBitmap _bitmap_readinto code_points.
Arguments get_glyph {Bitmap} DisplayioBitmap _bitmap_readinto code_point.
Arguments ascent {Bitmap} self.
Arguments descent {Bitmap} self.
Arguments get_bounding_box {Bitmap} self.

End PcfFont.

(** ** Vocabulary of the cache properties *)

Module LruCacheSpec.
Section Spec.
Context {K V : Type}.
Variable K_eq_dec : forall x y : K, {x = y} + {x <> y}.

(** A sequence of [put] calls. *)
Definition put_all (entries : list (K * option V)) : M (LruCache.t K V) unit :=
  for_each entries (fun kv => LruCache.put K_eq_dec (fst kv) (snd kv)).

(** The calls a client can make. *)
Inductive op : Type :=
| Get (k : K)
| Put (k : K) (v : option V)
| Contains (k : K).

Definition apply (o : op) : M (LruCache.t K V) unit :=
  match o with
  | Get k => LruCache.get K_eq_dec k ;; ret tt
  | Put k v => LruCache.put K_eq_dec k v
  | Contains k => LruCache.contains K_eq_dec k ;; ret tt
  end.

Definition run (ops : list op) : M (LruCache.t K V) unit := for_each ops apply.

Definition put_keys (ops : list op) : list K :=
  flat_map (fun o => match o with Put k _ => [k] | _ => [] end) ops.

(** The key a call touches, counting a [put] and a [get] on a present
    key. *)
Definition touch_present (o : op) (c : LruCache.t K V) : option K :=
  match o with
  | Put k _ => Some k
  | Get k =>
      if OrderedDict.contains K_eq_dec k (LruCache._cache c) then Some k else None
  | Contains _ => None
  end.

(** The key a call touches, counting a [put] and a [get] that returns an
    object. *)
Definition touch (o : op) (c : LruCache.t K V) : option K :=
  match o with
  | Put k _ => Some k
  | Get k =>
      match fst (LruCache.get K_eq_dec k c) with
      | Ok (Some _) => Some k
      | _ => None
      end
  | Contains _ => None
  end.

(** The calls store objects: none is a [put] of [None]. *)
Definition stores_objects (ops : list op) : Prop :=
  Forall (fun o => match o with Put _ None => False | _ => True end) ops.

(** A cache whose values are objects. *)
Definition holds_objects (c : LruCache.t K V) : Prop :=
  Forall (fun kv => snd kv <> None) (LruCache._cache c).

(** The keys touched while [ops] run from [c], latest first, in front of
    the keys [past] touched before. *)
Fixpoint history (touched : op -> LruCache.t K V -> option K)
         (ops : list op) (c : LruCache.t K V) (past : list K) : list K :=
  match ops with
  | [] => past
  | o :: rest =>
      history touched rest (snd (apply o c))
              (match touched o c with
               | Some k => k :: past
               | None => past
               end)
  end.

(** The distinct keys of a history, each at its latest touch. *)
Fixpoint recent (past : list K) : list K :=
  match past with
  | [] => []
  | k :: rest => k :: List.remove K_eq_dec k (recent rest)
  end.

(** How many touches ago [k] was last touched. *)
Fixpoint age (k : K) (past : list K) : nat :=
  match past with
  | [] => O
  | k' :: rest => if K_eq_dec k k' then O else S (age k rest)
  end.

(** [a] was touched after [b]. *)
Definition by_age (past : list K) (a b : K) : Prop :=
  (age a past < age b past)%nat.

(** A cache of capacity at least one that holds no more than it. *)
Definition within (c : LruCache.t K V) : Prop :=
  1 <= LruCache._capacity c
  /\ Z.of_nat (length (LruCache._cache c)) <= LruCache._capacity c.

End Spec.
End LruCacheSpec.

(** ** Sample caches and call sequences, with integer keys and values *)

Module CacheSamples.
Import LruCacheSpec.

Definition two_then_third : list (op (K := Z) (V := Z)) :=
  [Put 1 (Some 10); Put 2 (Some 20); Get 1; Put 3 (Some 30)].

(** The same calls, the first key holding [None]. *)
Definition none_then_third : list (op (K := Z) (V := Z)) :=
  [Put 1 None; Put 2 (Some 20); Get 1; Put 3 (Some 30)].

Definition holding_none : LruCache.t Z Z :=
  LruCache.Build [(2, Some 20); (1, None)] 2.

Definition full_pair : LruCache.t Z Z :=
  LruCache.Build [(1, Some 10); (2, Some 20)] 2.

End CacheSamples.

(** ** Vocabulary of the font properties: how integers are laid out in a
       font file, and what a file says at an offset *)

Module PcfSpec.
Import Pcf.

(** The byte whose value is [x] modulo 256. *)
Definition byte_of (x : Z) : byte :=
  match Byte.of_N (Z.to_N (x mod 256)) with
  | Some b => b
  | None => x00
  end.

Definition be16 (x : Z) : list byte := [byte_of (x / 256); byte_of x].

Definition be32 (x : Z) : list byte :=
  [byte_of (x / 16777216); byte_of (x / 65536); byte_of (x / 256); byte_of x].

Definition le32 (x : Z) : list byte := rev (be32 x).

(** The five bytes of a compressed metrics record: each field plus 128,
    in the order left bearing, right bearing, width, ascent, descent. *)
Definition biased_bytes (m : MetricsEntry) : list byte :=
  [ byte_of (left_side_bearing m + 128);
    byte_of (right_side_bearing m + 128);
    byte_of (character_width m + 128);
    byte_of (character_ascent m + 128);
    byte_of (character_descent m + 128) ].

(** The unsigned 16-bit value stored at [at_], most significant byte
    first, when the file has two bytes there. *)
Definition u16_be_at (bytes : list byte) (at_ : Z) : option Z :=
  match skipn (Z.to_nat at_) bytes with
  | hi :: lo :: _ => Some (byte_value hi * 256 + byte_value lo)
  | _ => None
  end.

(** The unsigned 32-bit value stored at [at_], most significant byte
    first, when the file has four bytes there. *)
Definition u32_be_at (bytes : list byte) (at_ : Z) : option Z :=
  match skipn (Z.to_nat at_) bytes with
  | b3 :: b2 :: b1 :: b0 :: _ =>
      Some (((byte_value b3 * 256 + byte_value b2) * 256 + byte_value b1) * 256
            + byte_value b0)
  | _ => None
  end.

(** The values a format code can give. *)
Definition in_range (c : code) (v : Z) : Prop :=
  match c with
  | c_B => 0 <= v < 256
  | c_h => -32768 <= v < 32768
  | c_H => 0 <= v < 65536
  | c_i => -2147483648 <= v < 2147483648
  | c_I => 0 <= v < 4294967296
  end.

(** The bytes left in a file from its position on. *)
Definition remaining (f : File) : list byte :=
  skipn (Z.to_nat (pos f)) (content f).

(** A file computation that leaves the bytes alone, and whose outcome
    and final position depend on the bytes and the position only. *)
Definition reader {A : Type} (m : M File A) : Prop :=
  (forall f, content (snd (m f)) = content f)
  /\ (forall f f',
        content f = content f' -> pos f = pos f' ->
        fst (m f) = fst (m f') /\ pos (snd (m f)) = pos (snd (m f'))).

(** *** Font files built from a table of contents *)

Definition toc_entry : Type := (Z * Z * Z * Z)%type.

Definition entry_type (e : toc_entry) : Z :=
  let '(type_, _, _, _) := e in type_.

Definition toc_entry_bytes (e : toc_entry) : list byte :=
  let '(type_, format_, size, offset) := e in
  le32 type_ ++ le32 format_ ++ le32 size ++ le32 offset.

Definition magic : list byte := [x01; x66; x63; x70].

(** The file with the magic, the table count, the entries of [toc], and
    [body] after them. *)
Definition font_file (toc : list toc_entry) (body : list byte) : list byte :=
  magic ++ le32 (Z.of_nat (length toc)) ++ flat_map toc_entry_bytes toc ++ body.

Definition u32 (x : Z) : Prop := 0 <= x < 4294967296.

Definition toc_entry_ok (e : toc_entry) : Prop :=
  let '(type_, format_, size, offset) := e in
  u32 type_ /\ u32 format_ /\ u32 size /\ u32 offset.

Definition toc_ok (toc : list toc_entry) : Prop :=
  Forall toc_entry_ok toc /\ Z.of_nat (length toc) < 4294967296.

(** The required kinds a table of contents names, each once. *)
Definition kinds (toc : list toc_entry) : list Z :=
  nodup Z.eq_dec (filter PcfFont.is_necessary (map entry_type toc)).

Definition has (kind : Z) (toc : list toc_entry) : Prop :=
  In kind (map entry_type toc).

(** Exactly one of accelerators and BDF-accelerators, and metrics,
    bitmaps and BDF-encodings. *)
Definition exactly_one_accelerator_and_the_rest (toc : list toc_entry) : Prop :=
  ((has _PCF_TABLETYPE_ACCELERATORS toc /\ ~ has _PCF_TABLETYPE_BDFACCELERATORS toc)
   \/ (~ has _PCF_TABLETYPE_ACCELERATORS toc /\ has _PCF_TABLETYPE_BDFACCELERATORS toc))
  /\ has _PCF_TABLETYPE_METRICS toc
  /\ has _PCF_TABLETYPE_BITMAPS toc
  /\ has _PCF_TABLETYPE_BDFENCODINGS toc.

(** What the loop of [__init__] retains of a table of contents. *)
Definition retain (tables : PcfFont.Tables) (e : toc_entry) : PcfFont.Tables :=
  let '(type_, format_, size, offset) := e in
  if PcfFont.is_necessary type_
  then OrderedDict.assign Z.eq_dec type_ (mkTableTocEntry format_ size offset) tables
  else tables.

Definition retained (toc : list toc_entry) (tables : PcfFont.Tables) : PcfFont.Tables :=
  fold_left retain toc tables.

(** A table whose format declares most significant byte first and most
    significant bit first. *)
Definition msb_first (e : TableTocEntry) : Prop :=
  Z.land (format e) (Z.lor _PCF_BYTE_MASK _PCF_BIT_MASK)
  = Z.lor _PCF_BYTE_MASK _PCF_BIT_MASK.

(** The exceptions of [__init__]: its four ValueErrors, the KeyError of
    a missing table, and [struct.error] where the file ends early. *)
Definition init_error (e : exn) : Prop :=
  match e with
  | ValueError msg =>
      In msg [ "Magic mismatch, unknown font file";
               "Corrupted font data";
               "Only support MSByte data and MSBit glyph";
               "Only support bits stored in bytes" ]%string
  | KeyError | StructError => True
  | _ => False
  end.

(** Tables as the loop of [__init__] builds them: offsets that are not
    negative, and distinct keys among the required kinds. *)
Definition tables_ok (tables : PcfFont.Tables) : Prop :=
  Forall (fun e => 0 <= offset e) (map snd tables)
  /\ NoDup (OrderedDict.keys tables)
  /\ incl (OrderedDict.keys tables) PcfFont.necessary_tables_types.

(** *** A small font: one glyph, at code point [0x41], with metrics
    [(0, 8, 8, 7, 1)] and an 8 by 8 bitmap of zeros; code point [0x42]
    is in the encoding range and has no glyph. *)

Definition standard_bytes (m : MetricsEntry) : list byte :=
  be16 (left_side_bearing m) ++ be16 (right_side_bearing m)
  ++ be16 (character_width m) ++ be16 (character_ascent m)
  ++ be16 (character_descent m) ++ be16 (character_attributes m).

(** A record of a metrics table, compressed or not. *)
Definition metrics_record (compressed : bool) (m : MetricsEntry) : list byte :=
  if compressed then biased_bytes m else standard_bytes m.

(** The entries a record can hold: five fields between -128 and 127 in a
    compressed table; five signed and one unsigned 16-bit field
    otherwise. *)
Definition metrics_fit (compressed : bool) (m : MetricsEntry) : Prop :=
  if compressed
  then -128 <= left_side_bearing m <= 127
       /\ -128 <= right_side_bearing m <= 127
       /\ -128 <= character_width m <= 127
       /\ -128 <= character_ascent m <= 127
       /\ -128 <= character_descent m <= 127
  else in_range c_h (left_side_bearing m)
       /\ in_range c_h (right_side_bearing m)
       /\ in_range c_h (character_width m)
       /\ in_range c_h (character_ascent m)
       /\ in_range c_h (character_descent m)
       /\ in_range c_H (character_attributes m).

(** What a record gives back: a compressed record has no attributes. *)
Definition metrics_read_back (compressed : bool) (m : MetricsEntry)
  : MetricsEntry :=
  if compressed
  then mkMetricsEntry (left_side_bearing m) (right_side_bearing m)
                      (character_width m) (character_ascent m)
                      (character_descent m) 0
  else m.

Definition sample_metrics : MetricsEntry := mkMetricsEntry 0 8 8 7 1 0.

Definition sample_accelerators : list byte :=
  be32 12 ++ repeat x00 8 ++ be32 7 ++ be32 1 ++ be32 0
  ++ standard_bytes sample_metrics ++ standard_bytes sample_metrics.

Definition sample_metrics_table : list byte :=
  be32 268 ++ be16 1 ++ biased_bytes sample_metrics ++ [x00].

Definition sample_bitmaps : list byte :=
  be32 12 ++ be32 1 ++ be32 0
  ++ be32 8 ++ be32 16 ++ be32 32 ++ be32 64
  ++ repeat x00 8.

Definition sample_encodings : list byte :=
  be32 12 ++ be16 65 ++ be16 66 ++ be16 0 ++ be16 0 ++ be16 65
  ++ be16 0 ++ be16 65535.

Definition sample_body : list byte :=
  sample_accelerators ++ sample_metrics_table ++ sample_bitmaps
  ++ sample_encodings.

(** Both accelerator kinds, on the same table, and the three others. *)
Definition sample_toc : list toc_entry :=
  [ (_PCF_TABLETYPE_ACCELERATORS, 12, 48, 88);
    (_PCF_TABLETYPE_METRICS, 268, 12, 136);
    (_PCF_TABLETYPE_BITMAPS, 12, 36, 148);
    (_PCF_TABLETYPE_BDFENCODINGS, 12, 18, 184);
    (_PCF_TABLETYPE_BDFACCELERATORS, 12, 48, 88) ].

Definition sample_font : list byte := font_file sample_toc sample_body.

(** The small font with a metrics table that counts two glyphs, its
    bitmaps table counting one. *)
Definition miscounted_body : list byte :=
  sample_accelerators
  ++ (be32 268 ++ be16 2 ++ biased_bytes sample_metrics ++ [x00])
  ++ sample_bitmaps ++ sample_encodings.

(** Both accelerator kinds, bitmaps and BDF-encodings, and no metrics. *)
Definition no_metrics_toc : list toc_entry :=
  [ (_PCF_TABLETYPE_ACCELERATORS, 12, 48, 72);
    (_PCF_TABLETYPE_BITMAPS, 12, 36, 132);
    (_PCF_TABLETYPE_BDFENCODINGS, 12, 18, 168);
    (_PCF_TABLETYPE_BDFACCELERATORS, 12, 48, 72) ].

Definition no_metrics_font : list byte := font_file no_metrics_toc sample_body.

(** The small font with its metrics table declared least significant
    byte first. *)
Definition lsb_metrics_toc : list toc_entry :=
  [ (_PCF_TABLETYPE_ACCELERATORS, 12, 48, 88);
    (_PCF_TABLETYPE_METRICS, 264, 12, 136);
    (_PCF_TABLETYPE_BITMAPS, 12, 36, 148);
    (_PCF_TABLETYPE_BDFENCODINGS, 12, 18, 184);
    (_PCF_TABLETYPE_BDFACCELERATORS, 12, 48, 88) ].

(** The small font with its bitmaps stored in 16-bit scan units. *)
Definition wide_scan_toc : list toc_entry :=
  [ (_PCF_TABLETYPE_ACCELERATORS, 12, 48, 88);
    (_PCF_TABLETYPE_METRICS, 268, 12, 136);
    (_PCF_TABLETYPE_BITMAPS, 28, 36, 148);
    (_PCF_TABLETYPE_BDFENCODINGS, 12, 18, 184);
    (_PCF_TABLETYPE_BDFACCELERATORS, 12, 48, 88) ].

(** Both accelerator kinds, metrics and BDF-encodings, and no bitmaps. *)
Definition no_bitmaps_toc : list toc_entry :=
  [ (_PCF_TABLETYPE_ACCELERATORS, 12, 48, 72);
    (_PCF_TABLETYPE_METRICS, 268, 12, 120);
    (_PCF_TABLETYPE_BDFENCODINGS, 12, 18, 168);
    (_PCF_TABLETYPE_BDFACCELERATORS, 12, 48, 72) ].

(** A metrics table alone. *)
Definition metrics_only_toc : list toc_entry :=
  [ (_PCF_TABLETYPE_METRICS, 12, 0, 24) ].

End PcfSpec.

(** ** A display runtime *)

Module RefHost.
Import Pcf.

(** Modelled from the spec: the pixel bitmap of the host display runtime
    and its constructor [new_bitmap(width, height, bit_depth)], which are
    not part of this repository; a bitmap is its rows of pixels, top
    first. *)
Record Bitmap : Type := mkBitmap
  { bm_width : Z;
    bm_height : Z;
    bm_value_count : Z;
    bm_rows : list (list bool) }.

Definition DisplayioBitmap (width height value_count : Z) : res Bitmap :=
  Ok (mkBitmap width height value_count
               (repeat (repeat false (Z.to_nat width)) (Z.to_nat height))).

(** The bits of a byte, most significant first. *)
Definition bits_of_byte (b : byte) : list bool :=
  map (Z.testbit (byte_value b)) [7; 6; 5; 4; 3; 2; 1; 0].

Fixpoint read_rows (rows : nat) (stride : Z) (width : nat)
  : M File (list (list bool)) :=
  match rows with
  | O => ret []
  | S rows' =>
      data <- read stride ;;
      if Z.of_nat (length data) =? stride
      then rest <- read_rows rows' stride width ;;
           ret (firstn width (flat_map bits_of_byte data) :: rest)
      else raise EOFError
  end.

(** Modelled from the spec: the host routine [unpack_into(bitmap, source,
    bits_per_pixel, element_size, bit_order)], not part of this
    repository: rows of [ceil(width / (padding_unit * 8)) * padding_unit]
    bytes, read most significant bit first, left to right and top to
    bottom, the pad bits beyond the width dropped; a short read fails. *)
Definition _bitmap_readinto (bits_per_pixel element_size : Z)
           (reverse_pixels_in_element : bool) : M (Bitmap * File) unit :=
  fun '(b, f) =>
    match read_rows (Z.to_nat (bm_height b))
                    (bytes_per_row (bm_width b) element_size)
                    (Z.to_nat (bm_width b)) f with
    | (Ok rows, f') =>
        (Ok tt, (mkBitmap (bm_width b) (bm_height b) (bm_value_count b) rows, f'))
    | (Raise e, f') => (Raise e, (b, f'))
    end.

End RefHost.

(** ** Outcomes of a computation: [triple P m Q E] says that [m], run
       from a state in [P], ends in [Q] with its value when it returns and
       in [E] when it raises. *)

Module Hoare.

Definition triple {S A : Type} (P : S -> Prop) (m : M S A)
           (Q : A -> S -> Prop) (E : S -> Prop) : Prop :=
  forall s, P s ->
            match m s with
            | (Ok a, s') => Q a s'
            | (Raise _, s') => E s'
            end.

(** Every run of [m] returns a value in [Q] or raises an exception in
    [X]. *)
Definition outcome {S A : Type} (m : M S A) (Q : A -> Prop) (X : exn -> Prop)
  : Prop :=
  forall s, match fst (m s) with
            | Ok a => Q a
            | Raise e => X e
            end.

(** Whether [m] returns or raises, the state it ends in is related by
    [R] to the state it was started in. *)
Definition keeps {S A : Type} (R : S -> S -> Prop) (m : M S A) : Prop :=
  forall s, R s (snd (m s)).

End Hoare.

(** ** Vocabulary of the font facade properties *)

Module FontSpec.
Import Pcf PcfFont.

(** A font object with nothing in it, for the results that are no
    font. *)
Definition blank (Bitmap : Type) : PcfFont.t Bitmap :=
  PcfFont.mk Bitmap (open []) 1 false 0 0 0 0 0 0 0 (0, 0, 0, 0) 0 0 0 0
             (LruCache.init 0) [].

(** The font [__init__] returns. *)
Definition opened {Bitmap : Type} (r : res (PcfFont.t Bitmap) * File)
  : PcfFont.t Bitmap :=
  match fst r with
  | Ok self => self
  | Raise _ => blank Bitmap
  end.

(** The small font, opened with the default capacity. *)
Definition sample_opened : PcfFont.t RefHost.Bitmap :=
  opened (PcfFont.__init__ RefHost.Bitmap PcfSpec.sample_font 128).

(** The small font after [get_glyph(0x41)]. *)
Definition sample_used : PcfFont.t RefHost.Bitmap :=
  snd (PcfFont.get_glyph RefHost.DisplayioBitmap RefHost._bitmap_readinto 65
                         sample_opened).

(** The small font opened with capacity 0, after [get_glyph(0x41)]. *)
Definition sample_without_capacity : PcfFont.t RefHost.Bitmap :=
  snd (PcfFont.get_glyph RefHost.DisplayioBitmap RefHost._bitmap_readinto 65
         (opened (PcfFont.__init__ RefHost.Bitmap PcfSpec.sample_font 0))).

(** The code points an argument of [load_glyphs] names, in its order. *)
Definition code_points_of (code_points : code_points_arg) : list Z :=
  match code_points with
  | CodePoint c => [c]
  | Text s => map ord (list_ascii_of_string s)
  | Iter cs => cs
  end.

(** The five equations between a glyph and a metrics entry. *)
Definition glyph_for (m : MetricsEntry) (g : Glyph) : Prop :=
  width g = right_side_bearing m - left_side_bearing m
  /\ height g = character_ascent m + character_descent m
  /\ dx g = left_side_bearing m
  /\ dy g = - character_descent m
  /\ shift_x g = character_width m.

Section Facade.
Context {Bitmap : Type}.
Variable DisplayioBitmap : Z -> Z -> Z -> res Bitmap.
Variable _bitmap_readinto : Z -> Z -> bool -> M (Bitmap * File) unit.

(** The host routine reads the file and leaves its bytes alone. *)
Definition reads_only : Prop :=
  forall bits_per_pixel element_size reverse_pixels_in_element b f,
    content (snd (snd (_bitmap_readinto bits_per_pixel element_size
                                        reverse_pixels_in_element (b, f))))
    = content f.

(** The code point resolves to a glyph index, and the metrics table has
    the entry [m] for it. *)
Definition metrics_of (self : PcfFont.t Bitmap) (code_point : Z)
           (m : MetricsEntry) : Prop :=
  exists glyph_index,
    fst (_get_glyph_index code_point self) = Ok glyph_index
    /\ 0 <= glyph_index
    /\ fst (_get_metrics glyph_index self) = Ok m.

(** Two states of one font: the same bytes and the same values computed
    when it was opened. *)
Definition same_font (s s' : PcfFont.t Bitmap) : Prop :=
  content (_file s) = content (_file s')
  /\ _glyph_padding s = _glyph_padding s'
  /\ _metrics_compressed s = _metrics_compressed s'
  /\ _min_byte2 s = _min_byte2 s'
  /\ _max_byte2 s = _max_byte2 s'
  /\ _min_byte1 s = _min_byte1 s'
  /\ _max_byte1 s = _max_byte1 s'
  /\ _bitmap_position_lut_location s = _bitmap_position_lut_location s'
  /\ _bitmap_data_location s = _bitmap_data_location s'
  /\ _metrics_data_location s = _metrics_data_location s'
  /\ _encoded_glyph_indices_location s = _encoded_glyph_indices_location s'.

(** The values [__init__] computes from the tables and stores in the
    font. *)
Definition header (self : PcfFont.t Bitmap)
  : Z * bool * (Z * Z * Z * Z * Z) * (Z * Z * (Z * Z * Z * Z))
    * (Z * Z * Z * Z) :=
  (_glyph_padding self, _metrics_compressed self,
   (_min_byte2 self, _max_byte2 self, _min_byte1 self, _max_byte1 self,
    _default_char self),
   (_ascent self, _descent self, _bounding_box self),
   (_bitmap_position_lut_location self, _bitmap_data_location self,
    _metrics_data_location self, _encoded_glyph_indices_location self)).

Definition header_kept (s s' : PcfFont.t Bitmap) : Prop :=
  header s' = header s.

Definition bytes_kept (s s' : PcfFont.t Bitmap) : Prop :=
  content (_file s') = content (_file s).

(** Every object of [s] is in [s'], at its address and as it was. *)
Definition objects_kept (s s' : PcfFont.t Bitmap) : Prop :=
  exists more, heap s' = heap s ++ more.

(** Every cached value is a glyph object made from the metrics entry of
    its code point. *)
Definition cache_ok (s0 s : PcfFont.t Bitmap) : Prop :=
  same_font s0 s
  /\ LruCacheSpec.within (_cache s)
  /\ forall code_point v,
      In (code_point, v) (LruCache._cache (_cache s)) ->
      exists a g m,
        v = Some a
        /\ nth_error (heap s) a = Some (OGlyph g)
        /\ metrics_of s0 code_point m
        /\ glyph_for m g.

(** The states of a font opened on [bytes], after any calls of
    [load_glyphs] and [get_glyph], whether they returned or raised. *)
Inductive reachable (bytes : list byte) (capacity : Z) : PcfFont.t Bitmap -> Prop :=
| reach_init self :
    fst (PcfFont.__init__ Bitmap bytes capacity) = Ok self ->
    reachable bytes capacity self
| reach_load_glyphs self code_points :
    reachable bytes capacity self ->
    reachable bytes capacity
              (snd (load_glyphs DisplayioBitmap _bitmap_readinto code_points self))
| reach_get_glyph self code_point :
    reachable bytes capacity self ->
    reachable bytes capacity
              (snd (get_glyph DisplayioBitmap _bitmap_readinto code_point self)).

End Facade.

End FontSpec.

(** * Properties *)

(** ** The ordered dictionary *)

Section DictFacts.
Context {K V : Type}.
Variable K_eq_dec : forall x y : K, {x = y} + {x <> y}.

Local Abbreviation dict := (OrderedDict.t K V).
Local Abbreviation keys := (@OrderedDict.keys K V).
Local Abbreviation lookup := (OrderedDict.lookup K_eq_dec).
Local Abbreviation remove := (OrderedDict.remove K_eq_dec).
Local Abbreviation assign := (OrderedDict.assign K_eq_dec).

Lemma keys_app (a b : dict) : keys (a ++ b) = keys a ++ keys b.
Proof. apply map_app. Qed.

Lemma keys_remove (k : K) (d : dict) :
  keys (remove k d) = List.remove K_eq_dec k (keys d).
Proof.
  induction d as [|[k' v'] d IH]; simpl; auto.
  destruct (K_eq_dec k k'); simpl; rewrite IH; reflexivity.
Qed.

Lemma lookup_assign (k : K) (v : V) (d : dict) :
  lookup k (assign k v d) = Some v.
Proof.
  induction d as [|[k' v'] d IH]; simpl.
  - destruct (K_eq_dec k k); congruence.
  - destruct (K_eq_dec k k') as [e|n]; simpl.
    + destruct (K_eq_dec k k); congruence.
    + destruct (K_eq_dec k k'); congruence.
Qed.

Lemma remove_assign (k : K) (v : V) (d : dict) :
  remove k (assign k v d) = remove k d.
Proof.
  induction d as [|[k' v'] d IH]; simpl.
  - destruct (K_eq_dec k k); congruence.
  - destruct (K_eq_dec k k') as [e|n]; simpl.
    + destruct (K_eq_dec k k); congruence.
    + destruct (K_eq_dec k k'); congruence.
Qed.

Lemma lookup_None (k : K) (d : dict) :
  lookup k d = None <-> ~ In k (keys d).
Proof.
  induction d as [|[k' v'] d IH]; simpl.
  - tauto.
  - destruct (K_eq_dec k k') as [e|n].
    + split; [discriminate | intros H; exfalso; apply H; left; congruence].
    + rewrite IH. split; intros H; [intros [E|I]; [congruence | tauto] | tauto].
Qed.

Lemma lookup_Some_In (k : K) (v : V) (d : dict) :
  lookup k d = Some v -> In (k, v) d.
Proof.
  induction d as [|[k' v'] d IH]; simpl; [discriminate|].
  destruct (K_eq_dec k k') as [e|n]; intros H.
  - left. congruence.
  - right. auto.
Qed.

Lemma In_lookup (k : K) (v : V) (d : dict) :
  NoDup (keys d) -> In (k, v) d -> lookup k d = Some v.
Proof.
  induction d as [|[k' v'] d IH]; simpl; [tauto|].
  intros ND [E|I]; inversion ND as [|? ? Hn ND']; subst.
  - inversion E; subst. destruct (K_eq_dec k k); congruence.
  - destruct (K_eq_dec k k') as [e|n]; auto.
    subst. exfalso. apply Hn. change (In (fst (k', v)) (keys d)).
    apply in_map. exact I.
Qed.

Lemma remove_absent (k : K) (d : dict) :
  ~ In k (keys d) -> remove k d = d.
Proof.
  induction d as [|[k' v'] d IH]; simpl; auto.
  intros H. destruct (K_eq_dec k k') as [e|n].
  - exfalso. apply H. left. congruence.
  - f_equal. apply IH. intros HI. apply H. right. exact HI.
Qed.

Lemma remove_length_le (k : K) (d : dict) :
  (length (remove k d) <= length d)%nat.
Proof.
  induction d as [|[k' v'] d IH]; simpl; auto.
  destruct (K_eq_dec k k'); simpl; lia.
Qed.

Lemma remove_length_present (k : K) (d : dict) :
  NoDup (keys d) -> In k (keys d) -> S (length (remove k d)) = length d.
Proof.
  induction d as [|[k' v'] d IH]; simpl; [tauto|].
  intros ND HI. inversion ND as [|? ? Hn ND']; subst.
  destruct (K_eq_dec k k') as [e|n].
  - subst. rewrite remove_absent; auto.
  - simpl. f_equal. apply IH; auto. destruct HI as [E|I]; [congruence | exact I].
Qed.

Lemma remove_length_In (k : K) (d : dict) :
  In k (keys d) -> (length (remove k d) < length d)%nat.
Proof.
  induction d as [|[k' v'] d IH]; simpl; [tauto|].
  intros HI. pose proof (remove_length_le k d).
  destruct (K_eq_dec k k') as [e|n]; simpl; [lia|].
  destruct HI as [E|I]; [congruence|]. specialize (IH I). lia.
Qed.

Lemma remove_not_In (k : K) (d : dict) : ~ In k (keys (remove k d)).
Proof. rewrite keys_remove. apply remove_In. Qed.

Lemma In_keys_remove (k x : K) (d : dict) :
  In x (keys (remove k d)) -> In x (keys d).
Proof. rewrite keys_remove. intros H. apply in_remove in H. tauto. Qed.

Lemma NoDup_keys_remove (k : K) (d : dict) :
  NoDup (keys d) -> NoDup (keys (remove k d)).
Proof.
  induction d as [|[k' v'] d IH]; simpl; auto.
  intros ND. inversion ND as [|? ? Hn ND']; subst.
  destruct (K_eq_dec k k'); simpl; auto.
  constructor; auto. intros HI. apply Hn. eapply In_keys_remove; eauto.
Qed.

Lemma remove_Permutation (k : K) (v : V) (d : dict) :
  NoDup (keys d) -> lookup k d = Some v -> Permutation ((k, v) :: remove k d) d.
Proof.
  induction d as [|[k' v'] d IH]; simpl; [discriminate|].
  intros ND H. inversion ND as [|? ? Hn ND']; subst.
  destruct (K_eq_dec k k') as [e|n].
  - inversion H; subst. rewrite remove_absent; auto.
  - eapply perm_trans; [apply perm_swap|]. constructor. apply IH; auto.
Qed.

Lemma In_keys_assign (k x : K) (v : V) (d : dict) :
  In x (keys (assign k v d)) <-> x = k \/ In x (keys d).
Proof.
  induction d as [|[k' v'] d IH]; simpl.
  - intuition.
  - destruct (K_eq_dec k k') as [e|n]; simpl.
    + subst. intuition.
    + rewrite IH. intuition.
Qed.

Lemma NoDup_keys_assign (k : K) (v : V) (d : dict) :
  NoDup (keys d) -> NoDup (keys (assign k v d)).
Proof.
  induction d as [|[k' v'] d IH]; simpl; intros ND.
  - constructor; [simpl; tauto|constructor].
  - inversion ND as [|? ? Hn ND']; subst.
    destruct (K_eq_dec k k') as [e|n]; simpl.
    + subst. constructor; assumption.
    + constructor; [|auto].
      intros H. apply In_keys_assign in H. destruct H; [congruence|tauto].
Qed.

Lemma In_assign (k k' : K) (v v' : V) (d : dict) :
  In (k', v') (assign k v d) -> (k', v') = (k, v) \/ In (k', v') d.
Proof.
  induction d as [|[k0 v0] d IH]; simpl.
  - intros [E|[]]. left. congruence.
  - destruct (K_eq_dec k k0) as [e|n]; simpl.
    + intros [E|H]; [left; congruence | right; right; exact H].
    + intros [E|H]; [right; left; exact E|].
      destruct (IH H); [left | right; right]; assumption.
Qed.

Lemma In_remove (k : K) (kv : K * V) (d : dict) :
  In kv (remove k d) -> In kv d.
Proof.
  induction d as [|[k0 v0] d IH]; simpl; [tauto|].
  destruct (K_eq_dec k k0); simpl; intuition.
Qed.

Lemma popitem_last (d : dict) (kv : K * V) :
  OrderedDict.popitem (d ++ [kv]) = (Ok kv, d).
Proof.
  unfold OrderedDict.popitem. rewrite rev_app_distr. simpl.
  rewrite rev_involutive. reflexivity.
Qed.

Lemma nonempty_last (d : dict) :
  (0 < length d)%nat -> exists d0 kv, d = d0 ++ [kv].
Proof.
  intros H. destruct (exists_last (l := d)) as [d0 [kv E]].
  - intros E. subst. simpl in H. lia.
  - eauto.
Qed.

End DictFacts.

(** ** The cache *)

Section CacheFacts.
Context {K V : Type}.
Variable K_eq_dec : forall x y : K, {x = y} + {x <> y}.

Local Abbreviation dict := (OrderedDict.t K (option V)).
Local Abbreviation keys := (@OrderedDict.keys K (option V)).
Local Abbreviation lookup := (OrderedDict.lookup K_eq_dec).
Local Abbreviation remove := (OrderedDict.remove K_eq_dec).
Local Abbreviation cache := (LruCache.t K V).
Local Abbreviation get := (LruCache.get K_eq_dec).
Local Abbreviation put := (LruCache.put K_eq_dec).
Local Abbreviation contains := (LruCache.contains K_eq_dec).
Local Abbreviation put_all := (LruCacheSpec.put_all K_eq_dec).

(** [put] at capacity: the pair at the back goes, then the key is
    written and brought to the front. *)
Lemma put_when_full (d0 : dict) (last : K * option V) (C : Z)
      (k : K) (v : option V) :
  C <= Z.of_nat (length (d0 ++ [last])) ->
  put k v (LruCache.Build (d0 ++ [last]) C)
  = (Ok tt, LruCache.Build ((k, v) :: remove k d0) C).
Proof.
  intros H. unfold LruCache.put, bind, state, when, LruCache.on_cache. simpl.
  unfold OrderedDict.len.
  destruct (Z.geb_spec (Z.of_nat (length (d0 ++ [last]))) C) as [_|n]; [|lia].
  unfold bind, ret, LruCache.on_cache. simpl.
  rewrite popitem_last. simpl.
  unfold OrderedDict.move_to_end.
  rewrite lookup_assign, remove_assign. reflexivity.
Qed.

(** [put] below capacity: nothing goes. *)
Lemma put_when_room (d : dict) (C : Z) (k : K) (v : option V) :
  Z.of_nat (length d) < C ->
  put k v (LruCache.Build d C)
  = (Ok tt, LruCache.Build ((k, v) :: remove k d) C).
Proof.
  intros H. unfold LruCache.put, bind, state, when, LruCache.on_cache. simpl.
  unfold OrderedDict.len.
  destruct (Z.geb_spec (Z.of_nat (length d)) C) as [g|_]; [lia|].
  unfold ret. simpl.
  unfold OrderedDict.move_to_end.
  rewrite lookup_assign, remove_assign. reflexivity.
Qed.

(** [get] on a key holding an object. *)
Lemma get_object (d : dict) (C : Z) (k : K) (x : V) :
  lookup k d = Some (Some x) ->
  get k (LruCache.Build d C)
  = (Ok (Some x), LruCache.Build ((k, Some x) :: remove k d) C).
Proof.
  intros H. unfold LruCache.get, bind, state, LruCache.on_cache. simpl.
  unfold OrderedDict.get. rewrite H. simpl.
  unfold OrderedDict.move_to_end. rewrite H. reflexivity.
Qed.

(** [get] on an absent key, or on a key holding [None]. *)
Lemma get_nothing (c : cache) (k : K) :
  lookup k (LruCache._cache c) = None \/ lookup k (LruCache._cache c) = Some None ->
  get k c = (Ok None, c).
Proof.
  intros H. unfold LruCache.get, bind, state. simpl.
  unfold OrderedDict.get. destruct H as [H|H]; rewrite H; reflexivity.
Qed.

Lemma contains_pure (c : cache) (k : K) :
  contains k c = (Ok (OrderedDict.contains K_eq_dec k (LruCache._cache c)), c).
Proof. reflexivity. Qed.

Lemma contains_true_iff (d : dict) (k : K) :
  OrderedDict.contains K_eq_dec k d = true <-> In k (keys d).
Proof.
  unfold OrderedDict.contains.
  destruct (lookup k d) eqn:E.
  - split; auto. intros _. destruct (in_dec K_eq_dec k (keys d)) as [i|n]; auto.
    apply (proj2 (lookup_None K_eq_dec k d)) in n. congruence.
  - split; [discriminate|]. intros HI.
    apply (proj1 (lookup_None K_eq_dec k d)) in E. tauto.
Qed.

(** Every [put] on a cache of capacity at least one returns, and keeps
    the number of entries within the capacity. *)
Lemma put_within_capacity (c : cache) (k : K) (v : option V) :
  1 <= LruCache._capacity c ->
  Z.of_nat (length (LruCache._cache c)) <= LruCache._capacity c ->
  exists c',
    put k v c = (Ok tt, c')
    /\ LruCache._capacity c' = LruCache._capacity c
    /\ Z.of_nat (length (LruCache._cache c')) <= LruCache._capacity c.
Proof.
  destruct c as [d C]. simpl. intros HC Hlen.
  destruct (Z_lt_le_dec (Z.of_nat (length d)) C) as [lt|ge].
  - rewrite put_when_room by assumption. eexists. split; [reflexivity|].
    simpl. split; auto.
    pose proof (remove_length_le K_eq_dec k d). lia.
  - destruct (nonempty_last d) as [d0 [kv E]]; [lia|]. subst d.
    rewrite put_when_full by assumption. eexists. split; [reflexivity|].
    simpl. split; auto.
    pose proof (remove_length_le K_eq_dec k d0).
    rewrite length_app in Hlen. simpl in Hlen. lia.
Qed.

Lemma put_all_within_capacity (entries : list (K * option V)) (c : cache) :
  1 <= LruCache._capacity c ->
  Z.of_nat (length (LruCache._cache c)) <= LruCache._capacity c ->
  exists c',
    put_all entries c = (Ok tt, c')
    /\ LruCache._capacity c' = LruCache._capacity c
    /\ Z.of_nat (length (LruCache._cache c')) <= LruCache._capacity c.
Proof.
  revert c. induction entries as [|[k v] rest IH]; intros c HC Hlen.
  - exists c. repeat split; auto.
  - destruct (put_within_capacity c k v HC Hlen) as [c1 [E1 [Hcap1 Hlen1]]].
    destruct (IH c1) as [c2 [E2 [Hcap2 Hlen2]]]; try lia.
    exists c2. unfold LruCacheSpec.put_all in *. simpl. unfold bind at 1. simpl.
    rewrite E1. rewrite E2. repeat split; lia.
Qed.

(** C3.  For every capacity [C >= 1] and every sequence of [put] calls on
    an empty cache of that capacity, the calls all return and the cache
    then holds at most [C] entries. *)
Theorem put_sequence_bounded (C : Z) (entries : list (K * option V)) :
  1 <= C ->
  exists c',
    put_all entries (LruCache.init C) = (Ok tt, c')
    /\ Z.of_nat (length (LruCache._cache c')) <= C.
Proof.
  intros HC.
  destruct (put_all_within_capacity entries (LruCache.init C)) as [c' [E [_ H]]];
    simpl; try lia.
  exists c'. auto.
Qed.

End CacheFacts.

(** ** Recency *)

Section Recency.
Context {K V : Type}.
Variable K_eq_dec : forall x y : K, {x = y} + {x <> y}.

Local Abbreviation dict := (OrderedDict.t K (option V)).
Local Abbreviation keys := (@OrderedDict.keys K (option V)).
Local Abbreviation lookup := (OrderedDict.lookup K_eq_dec).
Local Abbreviation remove := (OrderedDict.remove K_eq_dec).
Local Abbreviation cache := (LruCache.t K V).
Local Abbreviation get := (LruCache.get K_eq_dec).
Local Abbreviation put := (LruCache.put K_eq_dec).
Local Abbreviation apply := (@LruCacheSpec.apply K V K_eq_dec).
Local Abbreviation run := (@LruCacheSpec.run K V K_eq_dec).
Local Abbreviation touch := (@LruCacheSpec.touch K V K_eq_dec).
Local Abbreviation history := (@LruCacheSpec.history K V K_eq_dec).
Local Abbreviation recent := (LruCacheSpec.recent K_eq_dec).
Local Abbreviation age := (LruCacheSpec.age K_eq_dec).
Local Abbreviation put_keys := (@LruCacheSpec.put_keys K V).
Local Abbreviation Put := (@LruCacheSpec.Put K V).
Local Abbreviation Get := (@LruCacheSpec.Get K V).
Local Abbreviation within := (@LruCacheSpec.within K V).
Local Abbreviation by_age := (LruCacheSpec.by_age K_eq_dec).

(** What one call does to the dictionary. *)
Lemma apply_put (c : cache) (k : K) (v : option V) :
  within c ->
  exists c',
    apply (Put k v) c = (Ok tt, c')
    /\ LruCache._capacity c' = LruCache._capacity c
    /\ within c'
    /\ ((Z.of_nat (length (LruCache._cache c)) < LruCache._capacity c
         /\ LruCache._cache c' = (k, v) :: remove k (LruCache._cache c))
        \/ (Z.of_nat (length (LruCache._cache c)) = LruCache._capacity c
            /\ exists d0 last,
                LruCache._cache c = d0 ++ [last]
                /\ LruCache._cache c' = (k, v) :: remove k d0)).
Proof.
  intros [HC Hlen].
  destruct (put_within_capacity K_eq_dec c k v HC Hlen) as [c' [E [Hcap Hlen']]].
  exists c'. simpl. split; [exact E|]. split; [exact Hcap|].
  split; [unfold LruCacheSpec.within; rewrite Hcap; auto|].
  destruct c as [d C]. simpl in *.
  destruct (Z_lt_le_dec (Z.of_nat (length d)) C) as [lt|ge].
  - left. split; auto. rewrite put_when_room in E by assumption.
    inversion E. reflexivity.
  - right. split; [lia|].
    destruct (nonempty_last d) as [d0 [kv Ed]]; [lia|]. subst d.
    rewrite put_when_full in E by assumption.
    exists d0, kv. split; auto. inversion E. reflexivity.
Qed.

Lemma apply_get (c : cache) (k : K) :
  (touch (Get k) c = Some k
   /\ In k (keys (LruCache._cache c))
   /\ exists x,
       apply (Get k) c
       = (Ok tt, LruCache.Build ((k, Some x) :: remove k (LruCache._cache c))
                                (LruCache._capacity c)))
  \/ (touch (Get k) c = None /\ apply (Get k) c = (Ok tt, c)).
Proof.
  destruct c as [d C]. simpl.
  destruct (lookup k d) as [[x|]|] eqn:E.
  - left. unfold LruCacheSpec.apply, bind.
    rewrite (get_object K_eq_dec d C k x E). simpl. split; auto. split.
    + destruct (in_dec K_eq_dec k (keys d)) as [i|n]; auto.
      apply (proj2 (lookup_None K_eq_dec k d)) in n. congruence.
    + exists x. reflexivity.
  - right. unfold LruCacheSpec.apply, bind.
    rewrite (get_nothing K_eq_dec (LruCache.Build d C) k) by (simpl; auto).
    auto.
  - right. unfold LruCacheSpec.apply, bind.
    rewrite (get_nothing K_eq_dec (LruCache.Build d C) k) by (simpl; auto).
    auto.
Qed.

Lemma apply_contains (c : cache) (k : K) :
  apply (LruCacheSpec.Contains k) c = (Ok tt, c).
Proof. reflexivity. Qed.

Lemma age_touch_same (k : K) (past : list K) : age k (k :: past) = O.
Proof. simpl. destruct (K_eq_dec k k); congruence. Qed.

Lemma age_touch_other (k x : K) (past : list K) :
  x <> k -> age x (k :: past) = S (age x past).
Proof. intros H. simpl. destruct (K_eq_dec x k); congruence. Qed.

Lemma sorted_remove (R : K -> K -> Prop) (k : K) (l : list K) :
  StronglySorted R l -> StronglySorted R (List.remove K_eq_dec k l).
Proof.
  induction 1 as [|a l HS IH HF]; simpl; [constructor|].
  destruct (K_eq_dec k a); auto.
  constructor; auto.
  rewrite Forall_forall in *. intros x Hx. apply HF.
  apply in_remove in Hx. tauto.
Qed.

Lemma sorted_touch (past : list K) (k : K) (ks : list K) :
  StronglySorted (by_age past) ks ->
  StronglySorted (by_age (k :: past)) (k :: List.remove K_eq_dec k ks).
Proof.
  intros HS. constructor.
  - apply (sorted_remove _ k) in HS.
    assert (HF : Forall (fun x => x <> k) (List.remove K_eq_dec k ks)).
    { rewrite Forall_forall. intros x Hx. apply in_remove in Hx. tauto. }
    induction HS as [|a l HS IH HA]; [constructor|].
    inversion HF as [|? ? Ha HF']; subst.
    constructor; auto.
    rewrite Forall_forall in *. intros x Hx.
    unfold LruCacheSpec.by_age.
    rewrite !age_touch_other by auto.
    specialize (HA x Hx). unfold LruCacheSpec.by_age in HA. lia.
  - rewrite Forall_forall. intros x Hx. apply in_remove in Hx.
    unfold LruCacheSpec.by_age.
    rewrite age_touch_same, age_touch_other by tauto. lia.
Qed.

Lemma sorted_front (R : K -> K -> Prop) (l : list K) (x : K) :
  StronglySorted R (l ++ [x]) ->
  StronglySorted R l /\ Forall (fun y => R y x) l.
Proof.
  induction l as [|a l IH]; simpl; intros HS.
  - split; constructor.
  - inversion HS as [|? ? HS' HF]; subst.
    destruct (IH HS') as [H1 H2].
    rewrite Forall_app in HF. destruct HF as [HFl HFx].
    split; constructor; auto.
    inversion HFx; auto.
Qed.

(** Whatever the calls, the dictionary stays ordered by the latest
    touch of its keys, the latest at the front. *)
Lemma run_ordered (ops : list (LruCacheSpec.op (K := K) (V := V)))
      (c : cache) (past : list K) :
  within c ->
  StronglySorted (by_age past) (keys (LruCache._cache c)) ->
  exists c',
    run ops c = (Ok tt, c')
    /\ LruCache._capacity c' = LruCache._capacity c
    /\ within c'
    /\ StronglySorted (by_age (history touch ops c past))
                      (keys (LruCache._cache c')).
Proof.
  revert c past. induction ops as [|o rest IH]; intros c past Hw HS.
  - exists c. simpl. auto.
  - assert (Hstep : exists c1,
               apply o c = (Ok tt, c1)
               /\ LruCache._capacity c1 = LruCache._capacity c
               /\ within c1
               /\ StronglySorted
                    (by_age (match touch o c with
                             | Some k => k :: past
                             | None => past
                             end))
                    (keys (LruCache._cache c1))).
    { destruct o as [k|k v|k].
      - destruct (apply_get c k) as [[Ht [Hin [x E]]]|[Ht E]]; rewrite Ht.
        + eexists. split; [exact E|]. simpl. split; auto. split.
          * destruct Hw as [HC Hlen]. split; simpl; auto.
            pose proof (remove_length_In K_eq_dec k (LruCache._cache c) Hin).
            lia.
          * rewrite keys_remove. apply sorted_touch. exact HS.
        + exists c. auto.
      - destruct (apply_put c k v Hw) as [c1 [E [Hcap [Hw1 Hd]]]].
        exists c1. split; [exact E|]. split; auto. split; auto.
        simpl.
        destruct Hd as [[_ Ed]|[_ [d0 [last [Ec Ed]]]]]; rewrite Ed; simpl;
          rewrite keys_remove; apply sorted_touch; auto.
        rewrite Ec, keys_app in HS. apply sorted_front in HS. tauto.
      - exists c. rewrite apply_contains. auto. }
    destruct Hstep as [c1 [E1 [Hcap1 [Hw1 HS1]]]].
    destruct (IH c1 _ Hw1 HS1) as [c2 [E2 [Hcap2 [Hw2 HS2]]]].
    exists c2. unfold LruCacheSpec.run in *. simpl. unfold bind at 1.
    rewrite E1. simpl. split; [exact E2|]. split; [congruence|]. split; auto.
Qed.

Lemma recent_In (x : K) (past : list K) : In x (recent past) <-> In x past.
Proof.
  induction past as [|k past IH]; simpl; [tauto|].
  destruct (K_eq_dec k x) as [e|n].
  - subst. tauto.
  - split.
    + intros [E|H]; [tauto|]. apply in_remove in H. tauto.
    + intros [E|H]; [tauto|]. right. apply in_in_remove; [congruence|tauto].
Qed.

Lemma remove_NoDup (k : K) (l : list K) :
  NoDup l -> NoDup (List.remove K_eq_dec k l).
Proof.
  induction 1 as [|a l Ha ND IH]; simpl; [constructor|].
  destruct (K_eq_dec k a); auto. constructor; auto.
  intros H. apply in_remove in H. tauto.
Qed.

Lemma recent_NoDup (past : list K) : NoDup (recent past).
Proof.
  induction past as [|k past IH]; simpl; constructor.
  - apply remove_In.
  - apply remove_NoDup. exact IH.
Qed.

Lemma remove_length_NoDup (k : K) (l : list K) :
  NoDup l -> In k l -> S (length (List.remove K_eq_dec k l)) = length l.
Proof.
  induction 1 as [|a l Ha ND IH]; simpl; [tauto|].
  intros HI. destruct (K_eq_dec k a) as [e|n].
  - subst. rewrite notin_remove; auto.
  - simpl. f_equal. apply IH. destruct HI; congruence.
Qed.

Lemma In_firstn (x : K) (n : nat) (l : list K) :
  In x (firstn n l) -> In x l.
Proof.
  revert n. induction l as [|a l IH]; intros [|n]; simpl; try tauto.
  intros [E|H]; [auto|right; eauto].
Qed.

Lemma remove_firstn (k : K) (m : nat) (l : list K) :
  NoDup l -> In k (firstn (S m) l) ->
  List.remove K_eq_dec k (firstn (S m) l) = firstn m (List.remove K_eq_dec k l).
Proof.
  intros ND. revert m. induction ND as [|a l Ha ND IH]; intros m HI.
  - simpl in HI. tauto.
  - rewrite firstn_cons in *. simpl List.remove.
    destruct (K_eq_dec k a) as [e|n].
    + subst. rewrite !notin_remove; auto.
      intros H. apply Ha. eapply In_firstn. exact H.
    + destruct HI as [E|HI]; [congruence|].
      destruct m as [|m]; [simpl in HI; tauto|].
      rewrite firstn_cons. f_equal. apply IH. exact HI.
Qed.

Lemma firstn_snoc (m : nat) (l front : list K) (x : K) :
  firstn (S m) l = front ++ [x] -> length front = m -> firstn m l = front.
Proof.
  intros E Hlen.
  assert (H : firstn m (firstn (S m) l) = firstn m l).
  { rewrite firstn_firstn. f_equal. lia. }
  rewrite <- H, E, firstn_app, Hlen, Nat.sub_diag. simpl.
  rewrite <- Hlen, firstn_all. apply app_nil_r.
Qed.

(** With pairwise distinct [put] keys, the dictionary is the front of
    the keys touched so far, each at its latest touch. *)
Lemma run_recent (ops : list (LruCacheSpec.op (K := K) (V := V)))
      (c : cache) (past : list K) :
  within c ->
  keys (LruCache._cache c)
  = firstn (Z.to_nat (LruCache._capacity c)) (recent past) ->
  NoDup (put_keys ops) ->
  (forall k, In k (put_keys ops) -> ~ In k past) ->
  exists c',
    run ops c = (Ok tt, c')
    /\ LruCache._capacity c' = LruCache._capacity c
    /\ keys (LruCache._cache c')
       = firstn (Z.to_nat (LruCache._capacity c))
                (recent (history touch ops c past))
    /\ length (recent (history touch ops c past))
       = (length (recent past) + length (put_keys ops))%nat.
Proof.
  revert c past. induction ops as [|o rest IH]; intros c past Hw Hk ND Hnew.
  - exists c. simpl. repeat split; auto.
  - assert (Hstep : exists c1,
               apply o c = (Ok tt, c1)
               /\ LruCache._capacity c1 = LruCache._capacity c
               /\ within c1
               /\ let past1 := match touch o c with
                               | Some k => k :: past
                               | None => past
                               end in
                  keys (LruCache._cache c1)
                  = firstn (Z.to_nat (LruCache._capacity c)) (recent past1)
                  /\ (forall k, In k (put_keys rest) -> ~ In k past1)
                  /\ length (recent past1)
                     = (length (recent past)
                        + length (put_keys [o]))%nat).
    { destruct Hw as [HC Hlen].
      destruct (Z.to_nat (LruCache._capacity c)) as [|m] eqn:Em; [lia|].
      destruct o as [k|k v|k].
      - (* get *)
        destruct (apply_get c k) as [[Ht [Hin [x E]]]|[Ht E]]; rewrite Ht.
        + eexists. split; [exact E|]. simpl. split; auto.
          pose proof (remove_length_In K_eq_dec k (LruCache._cache c) Hin).
          split; [split; simpl; lia|].
          assert (HinD : In k (recent past)).
          { rewrite Hk in Hin. eapply In_firstn. exact Hin. }
          split; [|split].
          * rewrite keys_remove, Hk. f_equal.
            apply remove_firstn; [apply recent_NoDup|].
            rewrite <- Hk. exact Hin.
          * intros k' Hk' [E'|HI]; [|eapply Hnew; eauto].
            subst k'. apply (Hnew k Hk'). apply recent_In. exact HinD.
          * pose proof (remove_length_NoDup k (recent past)
                          (recent_NoDup past) HinD). lia.
        + exists c. simpl. repeat split; auto.
      - (* put *)
        simpl in ND, Hnew. inversion ND as [|? ? Hnk ND']; subst.
        assert (HkD : ~ In k (recent past)).
        { rewrite recent_In. apply Hnew. auto. }
        assert (Hkc : ~ In k (keys (LruCache._cache c))).
        { rewrite Hk. intros H. apply HkD.
          eapply In_firstn. exact H. }
        destruct (apply_put c k v (conj HC Hlen)) as [c1 [E [Hcap [Hw1 Hd]]]].
        exists c1. split; [exact E|]. split; auto. split; auto.
        simpl. rewrite (notin_remove K_eq_dec _ _ HkD).
        split; [|split].
        + destruct Hd as [[Hlt Ed]|[Heq [d0 [last [Ec Ed]]]]]; rewrite Ed; simpl;
            f_equal.
          * rewrite remove_absent by exact Hkc. rewrite Hk.
            assert (Hl : (length (firstn (S m) (recent past)) < S m)%nat).
            { rewrite <- Hk. unfold OrderedDict.keys. rewrite length_map. lia. }
            rewrite length_firstn in Hl.
            rewrite !firstn_all2 by lia. reflexivity.
          * rewrite Ec, keys_app in Hkc, Hk.
            rewrite remove_absent
              by (intros H; apply Hkc; apply in_or_app; left; exact H).
            symmetry. apply (firstn_snoc m _ _ (fst last)); [symmetry; exact Hk|].
            unfold OrderedDict.keys. rewrite length_map.
            rewrite Ec, length_app in Heq. simpl in Heq. lia.
        + intros k' Hk' [E'|HI]; [congruence|]. apply (Hnew k'); auto.
        + lia.
      - (* contains *)
        exists c. rewrite apply_contains. simpl. repeat split; auto. }
    destruct Hstep as [c1 [E1 [Hcap1 [Hw1 [Hk1 [Hnew1 Hlen1]]]]]].
    assert (ND1 : NoDup (put_keys rest)).
    { destruct o; simpl in ND; auto. inversion ND; auto. }
    rewrite <- Hcap1 in Hk1.
    destruct (IH c1 _ Hw1 Hk1 ND1 Hnew1) as [c2 [E2 [Hcap2 [Hk2 Hlen2]]]].
    exists c2. unfold LruCacheSpec.run in *. simpl. unfold bind at 1.
    rewrite E1. simpl. split; [exact E2|]. split; [congruence|].
    split; [congruence|].
    rewrite Hlen2, Hlen1. unfold LruCacheSpec.put_keys. simpl.
    rewrite !length_app. simpl. lia.
Qed.

(** The law with any values, [None] included, a [get] counting as a
    touch when it returns an object.  On a cache of capacity [C >= 1],
    every sequence of [get], [put] and [contains] calls returns.  When
    the cache then holds [C] entries, [put] of an absent key removes
    exactly the entry at the back, whose latest touch is older than that
    of every other entry, and places the new entry at the front.  When
    the [put] keys of the sequence are pairwise distinct, the keys of the
    cache are the first [C] of the touched keys, latest touch first, and
    there are exactly [C] of them once more than [C] keys have been
    put. *)
Lemma lru_law_any_value (C : Z) (ops : list (LruCacheSpec.op (K := K) (V := V))) :
  1 <= C ->
  exists c',
    run ops (LruCache.init C) = (Ok tt, c')
    /\ (Z.of_nat (length (LruCache._cache c')) = C ->
        forall k v,
          ~ In k (keys (LruCache._cache c')) ->
          exists front kl vl,
            LruCache._cache c' = front ++ [(kl, vl)]
            /\ put k v c' = (Ok tt, LruCache.Build ((k, v) :: front) C)
            /\ forall k', In k' (keys front) ->
                          by_age (history touch ops (LruCache.init C) []) k' kl)
    /\ (NoDup (put_keys ops) ->
        keys (LruCache._cache c')
        = firstn (Z.to_nat C) (recent (history touch ops (LruCache.init C) []))
        /\ (C < Z.of_nat (length (put_keys ops)) ->
            Z.of_nat (length (LruCache._cache c')) = C)).
Proof.
  intros HC.
  assert (Hw : within (LruCache.init (K := K) (V := V) C))
    by (split; simpl; lia).
  destruct (run_ordered ops (LruCache.init C) [] Hw) as [c' [E [Hcap [Hw' HS]]]];
    [constructor|].
  exists c'. split; [exact E|]. simpl in Hcap. split.
  - intros Hfull k v Hk.
    destruct c' as [d C']. simpl in *. subst C'.
    destruct (nonempty_last d) as [front [[kl vl] Ed]]; [lia|]. subst d.
    exists front, kl, vl. split; [reflexivity|]. split.
    + rewrite put_when_full by lia. rewrite remove_absent; [reflexivity|].
      intros H. apply Hk. rewrite keys_app. apply in_or_app. left. exact H.
    + rewrite keys_app in HS. apply sorted_front in HS. destruct HS as [_ HF].
      rewrite Forall_forall in HF. exact HF.
  - intros ND.
    destruct (run_recent ops (LruCache.init C) [] Hw) as [c2 [E2 [_ [Hk Hlen]]]];
      auto.
    { simpl. rewrite firstn_nil. reflexivity. }
    rewrite E in E2. inversion E2; subst c2. simpl in Hk, Hlen.
    split; [exact Hk|]. intros HN.
    assert (Hl : length (keys (LruCache._cache c'))
                 = length (firstn (Z.to_nat C)
                             (recent (history touch ops (LruCache.init C) []))))
      by (rewrite Hk; reflexivity).
    unfold OrderedDict.keys in Hl. rewrite length_map in Hl.
    rewrite length_firstn, Hlen in Hl. lia.
Qed.

(** In a cache that holds objects a [get] returns one exactly when the
    key is present. *)
Lemma touch_holds_objects (o : LruCacheSpec.op (K := K) (V := V)) (c : cache) :
  LruCacheSpec.holds_objects c ->
  touch o c = LruCacheSpec.touch_present K_eq_dec o c.
Proof.
  intros Hc. destruct o as [k|k v|k]; try reflexivity.
  destruct c as [d C]. unfold LruCacheSpec.touch, LruCacheSpec.touch_present.
  unfold OrderedDict.contains. simpl.
  destruct (lookup k d) as [[x|]|] eqn:E.
  - rewrite (get_object K_eq_dec d C k x E). reflexivity.
  - exfalso. apply lookup_Some_In in E.
    unfold LruCacheSpec.holds_objects in Hc. rewrite Forall_forall in Hc.
    apply (Hc (k, None) E). reflexivity.
  - rewrite (get_nothing K_eq_dec (LruCache.Build d C) k) by (simpl; auto).
    reflexivity.
Qed.

(** A call that stores an object, or none, keeps the values objects. *)
Lemma apply_holds_objects (o : LruCacheSpec.op (K := K) (V := V)) (c : cache) :
  within c ->
  LruCacheSpec.holds_objects c ->
  match o with LruCacheSpec.Put _ None => False | _ => True end ->
  within (snd (apply o c)) /\ LruCacheSpec.holds_objects (snd (apply o c)).
Proof.
  intros Hw Hc Ho. unfold LruCacheSpec.holds_objects in *.
  rewrite Forall_forall in Hc.
  destruct o as [k|k [v|]|k]; try contradiction.
  - destruct (apply_get c k) as [[_ [Hin [x E]]]|[_ E]]; rewrite E; simpl.
    + split.
      * destruct Hw as [HC Hlen]. split; simpl; auto.
        pose proof (remove_length_In K_eq_dec k (LruCache._cache c) Hin). lia.
      * constructor; [simpl; discriminate|].
        rewrite Forall_forall. intros kv Hkv. apply Hc.
        apply In_remove with (1 := Hkv).
    + split; [exact Hw|]. rewrite Forall_forall. exact Hc.
  - destruct (apply_put c k (Some v) Hw) as [c1 [E [_ [Hw1 Hd]]]].
    rewrite E. simpl. split; [exact Hw1|].
    destruct Hd as [[_ Ed]|[_ [d0 [last [Ec Ed]]]]]; rewrite Ed;
      (constructor; [simpl; discriminate|]);
      rewrite Forall_forall; intros kv Hkv; apply Hc;
      apply In_remove in Hkv; [exact Hkv|].
    rewrite Ec. apply in_or_app. left. exact Hkv.
  - rewrite apply_contains. simpl. split; [exact Hw|].
    rewrite Forall_forall. exact Hc.
Qed.

(** While objects are stored, the keys touched are those of the [put]
    calls and of the [get] calls on present keys. *)
Lemma history_stores_objects (ops : list (LruCacheSpec.op (K := K) (V := V))) :
  forall (c : cache) (past : list K),
    within c ->
    LruCacheSpec.holds_objects c ->
    LruCacheSpec.stores_objects ops ->
    history touch ops c past
    = history (LruCacheSpec.touch_present K_eq_dec) ops c past.
Proof.
  induction ops as [|o rest IH]; intros c past Hw Hc Hops; [reflexivity|].
  inversion Hops as [|? ? Ho Hrest]; subst.
  destruct (apply_holds_objects o c Hw Hc Ho) as [Hw1 Hc1].
  simpl. rewrite (touch_holds_objects o c Hc).
  apply IH; assumption.
Qed.

(** C2.  On a cache of capacity [C >= 1] that stores objects, every
    sequence of [get], [put] and [contains] calls returns.  When the
    cache then holds [C] entries, [put] of an absent key removes exactly
    one entry, the one at the back, whose latest touch (a [put], or a
    [get] on a present key) is older than that of every other entry, and
    places the new entry at the front.  When the [put] keys of the
    sequence are pairwise distinct, the keys of the cache are the first
    [C] of the touched keys, latest touch first, and there are exactly
    [C] of them once more than [C] keys have been put. *)
Theorem lru_law (C : Z) (ops : list (LruCacheSpec.op (K := K) (V := V))) :
  1 <= C ->
  LruCacheSpec.stores_objects ops ->
  exists c',
    run ops (LruCache.init C) = (Ok tt, c')
    /\ (Z.of_nat (length (LruCache._cache c')) = C ->
        forall (k : K) (v : V),
          ~ In k (keys (LruCache._cache c')) ->
          exists front kl vl,
            LruCache._cache c' = front ++ [(kl, vl)]
            /\ put k (Some v) c'
               = (Ok tt, LruCache.Build ((k, Some v) :: front) C)
            /\ forall k', In k' (keys front) ->
                          by_age (history (LruCacheSpec.touch_present K_eq_dec)
                                          ops (LruCache.init C) [])
                                 k' kl)
    /\ (NoDup (put_keys ops) ->
        keys (LruCache._cache c')
        = firstn (Z.to_nat C)
                 (recent (history (LruCacheSpec.touch_present K_eq_dec)
                                  ops (LruCache.init C) []))
        /\ (C < Z.of_nat (length (put_keys ops)) ->
            Z.of_nat (length (LruCache._cache c')) = C)).
Proof.
  intros HC Hops.
  assert (Hw : within (LruCache.init (K := K) (V := V) C))
    by (split; simpl; lia).
  assert (Hc : LruCacheSpec.holds_objects (LruCache.init (K := K) (V := V) C))
    by constructor.
  rewrite <- (history_stores_objects ops (LruCache.init C) [] Hw Hc Hops).
  destruct (lru_law_any_value C ops HC) as [c' [E [Hfull Hkeys]]].
  exists c'. split; [exact E|]. split; [|exact Hkeys].
  intros Hlen k v Hk. apply (Hfull Hlen k (Some v) Hk).
Qed.

(** With any stored value, [None] included: [get] on a present key
    returns the stored value and keeps the pairs of the cache; when the
    stored value is not [None] the key moves to the front, the other keys
    keeping their order.  [contains] changes nothing at all and tells
    whether the key is present. *)
Lemma get_frame_any_value (c : cache) (k : K) (v : option V) :
  NoDup (keys (LruCache._cache c)) ->
  lookup k (LruCache._cache c) = Some v ->
  (exists c',
      get k c = (Ok v, c')
      /\ LruCache._capacity c' = LruCache._capacity c
      /\ Permutation (LruCache._cache c') (LruCache._cache c)
      /\ (v <> None ->
          LruCache._cache c' = (k, v) :: remove k (LruCache._cache c)))
  /\ (forall k',
        exists b,
          LruCache.contains K_eq_dec k' c = (Ok b, c)
          /\ (b = true <-> In k' (keys (LruCache._cache c)))).
Proof.
  intros ND Hk. split.
  - destruct c as [d C]. simpl in *. destruct v as [x|].
    + rewrite (get_object K_eq_dec d C k x Hk). eexists. split; [reflexivity|].
      simpl. split; [reflexivity|]. split; [|reflexivity].
      apply remove_Permutation; assumption.
    + rewrite (get_nothing K_eq_dec (LruCache.Build d C) k) by (simpl; auto).
      eexists. split; [reflexivity|]. simpl. split; [reflexivity|].
      split; [apply Permutation_refl|congruence].
  - intros k'. rewrite contains_pure. eexists. split; [reflexivity|].
    apply contains_true_iff.
Qed.

(** C7.  In a cache of distinct keys, [get] on a present key, holding an
    object, returns the stored object, keeps the pairs of the cache (and
    its capacity), and moves the key to the front, the other keys keeping
    their order.  [contains], for every cache and key, changes neither
    the contents nor the order, and tells whether the key is present. *)
Theorem get_contains_frame (c : cache) (k : K) (x : V) :
  NoDup (keys (LruCache._cache c)) ->
  lookup k (LruCache._cache c) = Some (Some x) ->
  (exists c',
      get k c = (Ok (Some x), c')
      /\ LruCache._capacity c' = LruCache._capacity c
      /\ Permutation (LruCache._cache c') (LruCache._cache c)
      /\ LruCache._cache c' = (k, Some x) :: remove k (LruCache._cache c))
  /\ (forall k',
        exists b,
          LruCache.contains K_eq_dec k' c = (Ok b, c)
          /\ (b = true <-> In k' (keys (LruCache._cache c)))).
Proof.
  intros ND Hk.
  destruct (get_frame_any_value c k (Some x) ND Hk)
    as [[c' [E [Hcap [Hperm Hfront]]]] Hcontains].
  split; [|exact Hcontains].
  exists c'. split; [exact E|]. split; [exact Hcap|]. split; [exact Hperm|].
  apply Hfront. discriminate.
Qed.

(** C9.  On a cache holding exactly [C] entries, [put] of any key first
    removes the entry at the back, then writes the key and brings it to
    the front.  When the key was present elsewhere than at the back, the
    key at the back is gone and [C - 1] entries remain. *)
Theorem put_present_key_at_capacity
        (front : dict) (kl : K) (vl : option V) (k : K) (v : option V) :
  NoDup (keys (front ++ [(kl, vl)])) ->
  (forall C, Z.of_nat (length (front ++ [(kl, vl)])) = C ->
     put k v (LruCache.Build (front ++ [(kl, vl)]) C)
     = (Ok tt, LruCache.Build ((k, v) :: remove k front) C))
  /\ (In k (keys front) ->
      ~ In kl (keys ((k, v) :: remove k front))
      /\ Z.of_nat (length ((k, v) :: remove k front))
         = Z.of_nat (length (front ++ [(kl, vl)])) - 1
      /\ lookup k ((k, v) :: remove k front) = Some v).
Proof.
  intros ND. split.
  - intros C HC. apply put_when_full. lia.
  - intros Hk. rewrite keys_app in ND. simpl in ND.
    apply NoDup_remove in ND. rewrite app_nil_r in ND. destruct ND as [ND Hkl].
    split; [|split].
    + simpl. intros [E|H].
      * subst. tauto.
      * apply Hkl. eapply In_keys_remove. exact H.
    + pose proof (remove_length_present K_eq_dec k front ND Hk).
      rewrite length_app. simpl. lia.
    + simpl. destruct (K_eq_dec k k); congruence.
Qed.

End Recency.

(** *** The cache laws on sample caches *)

Lemma put_sequence_bounded_witness :
  1 <= 1
  /\ exists c',
      LruCacheSpec.put_all Z.eq_dec [(1, Some 10); (2, Some 20); (1, None)]
                           (LruCache.init (V := Z) 1)
      = (Ok tt, c')
      /\ Z.of_nat (length (LruCache._cache c')) <= 1.
Proof.
  split; [lia|].
  apply (put_sequence_bounded Z.eq_dec 1 [(1, Some 10); (2, Some 20); (1, None)]).
  lia.
Defined.

Lemma lru_law_witness :
  1 <= 2
  /\ LruCacheSpec.stores_objects CacheSamples.two_then_third
  /\ exists c',
      LruCacheSpec.run Z.eq_dec CacheSamples.two_then_third (LruCache.init 2)
      = (Ok tt, c')
      /\ OrderedDict.keys (LruCache._cache c') = [3; 1].
Proof.
  split; [lia|].
  split; [repeat constructor|].
  destruct (lru_law Z.eq_dec 2 CacheSamples.two_then_third) as [c' [E [_ HB]]];
    [lia|repeat constructor|].
  exists c'. split; [exact E|].
  destruct HB as [Hk _].
  - repeat constructor; simpl; intuition discriminate.
  - rewrite Hk. reflexivity.
Defined.

(** Were [None] stored as a value, a [get] on the key that holds it
    would be no touch: the law above is about caches that store
    objects. *)
Example get_of_none_is_no_touch :
  ~ (forall (C : Z) (ops : list (LruCacheSpec.op (K := Z) (V := Z))) c',
        1 <= C ->
        NoDup (LruCacheSpec.put_keys ops) ->
        C < Z.of_nat (length (LruCacheSpec.put_keys ops)) ->
        LruCacheSpec.run Z.eq_dec ops (LruCache.init C) = (Ok tt, c') ->
        OrderedDict.keys (LruCache._cache c')
        = firstn (Z.to_nat C)
                 (LruCacheSpec.recent Z.eq_dec
                    (LruCacheSpec.history Z.eq_dec
                       (LruCacheSpec.touch_present Z.eq_dec)
                       ops (LruCache.init C) []))).
Proof.
  intros H.
  specialize (H 2 CacheSamples.none_then_third
                (LruCache.Build [(3, Some 30); (2, Some 20)] 2)).
  assert (E : [3; 2] = [3; 1]).
  { apply H.
    - lia.
    - repeat constructor; simpl; intuition discriminate.
    - simpl. lia.
    - reflexivity. }
  discriminate E.
Qed.

Lemma get_contains_frame_witness :
  NoDup (OrderedDict.keys (LruCache._cache CacheSamples.full_pair))
  /\ OrderedDict.lookup Z.eq_dec 2 (LruCache._cache CacheSamples.full_pair)
     = Some (Some 20)
  /\ exists c',
      LruCache.get Z.eq_dec 2 CacheSamples.full_pair = (Ok (Some 20), c')
      /\ LruCache._cache c' = [(2, Some 20); (1, Some 10)].
Proof.
  assert (ND : NoDup (OrderedDict.keys (LruCache._cache CacheSamples.full_pair)))
    by (repeat constructor; simpl; intuition discriminate).
  split; [exact ND|]. split; [reflexivity|].
  destruct (get_contains_frame Z.eq_dec CacheSamples.full_pair 2 20 ND eq_refl)
    as [[c' [E [_ [_ Hfront]]]] _].
  exists c'. split; [exact E|].
  rewrite Hfront. reflexivity.
Defined.

(** Were [None] stored as a value, the key that holds it would stay
    where it is on a [get]. *)
Example get_of_none_stays :
  ~ (forall (c : LruCache.t Z Z) (k : Z),
        NoDup (OrderedDict.keys (LruCache._cache c)) ->
        In k (OrderedDict.keys (LruCache._cache c)) ->
        hd_error (OrderedDict.keys (LruCache._cache (snd (LruCache.get Z.eq_dec k c))))
        = Some k).
Proof.
  intros H. specialize (H CacheSamples.holding_none 1).
  assert (E : Some 2 = Some 1).
  { apply H.
    - repeat constructor; simpl; intuition discriminate.
    - simpl. auto. }
  discriminate E.
Qed.

Lemma put_present_key_at_capacity_witness :
  NoDup (OrderedDict.keys ([(1, Some 10); (2, Some 20)] ++ [(3, Some 30)]))
  /\ LruCache.put Z.eq_dec 1 (Some 11)
       (LruCache.Build ([(1, Some 10); (2, Some 20)] ++ [(3, Some 30)]) 3)
     = (Ok tt, LruCache.Build [(1, Some 11); (2, Some 20)] 3).
Proof.
  assert (ND : NoDup (OrderedDict.keys
                        ([(1, Some 10); (2, Some 20)] ++ [(3, Some (30 : Z))])))
    by (repeat constructor; simpl; intuition discriminate).
  split; [exact ND|].
  destruct (put_present_key_at_capacity Z.eq_dec [(1, Some 10); (2, Some 20)]
              3 (Some 30) 1 (Some 11) ND) as [Hput _].
  rewrite (Hput 3 eq_refl). reflexivity.
Defined.

(** ** Row stride *)

Lemma ceiling_quotient (w b : Z) :
  0 < b -> - (- w / b) = (w + b - 1) / b.
Proof.
  intros Hb.
  pose proof (Z.div_mod (w + b - 1) b) as E.
  pose proof (Z.mod_pos_bound (w + b - 1) b Hb) as R.
  assert (H : - ((w + b - 1) / b) = - w / b).
  { apply (Z.div_unique (- w) b _ (b - 1 - (w + b - 1) mod b)); lia. }
  lia.
Qed.

(** C8.  For every width of at least one and every padding unit among 1,
    2, 4 and 8, the row stride is the ceiling of [width / (padding_unit *
    8)] times the padding unit; it is 1 for width 1 and unit 1, 2 for width
    9 and unit 1, 4 for width 9 and unit 4. *)
Theorem bytes_per_row_ceiling :
  (forall width padding_unit : Z,
      1 <= width ->
      In padding_unit [1; 2; 4; 8] ->
      Pcf.bytes_per_row width padding_unit
      = Qceiling (inject_Z width / inject_Z (padding_unit * 8)) * padding_unit)
  /\ Pcf.bytes_per_row 1 1 = 1
  /\ Pcf.bytes_per_row 9 1 = 2
  /\ Pcf.bytes_per_row 9 4 = 4.
Proof.
  split; [|repeat split; reflexivity].
  intros width padding_unit _ Hp. unfold Pcf.bytes_per_row.
  simpl in Hp.
  destruct Hp as [E|[E|[E|[E|[]]]]]; subst padding_unit;
    unfold Qceiling, Qfloor, Qdiv, Qinv, Qmult, Qopp, inject_Z; simpl;
    rewrite ceiling_quotient by lia;
    replace (width * 1) with width by lia; reflexivity.
Qed.

Lemma bytes_per_row_ceiling_witness :
  1 <= 9 /\ In 4 [1; 2; 4; 8]
  /\ Pcf.bytes_per_row 9 4 = Qceiling (inject_Z 9 / inject_Z (4 * 8)) * 4.
Proof.
  split; [lia|]. split; [simpl; auto|].
  apply (proj1 bytes_per_row_ceiling 9 4); [lia | simpl; auto].
Defined.

(** ** Compressed metrics *)

Lemma byte_of_value (x : Z) :
  0 <= x < 256 -> Pcf.byte_value (PcfSpec.byte_of x) = x.
Proof.
  intros Hx. unfold PcfSpec.byte_of, Pcf.byte_value.
  rewrite Z.mod_small by lia.
  destruct (Byte.of_N (Z.to_N x)) as [b|] eqn:E.
  - apply Byte.to_of_N in E. rewrite E. lia.
  - apply Byte.of_N_None_iff in E. lia.
Qed.

Lemma read_at (pre data post : list byte) (log : list Pcf.io_event) :
  Pcf.read (Z.of_nat (length data))
           (Pcf.mkFile (pre ++ data ++ post) (Z.of_nat (length pre)) log)
  = (Ok data,
     Pcf.mkFile (pre ++ data ++ post)
                (Z.of_nat (length pre) + Z.of_nat (length data))
                (Pcf.Read (Z.of_nat (length data)) :: log)).
Proof.
  unfold Pcf.read. simpl. rewrite !Nat2Z.id.
  rewrite skipn_app, skipn_all, Nat.sub_diag. simpl.
  rewrite firstn_app, firstn_all, Nat.sub_diag. simpl.
  rewrite app_nil_r. reflexivity.
Qed.

(** C6.  For every metrics entry whose five numeric fields lie between
    -128 and 127, the compressed decoder, reading the five bytes that hold
    each field plus 128 in the order left bearing, right bearing, width,
    ascent, descent, returns the five fields and attributes 0. *)
Theorem compressed_metrics_round_trip
        (m : Pcf.MetricsEntry) (pre post : list byte) (log : list Pcf.io_event) :
  -128 <= Pcf.left_side_bearing m <= 127 ->
  -128 <= Pcf.right_side_bearing m <= 127 ->
  -128 <= Pcf.character_width m <= 127 ->
  -128 <= Pcf.character_ascent m <= 127 ->
  -128 <= Pcf.character_descent m <= 127 ->
  Pcf.read_metrics_entry_compressed
    (Pcf.mkFile (pre ++ PcfSpec.biased_bytes m ++ post) (Z.of_nat (length pre)) log)
  = (Ok (Pcf.mkMetricsEntry (Pcf.left_side_bearing m) (Pcf.right_side_bearing m)
                            (Pcf.character_width m) (Pcf.character_ascent m)
                            (Pcf.character_descent m) 0),
     Pcf.mkFile (pre ++ PcfSpec.biased_bytes m ++ post)
                (Z.of_nat (length pre) + 5) (Pcf.Read 5 :: log)).
Proof.
  intros H1 H2 H3 H4 H5.
  unfold Pcf.read_metrics_entry_compressed, Pcf.read_values, bind.
  change (Pcf.calcsize (Pcf.BigEndian, [Pcf.c_B; Pcf.c_B; Pcf.c_B; Pcf.c_B; Pcf.c_B]))
    with (Z.of_nat (length (PcfSpec.biased_bytes m))).
  rewrite read_at.
  unfold Pcf.lift, Pcf.unpack, PcfSpec.biased_bytes. simpl.
  unfold Pcf.decode, Pcf.uint_be. simpl.
  rewrite !byte_of_value by lia.
  unfold ret. repeat f_equal; lia.
Qed.

Lemma compressed_metrics_round_trip_witness :
  -128 <= 0 <= 127 /\ -128 <= 8 <= 127 /\ -128 <= 7 <= 127 /\ -128 <= 1 <= 127
  /\ fst (Pcf.read_metrics_entry_compressed
            (Pcf.mkFile ([x00] ++ PcfSpec.biased_bytes (Pcf.mkMetricsEntry 0 8 8 7 1 3)
                               ++ [])
                        (Z.of_nat (length [x00])) []))
     = Ok (Pcf.mkMetricsEntry 0 8 8 7 1 0).
Proof.
  repeat (split; [lia|]).
  rewrite (compressed_metrics_round_trip (Pcf.mkMetricsEntry 0 8 8 7 1 3) [x00] [] []);
    simpl; try lia.
  reflexivity.
Defined.

(** ** The encoding index *)

Lemma low_byte_mod (x : Z) : Z.land (x mod 65536) 255 = Z.land x 255.
Proof.
  apply Z.bits_inj'. intros n Hn. rewrite !Z.land_spec.
  change 255 with (Z.ones 8). change 65536 with (2 ^ 16).
  destruct (Z.ltb_spec n 8) as [l|g].
  - rewrite Z.mod_pow2_bits_low by lia. reflexivity.
  - rewrite Z.ones_spec_high by lia. rewrite !andb_false_r. reflexivity.
Qed.

Lemma high_byte_mod (x : Z) :
  Z.land (Z.shiftr (x mod 65536) 8) 255 = Z.land (Z.shiftr x 8) 255.
Proof.
  apply Z.bits_inj'. intros n Hn. rewrite !Z.land_spec.
  change 255 with (Z.ones 8). change 65536 with (2 ^ 16).
  destruct (Z.ltb_spec n 8) as [l|g].
  - rewrite !Z.shiftr_spec by lia.
    rewrite Z.mod_pow2_bits_low by lia. reflexivity.
  - rewrite Z.ones_spec_high by lia. rewrite !andb_false_r. reflexivity.
Qed.

Section IndexFacts.
Variable Bitmap : Type.

Local Abbreviation font := (PcfFont.t Bitmap).
Local Abbreviation _get_glyph_index := (@PcfFont._get_glyph_index Bitmap).

(** C10.  The glyph-index lookup uses [enc1 = (cp >> 8) & 0xFF] and
    [enc2 = cp & 0xFF] only: for every code point its outcome, the file
    position and log included, is that of the code point modulo
    [0x10000]. *)
Theorem get_glyph_index_low_16_bits (self : font) (code_point : Z) :
  _get_glyph_index code_point self = _get_glyph_index (code_point mod 65536) self.
Proof.
  unfold PcfFont._get_glyph_index, bind, state. simpl.
  rewrite high_byte_mod, low_byte_mod. reflexivity.
Qed.

(** Reading an unsigned 16-bit value where the file has one. *)
Lemma read_u16_present (f : Pcf.File) (at_ v : Z) :
  0 <= at_ ->
  PcfSpec.u16_be_at (Pcf.content f) at_ = Some v ->
  (Pcf.seek at_ ;; Pcf.read_values (Pcf.BigEndian, [Pcf.c_H])) f
  = (Ok [v],
     Pcf.mkFile (Pcf.content f) (at_ + 2)
                (Pcf.Read 2 :: Pcf.Seek at_ :: Pcf.log f)).
Proof.
  intros Hat Hv. unfold PcfSpec.u16_be_at in Hv.
  unfold bind, Pcf.seek.
  destruct (Z.ltb_spec at_ 0) as [l|_]; [lia|].
  unfold Pcf.read_values, bind, Pcf.read. simpl.
  destruct (skipn (Z.to_nat at_) (Pcf.content f)) as [|hi [|lo rest]];
    try discriminate.
  inversion Hv; subst. simpl.
  unfold Pcf.lift, Pcf.unpack. simpl.
  unfold Pcf.decode, Pcf.uint_be. simpl. reflexivity.
Qed.

Lemma read_u16_absent (f : Pcf.File) (at_ : Z) :
  0 <= at_ ->
  PcfSpec.u16_be_at (Pcf.content f) at_ = None ->
  fst ((Pcf.seek at_ ;; Pcf.read_values (Pcf.BigEndian, [Pcf.c_H])) f)
  = Raise StructError.
Proof.
  intros Hat Hv. unfold PcfSpec.u16_be_at in Hv.
  unfold bind, Pcf.seek.
  destruct (Z.ltb_spec at_ 0) as [l|_]; [lia|].
  unfold Pcf.read_values, bind, Pcf.read. simpl.
  destruct (skipn (Z.to_nat at_) (Pcf.content f)) as [|hi [|lo rest]];
    try discriminate; reflexivity.
Qed.

(** A seek and a read on the font's file, as one step on the file. *)
Lemma seek_read_on_file {A : Type} (self : font) (at_ : Z)
      (fmt : Pcf.struct_format) (k : list Z -> M font A) :
  (PcfFont.on_file (Pcf.seek at_) ;;
   vs <- PcfFont.on_file (Pcf.read_values fmt) ;; k vs) self
  = match (Pcf.seek at_ ;; Pcf.read_values fmt) (PcfFont._file self) with
    | (Ok vs, f) => k vs (PcfFont.set_file f self)
    | (Raise e, f) => (Raise e, PcfFont.set_file f self)
    end.
Proof.
  unfold bind, PcfFont.on_file.
  destruct (Pcf.seek at_ (PcfFont._file self)) as [[[]|e] f1]; [|reflexivity].
  change (PcfFont._file (PcfFont.set_file f1 self)) with f1.
  destruct (Pcf.read_values fmt f1) as [[vs|e] f2]; reflexivity.
Qed.

(** [_get_glyph_index] with [self] read. *)
Lemma get_glyph_index_unfold (self : font) (code_point : Z) :
  _get_glyph_index code_point self
  = (let enc1 := Z.land (Z.shiftr code_point 8) 255 in
     let enc2 := Z.land code_point 255 in
     if negb ((PcfFont._min_byte1 self <=? enc1)
              && (enc1 <=? PcfFont._max_byte1 self))
        || negb ((PcfFont._min_byte2 self <=? enc2)
                 && (enc2 <=? PcfFont._max_byte2 self))
     then ret (-1)
     else
       PcfFont.on_file
         (Pcf.seek (PcfFont._encoded_glyph_indices_location self
                    + ((enc1 - PcfFont._min_byte1 self)
                       * (PcfFont._max_byte2 self - PcfFont._min_byte2 self + 1)
                       + (enc2 - PcfFont._min_byte2 self)) * 2)) ;;
       vs <- PcfFont.on_file (Pcf.read_values (Pcf.BigEndian, [Pcf.c_H])) ;;
       glyph_index <- Pcf.tuple1 vs ;;
       if glyph_index =? 65535 then ret (-1) else ret glyph_index) self.
Proof. reflexivity. Qed.

(** The lookup on any integer.  With [enc1 = (code_point >> 8) & 0xFF]
    and [enc2 = code_point & 0xFF]: when [enc1] is outside [min_byte1,
    max_byte1] or [enc2] outside [min_byte2, max_byte2] the lookup
    returns -1 and leaves the font, its file included, as it was;
    otherwise it seeks to the encoding table base plus twice the
    row-major index, reads two bytes there, and returns -1 when their
    big-endian value is [0xFFFF] and that value otherwise (a file too
    short there raises the [struct] error). *)
Lemma get_glyph_index_masked (self : font) (code_point : Z) :
  0 <= PcfFont._encoded_glyph_indices_location self ->
  let enc1 := Z.land (Z.shiftr code_point 8) 255 in
  let enc2 := Z.land code_point 255 in
  let outside :=
    enc1 < PcfFont._min_byte1 self \/ PcfFont._max_byte1 self < enc1
    \/ enc2 < PcfFont._min_byte2 self \/ PcfFont._max_byte2 self < enc2 in
  let at_ :=
    PcfFont._encoded_glyph_indices_location self
    + ((enc1 - PcfFont._min_byte1 self)
       * (PcfFont._max_byte2 self - PcfFont._min_byte2 self + 1)
       + (enc2 - PcfFont._min_byte2 self)) * 2 in
  (outside -> _get_glyph_index code_point self = (Ok (-1), self))
  /\ (~ outside ->
      match PcfSpec.u16_be_at (Pcf.content (PcfFont._file self)) at_ with
      | Some v =>
          _get_glyph_index code_point self
          = (Ok (if v =? 65535 then -1 else v),
             PcfFont.set_file
               (Pcf.mkFile (Pcf.content (PcfFont._file self)) (at_ + 2)
                           (Pcf.Read 2 :: Pcf.Seek at_
                                       :: Pcf.log (PcfFont._file self)))
               self)
      | None => fst (_get_glyph_index code_point self) = Raise StructError
      end).
Proof.
  intros Hbase enc1 enc2 outside at_.
  rewrite !get_glyph_index_unfold. cbv zeta. fold enc1 enc2.
  split.
  - intros Hout.
    assert (Hb : negb ((PcfFont._min_byte1 self <=? enc1)
                       && (enc1 <=? PcfFont._max_byte1 self))
                 || negb ((PcfFont._min_byte2 self <=? enc2)
                          && (enc2 <=? PcfFont._max_byte2 self)) = true).
    { unfold outside in Hout.
      destruct (Z.leb_spec (PcfFont._min_byte1 self) enc1);
        destruct (Z.leb_spec enc1 (PcfFont._max_byte1 self));
        destruct (Z.leb_spec (PcfFont._min_byte2 self) enc2);
        destruct (Z.leb_spec enc2 (PcfFont._max_byte2 self));
        simpl; auto; lia. }
    rewrite Hb. reflexivity.
  - intros Hin.
    assert (Hb : negb ((PcfFont._min_byte1 self <=? enc1)
                       && (enc1 <=? PcfFont._max_byte1 self))
                 || negb ((PcfFont._min_byte2 self <=? enc2)
                          && (enc2 <=? PcfFont._max_byte2 self)) = false).
    { unfold outside in Hin.
      destruct (Z.leb_spec (PcfFont._min_byte1 self) enc1);
        destruct (Z.leb_spec enc1 (PcfFont._max_byte1 self));
        destruct (Z.leb_spec (PcfFont._min_byte2 self) enc2);
        destruct (Z.leb_spec enc2 (PcfFont._max_byte2 self));
        simpl; auto; lia. }
    rewrite Hb. fold at_.
    assert (Hat : 0 <= at_) by (unfold at_, outside in *; nia).
    rewrite (seek_read_on_file self at_ (Pcf.BigEndian, [Pcf.c_H])).
    destruct (PcfSpec.u16_be_at (Pcf.content (PcfFont._file self)) at_)
      as [v|] eqn:Ev.
    + rewrite (read_u16_present _ _ _ Hat Ev). unfold bind, Pcf.tuple1, ret.
      destruct (v =? 65535); reflexivity.
    + pose proof (read_u16_absent _ _ Hat Ev) as Ha.
      destruct ((Pcf.seek at_;; Pcf.read_values (Pcf.BigEndian, [Pcf.c_H]))
                  (PcfFont._file self)) as [[vs|e] f2];
        simpl in Ha; [discriminate|]. simpl. inversion Ha. reflexivity.
Qed.

(** C5.  For every 16-bit code point, with [enc1 = code_point >> 8] and
    [enc2 = code_point & 0xFF]: when [enc1] is outside [min_byte1,
    max_byte1] or [enc2] outside [min_byte2, max_byte2] the lookup
    returns -1 without reading, the font and its file as they were;
    otherwise it seeks to the encoding table base plus twice the
    row-major index, reads the two bytes there, and returns -1 exactly
    when their big-endian value is the sentinel [0xFFFF], and that value
    otherwise (a file too short there raises the [struct] error). *)
Theorem get_glyph_index_lookup (self : font) (code_point : Z) :
  0 <= code_point < 65536 ->
  0 <= PcfFont._encoded_glyph_indices_location self ->
  let enc1 := Z.shiftr code_point 8 in
  let enc2 := Z.land code_point 255 in
  let outside :=
    enc1 < PcfFont._min_byte1 self \/ PcfFont._max_byte1 self < enc1
    \/ enc2 < PcfFont._min_byte2 self \/ PcfFont._max_byte2 self < enc2 in
  let at_ :=
    PcfFont._encoded_glyph_indices_location self
    + ((enc1 - PcfFont._min_byte1 self)
       * (PcfFont._max_byte2 self - PcfFont._min_byte2 self + 1)
       + (enc2 - PcfFont._min_byte2 self)) * 2 in
  (outside -> _get_glyph_index code_point self = (Ok (-1), self))
  /\ (~ outside ->
      match PcfSpec.u16_be_at (Pcf.content (PcfFont._file self)) at_ with
      | Some v =>
          _get_glyph_index code_point self
          = (Ok (if v =? 65535 then -1 else v),
             PcfFont.set_file
               (Pcf.mkFile (Pcf.content (PcfFont._file self)) (at_ + 2)
                           (Pcf.Read 2 :: Pcf.Seek at_
                                       :: Pcf.log (PcfFont._file self)))
               self)
      | None => fst (_get_glyph_index code_point self) = Raise StructError
      end).
Proof.
  intros Hcp Hbase.
  assert (E : Z.land (Z.shiftr code_point 8) 255 = Z.shiftr code_point 8).
  { rewrite Z.shiftr_div_pow2 by lia.
    change 255 with (Z.ones 8). rewrite Z.land_ones by lia.
    apply Z.mod_small. change (2 ^ 8) with 256.
    split; [apply Z.div_pos; lia|apply Z.div_lt_upper_bound; lia]. }
  pose proof (get_glyph_index_masked self code_point Hbase) as H.
  cbv zeta in H. rewrite E in H. exact H.
Qed.

End IndexFacts.

(** ** Opening a font *)

Example sample_font_opens :
  exists self,
    fst (PcfFont.__init__ RefHost.Bitmap PcfSpec.sample_font 128) = Ok self
    /\ PcfFont._glyph_padding self = 1
    /\ PcfFont._metrics_compressed self = true
    /\ (PcfFont._min_byte2 self, PcfFont._max_byte2 self,
        PcfFont._min_byte1 self, PcfFont._max_byte1 self) = (65, 66, 0, 0)
    /\ (PcfFont.ascent self, PcfFont.descent self) = (7, 1)
    /\ PcfFont.get_bounding_box self = (8, 8, 0, -1)
    /\ PcfFont._encoded_glyph_indices_location self = 198.
Proof. eexists. split; [vm_compute; reflexivity|]. repeat split. Qed.

Example no_metrics_font_key_error :
  fst (PcfFont.__init__ RefHost.Bitmap PcfSpec.no_metrics_font 128) = Raise KeyError.
Proof. vm_compute. reflexivity. Qed.

Lemma byte_of_value_mod (x : Z) :
  Pcf.byte_value (PcfSpec.byte_of x) = x mod 256.
Proof.
  unfold PcfSpec.byte_of.
  pose proof (Z.mod_pos_bound x 256 ltac:(lia)) as Hb.
  fold (PcfSpec.byte_of (x mod 256)).
  assert (E : PcfSpec.byte_of (x mod 256) = PcfSpec.byte_of x).
  { unfold PcfSpec.byte_of. rewrite Z.mod_mod by lia. reflexivity. }
  rewrite <- E at 1. apply byte_of_value. lia.
Qed.

Lemma decode_le32 (x : Z) :
  PcfSpec.u32 x -> Pcf.decode Pcf.LittleEndian Pcf.c_I (PcfSpec.le32 x) = x.
Proof.
  unfold PcfSpec.u32. intros Hx.
  unfold Pcf.decode, PcfSpec.le32, PcfSpec.be32, Pcf.uint_be. simpl.
  rewrite !byte_of_value_mod.
  Z.div_mod_to_equations. lia.
Qed.

Lemma le32_length (x : Z) : length (PcfSpec.le32 x) = 4%nat.
Proof. reflexivity. Qed.

(** Reading one little-endian 32-bit value written in the file. *)
Lemma read_le32 (x : Z) (pre post : list byte) (log : list Pcf.io_event) :
  PcfSpec.u32 x ->
  Pcf.read_values (Pcf.LittleEndian, [Pcf.c_I])
    (Pcf.mkFile (pre ++ PcfSpec.le32 x ++ post) (Z.of_nat (length pre)) log)
  = (Ok [x],
     Pcf.mkFile (pre ++ PcfSpec.le32 x ++ post) (Z.of_nat (length pre) + 4)
                (Pcf.Read 4 :: log)).
Proof.
  intros Hx. unfold Pcf.read_values, bind.
  change (Pcf.calcsize (Pcf.LittleEndian, [Pcf.c_I]))
    with (Z.of_nat (length (PcfSpec.le32 x))).
  rewrite read_at.
  unfold Pcf.lift, Pcf.unpack.
  change (Z.of_nat (length (PcfSpec.le32 x))
          =? Pcf.calcsize (Pcf.LittleEndian, [Pcf.c_I])) with true.
  cbv iota.
  change (Pcf.unpack_fields (fst (Pcf.LittleEndian, [Pcf.c_I]))
            (snd (Pcf.LittleEndian, [Pcf.c_I])) (PcfSpec.le32 x))
    with [Pcf.decode Pcf.LittleEndian Pcf.c_I (PcfSpec.le32 x)].
  rewrite decode_le32 by assumption. reflexivity.
Qed.

(** Reading one entry of the table of contents. *)
Lemma read_toc_entry (e : PcfSpec.toc_entry) (pre post : list byte)
      (log : list Pcf.io_event) :
  PcfSpec.toc_entry_ok e ->
  Pcf.read_values (Pcf.LittleEndian, [Pcf.c_I; Pcf.c_I; Pcf.c_I; Pcf.c_I])
    (Pcf.mkFile (pre ++ PcfSpec.toc_entry_bytes e ++ post) (Z.of_nat (length pre)) log)
  = (Ok (let '(type_, format_, size, offset) := e in [type_; format_; size; offset]),
     Pcf.mkFile (pre ++ PcfSpec.toc_entry_bytes e ++ post)
                (Z.of_nat (length pre) + 16) (Pcf.Read 16 :: log)).
Proof.
  destruct e as [[[type_ format_] size] offset]. intros [H1 [H2 [H3 H4]]].
  unfold Pcf.read_values, bind.
  change (Pcf.calcsize (Pcf.LittleEndian, [Pcf.c_I; Pcf.c_I; Pcf.c_I; Pcf.c_I]))
    with (Z.of_nat (length (PcfSpec.toc_entry_bytes (type_, format_, size, offset)))).
  rewrite read_at.
  unfold Pcf.lift, Pcf.unpack.
  change (Z.of_nat (length (PcfSpec.toc_entry_bytes (type_, format_, size, offset)))
          =? Pcf.calcsize (Pcf.LittleEndian, [Pcf.c_I; Pcf.c_I; Pcf.c_I; Pcf.c_I]))
    with true.
  cbv iota.
  change (Pcf.unpack_fields
            (fst (Pcf.LittleEndian, [Pcf.c_I; Pcf.c_I; Pcf.c_I; Pcf.c_I]))
            (snd (Pcf.LittleEndian, [Pcf.c_I; Pcf.c_I; Pcf.c_I; Pcf.c_I]))
            (PcfSpec.toc_entry_bytes (type_, format_, size, offset)))
    with [Pcf.decode Pcf.LittleEndian Pcf.c_I (PcfSpec.le32 type_);
          Pcf.decode Pcf.LittleEndian Pcf.c_I (PcfSpec.le32 format_);
          Pcf.decode Pcf.LittleEndian Pcf.c_I (PcfSpec.le32 size);
          Pcf.decode Pcf.LittleEndian Pcf.c_I (PcfSpec.le32 offset)].
  rewrite !decode_le32 by assumption. reflexivity.
Qed.

(** The loop of [__init__] over a table of contents written in the
    file retains its entries of the required kinds. *)
Lemma read_toc_retains (toc : list PcfSpec.toc_entry) :
  Forall PcfSpec.toc_entry_ok toc ->
  forall (pre post : list byte) (log : list Pcf.io_event) (tables : PcfFont.Tables),
  exists f',
    PcfFont.read_toc (length toc) tables
      (Pcf.mkFile (pre ++ flat_map PcfSpec.toc_entry_bytes toc ++ post)
                  (Z.of_nat (length pre)) log)
    = (Ok (PcfSpec.retained toc tables), f').
Proof.
  induction 1 as [|e toc He Htoc IH]; intros pre post log tables.
  - eexists. reflexivity.
  - cbn [length PcfFont.read_toc flat_map]. unfold bind at 1.
    rewrite <- app_assoc.
    rewrite (read_toc_entry e pre _ log He).
    destruct e as [[[type_ format_] size] offset].
    unfold bind at 1. unfold Pcf.tuple4 at 1, ret at 1.
    replace (Z.of_nat (length pre) + 16)
      with (Z.of_nat (length (pre ++ PcfSpec.toc_entry_bytes (type_, format_, size, offset))))
      by (rewrite length_app; change (length (PcfSpec.toc_entry_bytes _)) with 16%nat; lia).
    rewrite (app_assoc pre).
    destruct (IH (pre ++ PcfSpec.toc_entry_bytes (type_, format_, size, offset)) post
                 (Pcf.Read 16 :: log)
                 (PcfSpec.retain tables (type_, format_, size, offset))) as [f' E].
    exists f'. exact E.
Qed.

Lemma retained_keys (toc : list PcfSpec.toc_entry) (tables : PcfFont.Tables) :
  NoDup (OrderedDict.keys tables) ->
  NoDup (OrderedDict.keys (PcfSpec.retained toc tables))
  /\ forall k,
      In k (OrderedDict.keys (PcfSpec.retained toc tables))
      <-> In k (OrderedDict.keys tables)
          \/ In k (filter PcfFont.is_necessary (map PcfSpec.entry_type toc)).
Proof.
  revert tables. induction toc as [|[[[type_ format_] size] offset] toc IH];
    intros tables ND.
  - simpl. split; [exact ND|]. intros k. tauto.
  - change (PcfSpec.retained ((type_, format_, size, offset) :: toc) tables)
      with (PcfSpec.retained toc
              (PcfSpec.retain tables (type_, format_, size, offset))).
    cbn [map PcfSpec.entry_type filter]. unfold PcfSpec.retain.
    destruct (PcfFont.is_necessary type_) eqn:En.
    + destruct (IH (OrderedDict.assign Z.eq_dec type_
                      (Pcf.mkTableTocEntry format_ size offset) tables))
        as [ND' Hk].
      { apply NoDup_keys_assign. exact ND. }
      split; [exact ND'|]. intros k. rewrite Hk, In_keys_assign. simpl. intuition.
    + apply IH. exact ND.
Qed.

Lemma retained_count (toc : list PcfSpec.toc_entry) :
  length (PcfSpec.retained toc []) = length (PcfSpec.kinds toc).
Proof.
  destruct (retained_keys toc []) as [ND Hk]; [constructor|].
  rewrite <- (length_map fst (PcfSpec.retained toc [])).
  apply Permutation_length. apply NoDup_Permutation.
  - exact ND.
  - apply NoDup_nodup.
  - intros k. unfold PcfSpec.kinds. rewrite nodup_In.
    rewrite (Hk k). simpl. tauto.
Qed.

(** X25.  A font file whose table of contents names fewer than four of
    the five required kinds is refused with the ValueError "Corrupted
    font data". *)
Theorem init_requires_four_kinds
        (Bitmap : Type) (toc : list PcfSpec.toc_entry) (body : list byte)
        (capacity : Z) :
  PcfSpec.toc_ok toc ->
  (length (PcfSpec.kinds toc) < 4)%nat ->
  fst (PcfFont.__init__ Bitmap (PcfSpec.font_file toc body) capacity)
  = Raise (ValueError "Corrupted font data").
Proof.
  intros [Hok Hlen] Hfew.
  unfold PcfFont.__init__, PcfSpec.font_file, Pcf.open.
  unfold bind at 1. unfold Pcf.seek at 1. cbn [Z.ltb Z.compare Pcf.content Pcf.log].
  unfold bind at 1.
  match goal with
  | |- context [Pcf.read 4 ?f] =>
      rewrite (read_at [] PcfSpec.magic
                 (PcfSpec.le32 (Z.of_nat (length toc))
                  ++ flat_map PcfSpec.toc_entry_bytes toc ++ body)
                 [Pcf.Seek 0]
               : Pcf.read 4 f = _)
  end.
  change (negb (PcfFont.bytes_eqb [x01; x66; x63; x70] PcfSpec.magic)) with false.
  cbv iota.
  unfold bind at 1.
  match goal with
  | |- context [Pcf.read_values (Pcf.LittleEndian, [Pcf.c_I]) ?f] =>
      rewrite (read_le32 (Z.of_nat (length toc)) PcfSpec.magic
                 (flat_map PcfSpec.toc_entry_bytes toc ++ body)
                 [Pcf.Read 4; Pcf.Seek 0]
                 ltac:(unfold PcfSpec.u32; lia)
               : Pcf.read_values _ f = _)
  end.
  unfold bind at 1. unfold Pcf.tuple1 at 1, ret at 1.
  unfold bind at 1. rewrite Nat2Z.id.
  destruct (read_toc_retains toc Hok
              (PcfSpec.magic ++ PcfSpec.le32 (Z.of_nat (length toc))) body
              [Pcf.Read 4; Pcf.Read 4; Pcf.Seek 0] [])
    as [f' E].
  match goal with
  | |- context [PcfFont.read_toc (length toc) [] ?f] =>
      rewrite (E : PcfFont.read_toc (length toc) [] f = _)
  end.
  unfold OrderedDict.len. rewrite retained_count.
  destruct (Z.ltb_spec (Z.of_nat (length (PcfSpec.kinds toc))) 4) as [_|g]; [|lia].
  reflexivity.
Qed.

Lemma init_requires_four_kinds_witness :
  PcfSpec.toc_ok PcfSpec.metrics_only_toc
  /\ (length (PcfSpec.kinds PcfSpec.metrics_only_toc) < 4)%nat
  /\ fst (PcfFont.__init__ RefHost.Bitmap
            (PcfSpec.font_file PcfSpec.metrics_only_toc []) 128)
     = Raise (ValueError "Corrupted font data").
Proof.
  assert (Hok : PcfSpec.toc_ok PcfSpec.metrics_only_toc).
  { split; [|simpl; lia].
    repeat constructor; unfold PcfSpec.u32; vm_compute; intuition discriminate. }
  assert (Hfew : (length (PcfSpec.kinds PcfSpec.metrics_only_toc) < 4)%nat).
  { vm_compute. lia. }
  split; [exact Hok|]. split; [exact Hfew|].
  exact (init_requires_four_kinds RefHost.Bitmap
           PcfSpec.metrics_only_toc [] 128 Hok Hfew).
Defined.

(** C1.  The font file [no_metrics_font]: its table of contents names
    both accelerator kinds, bitmaps and BDF-encodings, and no metrics
    table, so it lacks the required combination.  [__init__] counts four
    kinds, passes its count test, and fails with KeyError at
    [tables[_PCF_TABLETYPE_METRICS]], not with a ValueError, by which it
    refuses a font. *)
Theorem init_missing_metrics_key_error :
  PcfSpec.toc_ok PcfSpec.no_metrics_toc
  /\ PcfSpec.has Pcf._PCF_TABLETYPE_ACCELERATORS PcfSpec.no_metrics_toc
  /\ PcfSpec.has Pcf._PCF_TABLETYPE_BDFACCELERATORS PcfSpec.no_metrics_toc
  /\ ~ PcfSpec.has Pcf._PCF_TABLETYPE_METRICS PcfSpec.no_metrics_toc
  /\ length (PcfSpec.kinds PcfSpec.no_metrics_toc) = 4%nat
  /\ fst (PcfFont.__init__ RefHost.Bitmap PcfSpec.no_metrics_font 128)
     = Raise KeyError
  /\ forall msg,
      fst (PcfFont.__init__ RefHost.Bitmap PcfSpec.no_metrics_font 128)
      <> Raise (ValueError msg).
Proof.
  assert (E : fst (PcfFont.__init__ RefHost.Bitmap PcfSpec.no_metrics_font 128)
              = Raise KeyError) by (vm_compute; reflexivity).
  split.
  { split; [|simpl; lia].
    repeat constructor; unfold PcfSpec.u32; vm_compute; intuition discriminate. }
  split; [unfold PcfSpec.has; vm_compute; tauto|].
  split; [unfold PcfSpec.has; vm_compute; tauto|].
  split; [unfold PcfSpec.has; vm_compute; intuition discriminate|].
  split; [vm_compute; reflexivity|].
  split; [exact E|].
  intros msg H. rewrite E in H. discriminate H.
Qed.

Lemma sample_toc_ok : PcfSpec.toc_ok PcfSpec.sample_toc.
Proof.
  split; [|simpl; lia].
  repeat constructor; unfold PcfSpec.u32; vm_compute; intuition discriminate.
Qed.

(** Either accelerator kind will do, and both may be there: a table of
    contents with both and the three other kinds is accepted. *)
Example init_both_accelerators_accepted :
  ~ (forall (toc : list PcfSpec.toc_entry) (body : list byte) (capacity : Z),
        PcfSpec.toc_ok toc ->
        ~ PcfSpec.exactly_one_accelerator_and_the_rest toc ->
        exists msg,
          fst (PcfFont.__init__ RefHost.Bitmap (PcfSpec.font_file toc body) capacity)
          = Raise (ValueError msg)).
Proof.
  intros H.
  destruct (H PcfSpec.sample_toc PcfSpec.sample_body 128 sample_toc_ok) as [msg E].
  - intros [[[_ Hn]|[Hn _]] _]; apply Hn; unfold PcfSpec.has; vm_compute; tauto.
  - vm_compute in E. discriminate E.
Qed.

Lemma sample_opened_ok :
  fst (PcfFont.__init__ RefHost.Bitmap PcfSpec.sample_font 128)
  = Ok FontSpec.sample_opened.
Proof. vm_compute. reflexivity. Qed.

(** *** The encoding index on the small font *)

Lemma get_glyph_index_lookup_witness :
  0 <= PcfFont._encoded_glyph_indices_location FontSpec.sample_opened
  /\ 0 <= 67 < 65536
  /\ fst (PcfFont._get_glyph_index 65 FontSpec.sample_opened) = Ok 0
  /\ fst (PcfFont._get_glyph_index 66 FontSpec.sample_opened) = Ok (-1)
  /\ PcfFont._get_glyph_index 67 FontSpec.sample_opened
     = (Ok (-1), FontSpec.sample_opened).
Proof.
  assert (Hb : 0 <= PcfFont._encoded_glyph_indices_location FontSpec.sample_opened)
    by (vm_compute; discriminate).
  split; [exact Hb|].
  split; [lia|].
  pose proof (get_glyph_index_lookup RefHost.Bitmap FontSpec.sample_opened 67
                ltac:(lia) Hb)
    as [Hout _].
  split; [vm_compute; reflexivity|]. split; [vm_compute; reflexivity|].
  apply Hout. vm_compute. right. right. right. reflexivity.
Defined.

(** Beyond 16 bits the high byte is taken from bits 8 to 15 only.  Code
    point [0x10041]: its bits from 8 up make [0x100], outside
    [min_byte1, max_byte1] = [0, 0], yet the lookup reads the file and
    finds glyph 0, that of [0x41]. *)
Example get_glyph_index_wide_code_point :
  ~ (forall (self : PcfFont.t RefHost.Bitmap) (code_point : Z),
        0 <= PcfFont._encoded_glyph_indices_location self ->
        Z.shiftr code_point 8 < PcfFont._min_byte1 self
        \/ PcfFont._max_byte1 self < Z.shiftr code_point 8
        \/ Z.land code_point 255 < PcfFont._min_byte2 self
        \/ PcfFont._max_byte2 self < Z.land code_point 255 ->
        PcfFont._get_glyph_index code_point self = (Ok (-1), self)).
Proof.
  intros H. specialize (H FontSpec.sample_opened 65601).
  assert (E : PcfFont._get_glyph_index 65601 FontSpec.sample_opened
              = (Ok (-1), FontSpec.sample_opened)).
  { apply H.
    - vm_compute. discriminate.
    - right. left. vm_compute. reflexivity. }
  vm_compute in E. discriminate E.
Qed.

Example get_glyph_index_alias :
  fst (PcfFont._get_glyph_index 65601 FontSpec.sample_opened) = Ok 0
  /\ fst (PcfFont._get_glyph_index 65 FontSpec.sample_opened) = Ok 0.
Proof. split; vm_compute; reflexivity. Qed.

(** ** Rules for outcomes *)

Section HoareRules.
Context {S : Type}.
Import Hoare.

Lemma triple_ret {A : Type} (P : S -> Prop) (a : A)
      (Q : A -> S -> Prop) (E : S -> Prop) :
  (forall s, P s -> Q a s) -> triple P (ret a) Q E.
Proof. intros H s Hs. apply H. exact Hs. Qed.

Lemma triple_raise {A : Type} (P : S -> Prop) (e : exn)
      (Q : A -> S -> Prop) (E : S -> Prop) :
  (forall s, P s -> E s) -> triple P (raise e) Q E.
Proof. intros H s Hs. apply H. exact Hs. Qed.

Lemma triple_bind {A B : Type} (P : S -> Prop) (m : M S A) (f : A -> M S B)
      (Q : A -> S -> Prop) (R : B -> S -> Prop) (E : S -> Prop) :
  triple P m Q E ->
  (forall a, triple (Q a) (f a) R E) ->
  triple P (bind m f) R E.
Proof.
  intros Hm Hf s Hs. unfold bind. specialize (Hm s Hs).
  destruct (m s) as [[a|e] s1]; [|exact Hm].
  apply (Hf a s1 Hm).
Qed.

Lemma triple_conseq {A : Type} (P P' : S -> Prop) (m : M S A)
      (Q Q' : A -> S -> Prop) (E E' : S -> Prop) :
  triple P m Q E ->
  (forall s, P' s -> P s) ->
  (forall a s, Q a s -> Q' a s) ->
  (forall s, E s -> E' s) ->
  triple P' m Q' E'.
Proof.
  intros Hm HP HQ HE s Hs. specialize (Hm s (HP s Hs)).
  destruct (m s) as [[a|e] s1]; auto.
Qed.

Lemma triple_state (P : S -> Prop) (E : S -> Prop) :
  triple P state (fun a s => P s /\ a = s) E.
Proof. intros s Hs. simpl. auto. Qed.

Lemma triple_lift {A : Type} (P : S -> Prop) (r : res A) :
  triple P (Pcf.lift r) (fun a s => P s /\ r = Ok a) P.
Proof. intros s Hs. unfold Pcf.lift. destruct r; auto. Qed.

Lemma triple_when (P : S -> Prop) (b : bool) (m : M S unit) (E : S -> Prop) :
  triple P m (fun _ => P) E -> triple P (when b m) (fun _ => P) E.
Proof.
  intros Hm. destruct b; [exact Hm|]. apply triple_ret. auto.
Qed.

Lemma triple_for_each {A : Type} (I : S -> Prop) (xs : list A)
      (body : A -> M S unit) (E : S -> Prop) :
  (forall x, In x xs -> triple I (body x) (fun _ => I) E) ->
  triple I (for_each xs body) (fun _ => I) E.
Proof.
  induction xs as [|x xs IH]; intros H.
  - apply triple_ret. auto.
  - simpl. eapply triple_bind.
    + apply H. left. reflexivity.
    + intros u. apply IH. intros y Hy. apply H. right. exact Hy.
Qed.

Lemma triple_map_m {A B : Type} (I : S -> Prop) (R : A -> B -> Prop)
      (f : A -> M S B) (xs : list A) (E : S -> Prop) :
  (forall x, In x xs -> triple I (f x) (fun y s => I s /\ R x y) E) ->
  triple I (map_m f xs) (fun ys s => I s /\ Forall2 R xs ys) E.
Proof.
  induction xs as [|x xs IH]; intros H.
  - apply triple_ret. auto.
  - simpl. eapply triple_bind.
    + apply H. left. reflexivity.
    + intros y. apply (triple_bind _ _ _ (fun ys s => (I s /\ Forall2 R xs ys) /\ R x y)).
      * intros s [Hs Hy].
        assert (IH' := IH (fun z Hz => H z (or_intror Hz)) s Hs).
        destruct (map_m f xs s) as [[ys|e] s1]; tauto.
      * intros ys. apply triple_ret. intros s [[Hs Hys] Hy]. auto.
Qed.

Lemma triple_pure {A : Type} (P : S -> Prop) (F : Prop) (m : M S A)
      (Q : A -> S -> Prop) (E : S -> Prop) :
  (F -> triple P m Q E) -> triple (fun s => P s /\ F) m Q E.
Proof. intros H s [Hs HF]. apply (H HF s Hs). Qed.

Lemma triple_bind_any {A B : Type} (m : M S A) (f : A -> M S B)
      (R : B -> S -> Prop) :
  (forall a, triple (fun _ => True) (f a) R (fun _ => True)) ->
  triple (fun _ => True) (bind m f) R (fun _ => True).
Proof.
  intros H s _. unfold bind. destruct (m s) as [[a|e] s1]; [|exact I].
  apply (H a s1 I).
Qed.

End HoareRules.

(** ** File computations *)

Lemma reader_ret {A : Type} (a : A) : PcfSpec.reader (ret a).
Proof. split; simpl; auto. Qed.

Lemma reader_raise {A : Type} (e : exn) : PcfSpec.reader (raise e : M Pcf.File A).
Proof. split; simpl; auto. Qed.

Lemma reader_lift {A : Type} (r : res A) : PcfSpec.reader (Pcf.lift r).
Proof. split; simpl; auto. Qed.

Lemma reader_read (count : Z) : PcfSpec.reader (Pcf.read count).
Proof.
  split.
  - intros f. reflexivity.
  - intros f f' Hc Hp. unfold Pcf.read. simpl. rewrite Hc, Hp. auto.
Qed.

Lemma reader_bind {A B : Type} (m : M Pcf.File A) (k : A -> M Pcf.File B) :
  PcfSpec.reader m -> (forall a, PcfSpec.reader (k a)) -> PcfSpec.reader (bind m k).
Proof.
  intros [Hm1 Hm2] Hk. split.
  - intros f. unfold bind. specialize (Hm1 f).
    destruct (m f) as [[a|e] f1]; simpl in *; [|exact Hm1].
    destruct (Hk a) as [Hk1 _]. rewrite Hk1. exact Hm1.
  - intros f f' Hc Hp. unfold bind.
    destruct (Hm2 f f' Hc Hp) as [Hr Hpos].
    pose proof (Hm1 f) as C1. pose proof (Hm1 f') as C2.
    destruct (m f) as [[a|e] f1]; destruct (m f') as [[a'|e'] f1'];
      simpl in *; try discriminate.
    + inversion Hr; subst a'. destruct (Hk a) as [_ Hk2].
      apply Hk2; congruence.
    + inversion Hr; subst. auto.
Qed.

Lemma reader_read_values (fmt : Pcf.struct_format) :
  PcfSpec.reader (Pcf.read_values fmt).
Proof.
  unfold Pcf.read_values. apply reader_bind.
  - apply reader_read.
  - intros buffer. apply reader_lift.
Qed.

Lemma reader_metrics_standard : PcfSpec.reader Pcf.read_metrics_entry_standard.
Proof.
  unfold Pcf.read_metrics_entry_standard. apply reader_bind.
  - apply reader_read_values.
  - intros vs. unfold Pcf.MetricsEntry_of.
    destruct vs as [|a [|b [|c [|d [|e [|f [|g vs]]]]]]];
      first [apply reader_ret | apply reader_raise].
Qed.

Lemma reader_metrics_compressed : PcfSpec.reader Pcf.read_metrics_entry_compressed.
Proof.
  unfold Pcf.read_metrics_entry_compressed. apply reader_bind.
  - apply reader_read_values.
  - intros vs. apply reader_bind.
    + unfold Pcf.tuple5.
      destruct vs as [|a [|b [|c [|d [|e [|f vs]]]]]];
        first [apply reader_ret | apply reader_raise].
    + intros [[[[a b] c] d] e]. apply reader_ret.
Qed.

(** After a seek, a reader's outcome depends on the bytes only. *)
Lemma seek_then_reader {A : Type} (target : Z) (m : M Pcf.File A) :
  PcfSpec.reader m ->
  (forall f, Pcf.content (snd ((Pcf.seek target ;; m) f)) = Pcf.content f)
  /\ (forall f f',
        Pcf.content f = Pcf.content f' ->
        fst ((Pcf.seek target ;; m) f) = fst ((Pcf.seek target ;; m) f')).
Proof.
  intros [H1 H2]. split.
  - intros f. unfold bind, Pcf.seek. destruct (target <? 0); [reflexivity|].
    rewrite H1. reflexivity.
  - intros f f' Hc. unfold bind, Pcf.seek. destruct (target <? 0); [reflexivity|].
    apply H2; simpl; auto.
Qed.

(** ** The font facade *)

Section FacadeFacts.
Variable Bitmap : Type.
Variable DisplayioBitmap : Z -> Z -> Z -> res Bitmap.
Variable _bitmap_readinto : Z -> Z -> bool -> M (Bitmap * Pcf.File) unit.
Hypothesis host_reads_only : FontSpec.reads_only _bitmap_readinto.

Import Hoare.

Local Abbreviation font := (PcfFont.t Bitmap).
Local Abbreviation load_glyphs :=
  (PcfFont.load_glyphs DisplayioBitmap _bitmap_readinto).
Local Abbreviation get_glyph :=
  (PcfFont.get_glyph DisplayioBitmap _bitmap_readinto).
Local Abbreviation create_glyph := (PcfFont.create_glyph DisplayioBitmap).
Local Abbreviation fill_bitmap := (PcfFont.fill_bitmap _bitmap_readinto).
Local Abbreviation same_font := (@FontSpec.same_font Bitmap).
Local Abbreviation cache_ok := (@FontSpec.cache_ok Bitmap).
Local Abbreviation metrics_of := (@FontSpec.metrics_of Bitmap).
Local Abbreviation reachable :=
  (FontSpec.reachable DisplayioBitmap _bitmap_readinto).

Lemma set_file_same (self : font) : PcfFont.set_file (PcfFont._file self) self = self.
Proof. destruct self. reflexivity. Qed.

Lemma same_font_refl (s : font) : same_font s s.
Proof. unfold FontSpec.same_font. repeat split. Qed.

Lemma same_font_trans (s1 s2 s3 : font) :
  same_font s1 s2 -> same_font s2 s3 -> same_font s1 s3.
Proof.
  unfold FontSpec.same_font. intros H1 H2.
  repeat match goal with H : _ /\ _ |- _ => destruct H end.
  repeat split; congruence.
Qed.

Lemma same_font_set_file (s : font) (f : Pcf.File) :
  Pcf.content f = Pcf.content (PcfFont._file s) -> same_font s (PcfFont.set_file f s).
Proof. intros H. unfold FontSpec.same_font. simpl. repeat split. congruence. Qed.

Lemma same_font_set_cache (s : font) (c : LruCache.t Z nat) :
  same_font s (PcfFont.set_cache c s).
Proof. unfold FontSpec.same_font. simpl. repeat split. Qed.

Lemma same_font_set_heap (s : font) (h : list (PcfFont.obj Bitmap)) :
  same_font s (PcfFont.set_heap h s).
Proof. unfold FontSpec.same_font. simpl. repeat split. Qed.

(** A seek and a read of values on the font's file, followed by a step
    that only computes. *)
Lemma seek_read_post {A : Type} (self : font) (at_ : Z) (fmt : Pcf.struct_format)
      (post : list Z -> res A) (k : list Z -> M font A) :
  (forall vs s, k vs s = (post vs, s)) ->
  exists f',
    (PcfFont.on_file (Pcf.seek at_) ;;
     vs <- PcfFont.on_file (Pcf.read_values fmt) ;; k vs) self
    = (match fst ((Pcf.seek at_ ;; Pcf.read_values fmt) (PcfFont._file self)) with
       | Ok vs => post vs
       | Raise e => Raise e
       end,
       PcfFont.set_file f' self)
    /\ Pcf.content f' = Pcf.content (PcfFont._file self).
Proof.
  intros Hk. rewrite seek_read_on_file.
  destruct (seek_then_reader at_ _ (reader_read_values fmt)) as [Hc _].
  specialize (Hc (PcfFont._file self)).
  destruct ((Pcf.seek at_;; Pcf.read_values fmt) (PcfFont._file self))
    as [[vs|e] f1]; simpl in *.
  - exists f1. rewrite Hk. auto.
  - exists f1. auto.
Qed.

(** A seek and a reader on the font's file. *)
Lemma seek_reader_on_file {A : Type} (self : font) (at_ : Z) (m : M Pcf.File A) :
  PcfSpec.reader m ->
  exists f',
    (PcfFont.on_file (Pcf.seek at_) ;; PcfFont.on_file m) self
    = (fst ((Pcf.seek at_ ;; m) (PcfFont._file self)), PcfFont.set_file f' self)
    /\ Pcf.content f' = Pcf.content (PcfFont._file self).
Proof.
  intros Hm. destruct (seek_then_reader at_ m Hm) as [Hc _].
  specialize (Hc (PcfFont._file self)).
  unfold bind, PcfFont.on_file in *.
  destruct (Pcf.seek at_ (PcfFont._file self)) as [[[]|e] f1]; simpl in *.
  - destruct (m f1) as [r f2]. simpl in *. exists f2. auto.
  - exists f1. auto.
Qed.

(** *** The three table readers: each one only moves the file, and its
    outcome depends on the font, not on the state it is called in. *)

Lemma index_step (self : font) (code_point : Z) :
  exists f',
    PcfFont._get_glyph_index code_point self
    = (fst (PcfFont._get_glyph_index code_point self), PcfFont.set_file f' self)
    /\ Pcf.content f' = Pcf.content (PcfFont._file self).
Proof.
  rewrite !get_glyph_index_unfold. cbv zeta.
  match goal with |- context [if ?b then _ else _] => destruct b end.
  - exists (PcfFont._file self). rewrite set_file_same. auto.
  - match goal with
    | |- context [PcfFont.on_file (Pcf.seek ?a)] =>
        destruct (seek_read_post self a (Pcf.BigEndian, [Pcf.c_H])
                    (fun vs => match vs with
                               | [v] => Ok (if v =? 65535 then -1 else v)
                               | _ => Raise (ValueError "unpack")
                               end)
                    (fun vs => glyph_index <- Pcf.tuple1 vs ;;
                               if glyph_index =? 65535 then ret (-1)
                               else ret glyph_index))
          as [f' [E Hc]]
    end.
    { intros [|v [|w vs]] s; try reflexivity.
      unfold bind, Pcf.tuple1, ret. destruct (v =? 65535); reflexivity. }
    exists f'. rewrite E. auto.
Qed.

Lemma index_pure (s s' : font) (code_point : Z) :
  same_font s s' ->
  fst (PcfFont._get_glyph_index code_point s)
  = fst (PcfFont._get_glyph_index code_point s').
Proof.
  intros Hs. unfold FontSpec.same_font in Hs.
  destruct Hs as [Hc [_ [_ [H2a [H2b [H1a [H1b [_ [_ [_ Hl]]]]]]]]]].
  rewrite !get_glyph_index_unfold. cbv zeta.
  rewrite <- H2a, <- H2b, <- H1a, <- H1b, <- Hl.
  match goal with |- context [if ?b then _ else _] => destruct b end;
    [reflexivity|].
  rewrite !seek_read_on_file.
  match goal with
  | |- context [Pcf.seek ?a] =>
      destruct (seek_then_reader a _ (reader_read_values (Pcf.BigEndian, [Pcf.c_H])))
        as [_ Hp]
  end.
  specialize (Hp _ _ Hc).
  match type of Hp with
  | fst ?x = fst ?y => destruct x as [[vs|e] f1]; destruct y as [[vs'|e'] f1']
  end; simpl in Hp; try discriminate; inversion Hp; subst; try reflexivity.
  destruct vs' as [|v [|w vs']]; try reflexivity.
  unfold bind, Pcf.tuple1, ret. destruct (v =? 65535); reflexivity.
Qed.

Lemma offset_unfold (self : font) (glyph_index : Z) :
  PcfFont._get_glyph_bitmap_offset glyph_index self
  = (PcfFont.on_file
       (Pcf.seek (PcfFont._bitmap_position_lut_location self + glyph_index * 4)) ;;
     vs <- PcfFont.on_file (Pcf.read_values (Pcf.BigEndian, [Pcf.c_I])) ;;
     Pcf.tuple1 vs) self.
Proof. reflexivity. Qed.

Lemma offset_step (self : font) (glyph_index : Z) :
  exists f',
    PcfFont._get_glyph_bitmap_offset glyph_index self
    = (fst (PcfFont._get_glyph_bitmap_offset glyph_index self),
       PcfFont.set_file f' self)
    /\ Pcf.content f' = Pcf.content (PcfFont._file self).
Proof.
  rewrite !offset_unfold.
  match goal with
  | |- context [PcfFont.on_file (Pcf.seek ?a)] =>
      destruct (seek_read_post self a (Pcf.BigEndian, [Pcf.c_I])
                  (fun vs => match vs with
                             | [v] => Ok v
                             | _ => Raise (ValueError "unpack")
                             end)
                  (fun vs => Pcf.tuple1 vs))
        as [f' [E Hc]]
  end.
  { intros [|v [|w vs]] s; reflexivity. }
  exists f'. rewrite E. auto.
Qed.

Lemma metrics_unfold (self : font) (glyph_index : Z) :
  PcfFont._get_metrics glyph_index self
  = (if PcfFont._metrics_compressed self
     then PcfFont.on_file
            (Pcf.seek (PcfFont._metrics_data_location self + glyph_index * 5)) ;;
          PcfFont.on_file Pcf.read_metrics_entry_compressed
     else PcfFont.on_file
            (Pcf.seek (PcfFont._metrics_data_location self + glyph_index * 12)) ;;
          PcfFont.on_file Pcf.read_metrics_entry_standard) self.
Proof. reflexivity. Qed.

Lemma metrics_step (self : font) (glyph_index : Z) :
  exists f',
    PcfFont._get_metrics glyph_index self
    = (fst (PcfFont._get_metrics glyph_index self), PcfFont.set_file f' self)
    /\ Pcf.content f' = Pcf.content (PcfFont._file self).
Proof.
  rewrite !metrics_unfold. destruct (PcfFont._metrics_compressed self).
  - destruct (seek_reader_on_file self
                (PcfFont._metrics_data_location self + glyph_index * 5)
                _ reader_metrics_compressed) as [f' [E Hc]].
    exists f'. rewrite E. auto.
  - destruct (seek_reader_on_file self
                (PcfFont._metrics_data_location self + glyph_index * 12)
                _ reader_metrics_standard) as [f' [E Hc]].
    exists f'. rewrite E. auto.
Qed.

Lemma metrics_pure (s s' : font) (glyph_index : Z) :
  same_font s s' ->
  fst (PcfFont._get_metrics glyph_index s)
  = fst (PcfFont._get_metrics glyph_index s').
Proof.
  intros Hs. unfold FontSpec.same_font in Hs.
  destruct Hs as [Hc [_ [Hm [_ [_ [_ [_ [_ [_ [Hl _]]]]]]]]]].
  rewrite !metrics_unfold. rewrite <- Hm, <- Hl.
  destruct (PcfFont._metrics_compressed s).
  - destruct (seek_reader_on_file s
                (PcfFont._metrics_data_location s + glyph_index * 5)
                _ reader_metrics_compressed) as [f1 [E1 _]].
    destruct (seek_reader_on_file s'
                (PcfFont._metrics_data_location s + glyph_index * 5)
                _ reader_metrics_compressed) as [f2 [E2 _]].
    rewrite E1, E2. simpl.
    apply (seek_then_reader _ _ reader_metrics_compressed). exact Hc.
  - destruct (seek_reader_on_file s
                (PcfFont._metrics_data_location s + glyph_index * 12)
                _ reader_metrics_standard) as [f1 [E1 _]].
    destruct (seek_reader_on_file s'
                (PcfFont._metrics_data_location s + glyph_index * 12)
                _ reader_metrics_standard) as [f2 [E2 _]].
    rewrite E1, E2. simpl.
    apply (seek_then_reader _ _ reader_metrics_standard). exact Hc.
Qed.

(** *** The invariant: the cache holds glyphs of the font *)

Lemma cache_ok_set_file (s0 s : font) (f : Pcf.File) :
  cache_ok s0 s ->
  Pcf.content f = Pcf.content (PcfFont._file s) ->
  cache_ok s0 (PcfFont.set_file f s).
Proof.
  intros [Hs [Hw He]] Hc. split; [|split].
  - eapply same_font_trans; [exact Hs|]. apply same_font_set_file. exact Hc.
  - exact Hw.
  - exact He.
Qed.

Lemma triple_index (s0 : font) (code_point : Z) :
  triple (cache_ok s0) (PcfFont._get_glyph_index code_point)
         (fun r s => cache_ok s0 s
                     /\ fst (PcfFont._get_glyph_index code_point s0) = Ok r)
         (cache_ok s0).
Proof.
  intros s Hs. destruct (index_step s code_point) as [f' [E Hc]].
  pose proof (index_pure s0 s code_point (proj1 Hs)) as Hp.
  rewrite E. rewrite <- Hp.
  destruct (fst (PcfFont._get_glyph_index code_point s0)) as [r|e];
    auto using cache_ok_set_file.
Qed.

Lemma triple_offset (s0 : font) (glyph_index : Z) :
  triple (cache_ok s0) (PcfFont._get_glyph_bitmap_offset glyph_index)
         (fun _ s => cache_ok s0 s) (cache_ok s0).
Proof.
  intros s Hs. destruct (offset_step s glyph_index) as [f' [E Hc]].
  rewrite E.
  destruct (fst (PcfFont._get_glyph_bitmap_offset glyph_index s)) as [r|e];
    auto using cache_ok_set_file.
Qed.

Lemma triple_metrics (s0 : font) (glyph_index : Z) :
  triple (cache_ok s0) (PcfFont._get_metrics glyph_index)
         (fun m s => cache_ok s0 s
                     /\ fst (PcfFont._get_metrics glyph_index s0) = Ok m)
         (cache_ok s0).
Proof.
  intros s Hs. destruct (metrics_step s glyph_index) as [f' [E Hc]].
  pose proof (metrics_pure s0 s glyph_index (proj1 Hs)) as Hp.
  rewrite E. rewrite <- Hp.
  destruct (fst (PcfFont._get_metrics glyph_index s0)) as [r|e];
    auto using cache_ok_set_file.
Qed.

Lemma triple_collect (s0 : font) (code_points : list Z) :
  forall glyphs_indices : OrderedDict.t Z Z,
    (forall c i, In (c, i) glyphs_indices ->
                 fst (PcfFont._get_glyph_index c s0) = Ok i /\ 0 <= i) ->
    triple (cache_ok s0) (PcfFont.collect_indices code_points glyphs_indices)
           (fun d s =>
              cache_ok s0 s
              /\ forall c i, In (c, i) d ->
                             fst (PcfFont._get_glyph_index c s0) = Ok i /\ 0 <= i)
           (cache_ok s0).
Proof.
  induction code_points as [|c rest IH]; intros acc Hacc.
  - apply triple_ret. auto.
  - simpl. eapply triple_bind; [apply triple_index|].
    intros index s [Hs Hi].
    assert (Hacc' : forall c' i,
               In (c', i) (if index >=? 0
                           then OrderedDict.assign Z.eq_dec c index acc
                           else acc) ->
               fst (PcfFont._get_glyph_index c' s0) = Ok i /\ 0 <= i).
    { intros c' i. destruct (Z.geb_spec index 0) as [g|l]; [|apply Hacc].
      intros H. apply In_assign in H. destruct H as [E|H]; [|apply Hacc; exact H].
      inversion E; subst. split; [exact Hi|lia]. }
    apply (IH _ Hacc' s Hs).
Qed.

(** [put], for what the invariant needs. *)
Lemma put_entries (c : LruCache.t Z nat) (k : Z) (v : option nat) :
  LruCacheSpec.within c ->
  exists c',
    LruCache.put Z.eq_dec k v c = (Ok tt, c')
    /\ LruCacheSpec.within c'
    /\ (forall kv, In kv (LruCache._cache c') ->
                   kv = (k, v) \/ In kv (LruCache._cache c))
    /\ OrderedDict.lookup Z.eq_dec k (LruCache._cache c') = Some v.
Proof.
  intros Hw. destruct (apply_put Z.eq_dec c k v Hw) as [c' [E [_ [Hw' Hd]]]].
  exists c'. split; [exact E|]. split; [exact Hw'|].
  destruct Hd as [[_ Ed]|[_ [d0 [last [Ec Ed]]]]]; rewrite Ed; split.
  - intros kv [H|H]; [left; congruence|right]. eapply In_remove. exact H.
  - simpl. destruct (Z.eq_dec k k); congruence.
  - intros kv [H|H]; [left; congruence|right]. rewrite Ec.
    apply in_or_app. left. eapply In_remove. exact H.
  - simpl. destruct (Z.eq_dec k k); congruence.
Qed.

Lemma glyph_for_new (m : Pcf.MetricsEntry) (bitmap : nat) :
  FontSpec.glyph_for m
    (PcfFont.mkGlyph bitmap 0
       (Pcf.right_side_bearing m - Pcf.left_side_bearing m)
       (Pcf.character_ascent m + Pcf.character_descent m)
       (Pcf.left_side_bearing m) (- Pcf.character_descent m)
       (Pcf.character_width m) 0).
Proof. unfold FontSpec.glyph_for. simpl. repeat split. Qed.

(** One glyph made and cached: the invariant stays, and on return the
    code point holds the new glyph. *)
Lemma triple_create (s0 : font) (m : Pcf.MetricsEntry) (code_point : Z) :
  metrics_of s0 code_point m ->
  triple (cache_ok s0) (create_glyph (m, code_point))
         (fun _ s =>
            cache_ok s0 s
            /\ exists a,
                OrderedDict.lookup Z.eq_dec code_point
                                   (LruCache._cache (PcfFont._cache s))
                = Some (Some a))
         (cache_ok s0).
Proof.
  intros Hm s [Hs [Hw He]].
  unfold PcfFont.create_glyph. unfold bind at 1. unfold Pcf.lift.
  destruct (DisplayioBitmap _ _ 2) as [b|e]; [|exact (conj Hs (conj Hw He))].
  unfold bind at 1. unfold PcfFont.alloc at 1.
  unfold bind at 1. unfold PcfFont.alloc at 1.
  unfold bind at 1. unfold PcfFont.on_lru.
  cbn [PcfFont._cache PcfFont.set_heap PcfFont.heap].
  destruct (put_entries (PcfFont._cache s) code_point
              (Some (length (PcfFont.heap s ++ [PcfFont.OBitmap b]))) Hw)
    as [c' [E [Hw' [Hin Hl]]]].
  rewrite E. cbn [ret].
  split; [|eexists; exact Hl].
  split; [|split].
  - eapply same_font_trans; [exact Hs|]. unfold FontSpec.same_font. simpl.
    repeat split.
  - exact Hw'.
  - cbn [PcfFont._cache PcfFont.set_cache PcfFont.heap PcfFont.set_heap].
    intros cp v Hv. destruct (Hin _ Hv) as [Enew|Hold].
    + inversion Enew; subst.
      eexists _, _, m. split; [reflexivity|]. split; [|split].
      * rewrite nth_error_app2 by lia. rewrite Nat.sub_diag. reflexivity.
      * exact Hm.
      * apply glyph_for_new.
    + destruct (He _ _ Hold) as [a [g [m' [Ev [Ha [Hm' Hg]]]]]].
      exists a, g, m'. split; [exact Ev|]. split; [|auto].
      assert (a < length (PcfFont.heap s))%nat
        by (apply nth_error_Some; congruence).
      rewrite nth_error_app1 by (rewrite length_app; lia).
      rewrite nth_error_app1 by lia. exact Ha.
Qed.

Lemma nth_error_list_set_other {A : Type} (i j : nat) (x : A) (l : list A) :
  i <> j -> nth_error (PcfFont.list_set i x l) j = nth_error l j.
Proof.
  revert i j. induction l as [|y l IH]; intros [|i] [|j] H; simpl; auto.
  contradiction.
Qed.

(** One bitmap filled: the invariant and the cache stay, whether the
    host routine returns or raises. *)
Lemma triple_fill (s0 : font) (c : LruCache.t Z nat) (entry : Z * nat) :
  triple (fun s => cache_ok s0 s /\ PcfFont._cache s = c)
         (fill_bitmap entry)
         (fun _ s => cache_ok s0 s /\ PcfFont._cache s = c)
         (fun s => cache_ok s0 s /\ PcfFont._cache s = c).
Proof.
  destruct entry as [bmp_offset bitmap]. intros s [Hs Hc].
  unfold PcfFont.fill_bitmap. unfold bind at 1. unfold state.
  unfold bind at 1. unfold PcfFont.on_file, Pcf.seek.
  destruct (PcfFont._bitmap_data_location s + bmp_offset <? 0).
  - rewrite set_file_same. auto.
  - unfold PcfFont.readinto.
    cbn [PcfFont.heap PcfFont.set_file PcfFont._file PcfFont._glyph_padding].
    destruct (nth_error (PcfFont.heap s) bitmap) as [[b|g]|] eqn:Eb;
      try (split; [apply cache_ok_set_file; [exact Hs|reflexivity] | exact Hc]).
    pose proof (host_reads_only 1 (PcfFont._glyph_padding s) true b
                  (Pcf.mkFile (Pcf.content (PcfFont._file s))
                              (PcfFont._bitmap_data_location s + bmp_offset)
                              (Pcf.Seek (PcfFont._bitmap_data_location s + bmp_offset)
                                        :: Pcf.log (PcfFont._file s)))) as Hr.
    destruct (_bitmap_readinto 1 (PcfFont._glyph_padding s) true _)
      as [r [b' f']].
    simpl in Hr.
    assert (Hok : cache_ok s0
                    (PcfFont.set_file f'
                       (PcfFont.set_heap
                          (PcfFont.list_set bitmap (PcfFont.OBitmap b') (PcfFont.heap s))
                          (PcfFont.set_file
                             (Pcf.mkFile (Pcf.content (PcfFont._file s))
                                (PcfFont._bitmap_data_location s + bmp_offset)
                                (Pcf.Seek (PcfFont._bitmap_data_location s + bmp_offset)
                                          :: Pcf.log (PcfFont._file s)))
                             s)))).
    { destruct Hs as [Hsf [Hw He]]. split; [|split].
      - eapply same_font_trans; [exact Hsf|]. unfold FontSpec.same_font. simpl.
        repeat split. congruence.
      - exact Hw.
      - simpl. intros cp v Hv.
        destruct (He _ _ Hv) as [a [g [m [Ev [Ha [Hm Hg]]]]]].
        exists a, g, m. split; [exact Ev|]. split; [|auto].
        rewrite nth_error_list_set_other; [exact Ha|].
        intros Eq. subst a. congruence. }
    destruct r; split; auto.
Qed.

Lemma triple_fill_all (s0 : font) (entries : list (Z * nat)) :
  forall c,
    triple (fun s => cache_ok s0 s /\ PcfFont._cache s = c)
           (for_each entries fill_bitmap)
           (fun _ s => cache_ok s0 s /\ PcfFont._cache s = c)
           (fun s => cache_ok s0 s /\ PcfFont._cache s = c).
Proof.
  intros c. apply triple_for_each. intros e _. apply triple_fill.
Qed.

(** The metrics read for the indices of the collected code points are
    the metrics of those code points. *)
Lemma combine_metrics (s0 : font) (d : OrderedDict.t Z Z)
      (ms : list Pcf.MetricsEntry) :
  (forall c i, In (c, i) d ->
               fst (PcfFont._get_glyph_index c s0) = Ok i /\ 0 <= i) ->
  Forall2 (fun i m => fst (PcfFont._get_metrics i s0) = Ok m) (map snd d) ms ->
  forall m c, In (m, c) (combine ms (OrderedDict.keys d)) -> metrics_of s0 c m.
Proof.
  revert ms. induction d as [|[c0 i0] d IH]; intros ms Hd HF m c Hin.
  - destruct ms; simpl in Hin; contradiction.
  - simpl in HF. inversion HF as [|? m0 ? ms' Hm0 HF']; subst.
    simpl in Hin. destruct Hin as [E|Hin].
    + inversion E; subst. exists i0.
      destruct (Hd c i0 (or_introl eq_refl)) as [Hi Hpos]. auto.
    + apply (IH ms'); auto. intros c' i' H'. apply Hd. right. exact H'.
Qed.

(** [load_glyphs] keeps the invariant, whether it returns or raises. *)
Lemma triple_load_body (s0 : font) (code_points : list Z) :
  triple (cache_ok s0)
         (glyphs_indices <- PcfFont.collect_indices code_points [] ;;
          match glyphs_indices with
          | [] => ret tt
          | _ =>
              bitmaps_offsets <-
                map_m PcfFont._get_glyph_bitmap_offset (map snd glyphs_indices) ;;
              char_metrics <- map_m PcfFont._get_metrics (map snd glyphs_indices) ;;
              PcfFont.gc_collect ;;
              bitmaps <-
                map_m create_glyph
                      (combine char_metrics (OrderedDict.keys glyphs_indices)) ;;
              for_each (combine bitmaps_offsets bitmaps) fill_bitmap
          end)
         (fun _ => cache_ok s0) (cache_ok s0).
Proof.
  eapply triple_bind.
  { apply triple_collect. intros c i []. }
  intros d. apply triple_pure. intros Hd.
  destruct d as [|p d']; [apply triple_ret; auto|].
  remember (p :: d') as d eqn:Ed. clear Ed p d'.
  eapply triple_bind.
  { apply (triple_map_m (cache_ok s0) (fun _ _ => True)).
    intros i _. eapply triple_conseq; [apply (triple_offset s0 i)|..]; auto. }
  intros offsets.
  eapply triple_bind.
  { eapply triple_conseq;
      [apply (triple_map_m (cache_ok s0)
                (fun i m => fst (PcfFont._get_metrics i s0) = Ok m));
       intros i _; apply triple_metrics | ..].
    - intros s [Hs _]. exact Hs.
    - intros ms s H. exact H.
    - auto. }
  intros ms. apply triple_pure. intros Hms.
  apply (triple_bind _ _ _ (fun _ => cache_ok s0)).
  { apply triple_ret. intros s Hs. exact Hs. }
  intros u.
  eapply triple_bind.
  { apply (triple_map_m (cache_ok s0) (fun _ _ => True)).
    intros [m c] Hin. eapply triple_conseq.
    - apply (triple_create s0 m c). eapply combine_metrics; eauto.
    - auto.
    - intros a s [Hs _]. auto.
    - auto. }
  intros bitmaps s [Hs _].
  pose proof (triple_fill_all s0 (combine offsets bitmaps) (PcfFont._cache s) s
                (conj Hs eq_refl)) as H.
  destruct (for_each (combine offsets bitmaps) fill_bitmap s) as [[[]|e] s1];
    tauto.
Qed.

Lemma load_glyphs_unfold (code_points : PcfFont.code_points_arg) (self : font) :
  load_glyphs code_points self
  = (let code_points :=
       match code_points with
       | PcfFont.CodePoint c => [c]
       | PcfFont.Text s => map PcfFont.ord (list_ascii_of_string s)
       | PcfFont.Iter cs => cs
       end in
     let code_points :=
       PcfFont.sorted
         (filter (fun c => negb (OrderedDict.contains Z.eq_dec c
                                   (LruCache._cache (PcfFont._cache self))))
                 code_points) in
     match code_points with
     | [] => ret tt
     | _ =>
         glyphs_indices <- PcfFont.collect_indices code_points [] ;;
         match glyphs_indices with
         | [] => ret tt
         | _ =>
             bitmaps_offsets <-
               map_m PcfFont._get_glyph_bitmap_offset (map snd glyphs_indices) ;;
             char_metrics <- map_m PcfFont._get_metrics (map snd glyphs_indices) ;;
             PcfFont.gc_collect ;;
             bitmaps <-
               map_m create_glyph
                     (combine char_metrics (OrderedDict.keys glyphs_indices)) ;;
             for_each (combine bitmaps_offsets bitmaps) fill_bitmap
         end
     end) self.
Proof. reflexivity. Qed.

Lemma triple_load (s0 : font) (code_points : PcfFont.code_points_arg) :
  triple (cache_ok s0) (load_glyphs code_points)
         (fun _ => cache_ok s0) (cache_ok s0).
Proof.
  intros s Hs. rewrite load_glyphs_unfold. cbv zeta.
  destruct (PcfFont.sorted _) as [|c cs]; [exact Hs|].
  apply (triple_load_body s0 (c :: cs) s Hs).
Qed.

(** *** One code point that is not cached and resolves: when the load
    returns, the code point holds a glyph. *)

Lemma triple_load_one_body (s0 : font) (code_point : Z) (m : Pcf.MetricsEntry) :
  metrics_of s0 code_point m ->
  triple (cache_ok s0)
         (glyphs_indices <- PcfFont.collect_indices [code_point] [] ;;
          match glyphs_indices with
          | [] => ret tt
          | _ =>
              bitmaps_offsets <-
                map_m PcfFont._get_glyph_bitmap_offset (map snd glyphs_indices) ;;
              char_metrics <- map_m PcfFont._get_metrics (map snd glyphs_indices) ;;
              PcfFont.gc_collect ;;
              bitmaps <-
                map_m create_glyph
                      (combine char_metrics (OrderedDict.keys glyphs_indices)) ;;
              for_each (combine bitmaps_offsets bitmaps) fill_bitmap
          end)
         (fun _ s =>
            cache_ok s0 s
            /\ exists a,
                OrderedDict.lookup Z.eq_dec code_point
                                   (LruCache._cache (PcfFont._cache s))
                = Some (Some a))
         (cache_ok s0).
Proof.
  intros Hm. pose proof Hm as [idx [Hidx [Hpos Hmet]]].
  apply (triple_bind _ _ _ (fun d s => cache_ok s0 s /\ d = [(code_point, idx)])).
  { simpl.
    apply (triple_bind _ _ _
             (fun r s => cache_ok s0 s
                         /\ fst (PcfFont._get_glyph_index code_point s0) = Ok r));
      [apply triple_index|].
    intros index. apply triple_pure. intros Hi.
    apply triple_ret. intros s Hs. split; [exact Hs|].
    rewrite Hidx in Hi. inversion Hi; subst index.
    destruct (Z.geb_spec idx 0); [reflexivity|lia]. }
  intros d. apply triple_pure. intros Ed. subst d.
  cbn [map snd OrderedDict.keys fst].
  apply (triple_bind _ _ _
           (fun offsets s => cache_ok s0 s
                             /\ Forall2 (fun _ _ => True) [idx] offsets)).
  { apply (triple_map_m (cache_ok s0) (fun _ _ => True)).
    intros i _. eapply triple_conseq; [apply (triple_offset s0 i)|..]; auto. }
  intros offsets. apply triple_pure. intros Hoff.
  inversion Hoff as [|? off ? rest _ Hrest]; subst. inversion Hrest; subst.
  apply (triple_bind _ _ _
           (fun ms s => cache_ok s0 s
                        /\ Forall2 (fun i m' => fst (PcfFont._get_metrics i s0) = Ok m')
                                   [idx] ms)).
  { apply (triple_map_m (cache_ok s0)
             (fun i m' => fst (PcfFont._get_metrics i s0) = Ok m')).
    intros i _. apply triple_metrics. }
  intros ms. apply triple_pure. intros Hms.
  inversion Hms as [|? m' ? rest Hm' Hrest']; subst. inversion Hrest'; subst.
  rewrite Hmet in Hm'. inversion Hm'; subst m'.
  apply (triple_bind _ _ _ (fun _ => cache_ok s0)).
  { apply triple_ret. auto. }
  intros u. cbn [combine map_m].
  apply (triple_bind _ _ _
           (fun _ s =>
              cache_ok s0 s
              /\ exists a,
                  OrderedDict.lookup Z.eq_dec code_point
                                     (LruCache._cache (PcfFont._cache s))
                  = Some (Some a))).
  { apply (triple_bind _ _ _
             (fun _ s =>
                cache_ok s0 s
                /\ exists a,
                    OrderedDict.lookup Z.eq_dec code_point
                                       (LruCache._cache (PcfFont._cache s))
                    = Some (Some a)));
      [apply (triple_create s0 m code_point Hm)|].
    intros bitmap.
    apply (triple_bind _ _ _
             (fun _ s =>
                cache_ok s0 s
                /\ exists a,
                    OrderedDict.lookup Z.eq_dec code_point
                                       (LruCache._cache (PcfFont._cache s))
                    = Some (Some a))).
    - apply triple_ret. auto.
    - intros ys. apply triple_ret. auto. }
  intros bitmaps s [Hs [a Ha]].
  match goal with
  | |- context [for_each ?l fill_bitmap s] =>
      pose proof (triple_fill_all s0 l (PcfFont._cache s) s (conj Hs eq_refl)) as H;
      destruct (for_each l fill_bitmap s) as [[[]|e] s1]
  end.
  - destruct H as [Hs1 Hc1]. split; [exact Hs1|]. exists a. rewrite Hc1. exact Ha.
  - tauto.
Qed.

Lemma triple_load_one (s0 : font) (code_point : Z) (m : Pcf.MetricsEntry) :
  metrics_of s0 code_point m ->
  triple (fun s => cache_ok s0 s
                   /\ OrderedDict.contains Z.eq_dec code_point
                        (LruCache._cache (PcfFont._cache s)) = false)
         (load_glyphs (PcfFont.CodePoint code_point))
         (fun _ s =>
            cache_ok s0 s
            /\ exists a,
                OrderedDict.lookup Z.eq_dec code_point
                                   (LruCache._cache (PcfFont._cache s))
                = Some (Some a))
         (cache_ok s0).
Proof.
  intros Hm s [Hs Hc]. rewrite load_glyphs_unfold. cbv zeta.
  cbn [filter]. rewrite Hc. cbn [negb PcfFont.sorted fold_right PcfFont.insert_sorted].
  apply (triple_load_one_body s0 code_point m Hm s Hs).
Qed.

(** *** [get_glyph] *)

Lemma metrics_of_same_font (s s' : font) (code_point : Z) (m : Pcf.MetricsEntry) :
  same_font s s' -> metrics_of s code_point m -> metrics_of s' code_point m.
Proof.
  intros Hs [idx [Hi [Hp Hm]]]. exists idx.
  rewrite <- (index_pure s s' code_point Hs).
  rewrite <- (metrics_pure s s' idx Hs). auto.
Qed.

Lemma metrics_of_unique (s : font) (code_point : Z) (m m' : Pcf.MetricsEntry) :
  metrics_of s code_point m -> metrics_of s code_point m' -> m = m'.
Proof.
  intros [i [Hi [_ Hm]]] [i' [Hi' [_ Hm']]].
  rewrite Hi in Hi'. inversion Hi'; subst i'. congruence.
Qed.

Lemma same_font_sym (s s' : font) : same_font s s' -> same_font s' s.
Proof.
  unfold FontSpec.same_font. intros H.
  repeat match goal with H : _ /\ _ |- _ => destruct H end.
  repeat split; congruence.
Qed.

Lemma get_glyph_unfold (code_point : Z) (self : font) :
  get_glyph code_point self
  = (when (negb (OrderedDict.contains Z.eq_dec code_point
                   (LruCache._cache (PcfFont._cache self))))
          (load_glyphs (PcfFont.CodePoint code_point) ;; PcfFont.gc_collect) ;;
     PcfFont.on_lru (LruCache.get Z.eq_dec code_point)) self.
Proof. destruct self. reflexivity. Qed.

Lemma get_glyph_hit (code_point : Z) (self : font) :
  OrderedDict.contains Z.eq_dec code_point (LruCache._cache (PcfFont._cache self))
  = true ->
  get_glyph code_point self
  = PcfFont.on_lru (LruCache.get Z.eq_dec code_point) self.
Proof. intros H. rewrite get_glyph_unfold, H. reflexivity. Qed.

Lemma get_glyph_miss (code_point : Z) (self : font) :
  OrderedDict.contains Z.eq_dec code_point (LruCache._cache (PcfFont._cache self))
  = false ->
  get_glyph code_point self
  = match load_glyphs (PcfFont.CodePoint code_point) self with
    | (Ok _, s1) => PcfFont.on_lru (LruCache.get Z.eq_dec code_point) s1
    | (Raise e, s1) => (Raise e, s1)
    end.
Proof.
  intros H. rewrite get_glyph_unfold, H. cbn [negb when]. unfold bind.
  destruct (load_glyphs (PcfFont.CodePoint code_point) self) as [[[]|e] s1];
    reflexivity.
Qed.

(** The cache lookup that ends [get_glyph]. *)
Lemma cached_get (s0 s : font) (code_point : Z) :
  cache_ok s0 s ->
  exists r s',
    PcfFont.on_lru (LruCache.get Z.eq_dec code_point) s = (Ok r, s')
    /\ cache_ok s0 s'
    /\ PcfFont._file s' = PcfFont._file s
    /\ PcfFont.heap s' = PcfFont.heap s
    /\ (forall a,
          OrderedDict.lookup Z.eq_dec code_point (LruCache._cache (PcfFont._cache s))
          = Some (Some a) -> r = Some a)
    /\ (forall a, r = Some a ->
                  OrderedDict.lookup Z.eq_dec code_point
                                     (LruCache._cache (PcfFont._cache s'))
                  = Some (Some a)).
Proof.
  intros [Hsf [Hw He]]. unfold PcfFont.on_lru.
  destruct (PcfFont._cache s) as [d C] eqn:Ec.
  destruct (OrderedDict.lookup Z.eq_dec code_point d) as [[a|]|] eqn:El.
  - rewrite (get_object Z.eq_dec d C code_point a El).
    eexists _, _. split; [reflexivity|]. split; [|split; [|split; [|split]]].
    + split; [|split].
      * eapply same_font_trans; [exact Hsf|]. apply same_font_set_cache.
      * simpl in *. destruct Hw as [HC Hlen]. split; simpl; [exact HC|].
        assert (Hin : In code_point (OrderedDict.keys d)).
        { apply (contains_true_iff Z.eq_dec). unfold OrderedDict.contains.
          rewrite El. reflexivity. }
        pose proof (remove_length_In Z.eq_dec code_point d Hin). simpl in Hlen. lia.
      * simpl. intros cp v [E|H].
        -- inversion E; subst. apply He. simpl. apply lookup_Some_In with (1 := El).
        -- apply He. simpl. eapply In_remove. exact H.
    + reflexivity.
    + reflexivity.
    + intros a' E. simpl in E. congruence.
    + simpl. intros a' E. inversion E; subst.
      destruct (Z.eq_dec code_point code_point); congruence.
  - rewrite (get_nothing Z.eq_dec (LruCache.Build d C) code_point) by (simpl; auto).
    eexists _, _. split; [reflexivity|]. split; [|split; [|split; [|split]]].
    + split; [|split]; simpl.
      * eapply same_font_trans; [exact Hsf|]. apply same_font_set_cache.
      * exact Hw.
      * exact He.
    + reflexivity.
    + reflexivity.
    + simpl. intros a' E. congruence.
    + intros a' E. discriminate.
  - rewrite (get_nothing Z.eq_dec (LruCache.Build d C) code_point) by (simpl; auto).
    eexists _, _. split; [reflexivity|]. split; [|split; [|split; [|split]]].
    + split; [|split]; simpl.
      * eapply same_font_trans; [exact Hsf|]. apply same_font_set_cache.
      * exact Hw.
      * exact He.
    + reflexivity.
    + reflexivity.
    + simpl. intros a' E. congruence.
    + intros a' E. discriminate.
Qed.

Lemma triple_get_glyph (s0 : font) (code_point : Z) :
  triple (cache_ok s0) (get_glyph code_point) (fun _ => cache_ok s0) (cache_ok s0).
Proof.
  intros s Hs. rewrite get_glyph_unfold.
  assert (H : triple (cache_ok s0)
                (when (negb (OrderedDict.contains Z.eq_dec code_point
                               (LruCache._cache (PcfFont._cache s))))
                      (load_glyphs (PcfFont.CodePoint code_point) ;;
                       PcfFont.gc_collect) ;;
                 PcfFont.on_lru (LruCache.get Z.eq_dec code_point))
                (fun _ => cache_ok s0) (cache_ok s0)).
  { apply (triple_bind _ _ _ (fun _ => cache_ok s0)).
    - apply triple_when.
      apply (triple_bind _ _ _ (fun _ => cache_ok s0)); [apply triple_load|].
      intros u. apply triple_ret. auto.
    - intros u s1 Hs1.
      destruct (cached_get s0 s1 code_point Hs1) as [r [s' [E [Hs' _]]]].
      rewrite E. exact Hs'. }
  apply (H s Hs).
Qed.

(** A resolvable code point: [get_glyph] returns a glyph that the cache
    then holds, unless the load of that code point raises. *)
Lemma get_glyph_outcome (s0 s : font) (code_point : Z) (m : Pcf.MetricsEntry) :
  cache_ok s0 s ->
  metrics_of s0 code_point m ->
  (exists a s',
      get_glyph code_point s = (Ok (Some a), s')
      /\ cache_ok s0 s'
      /\ OrderedDict.lookup Z.eq_dec code_point
                            (LruCache._cache (PcfFont._cache s'))
         = Some (Some a))
  \/ (exists e,
         fst (load_glyphs (PcfFont.CodePoint code_point) s) = Raise e
         /\ fst (get_glyph code_point s) = Raise e).
Proof.
  intros Hs Hm.
  destruct (OrderedDict.contains Z.eq_dec code_point
              (LruCache._cache (PcfFont._cache s))) eqn:Ec.
  - left. rewrite (get_glyph_hit code_point s Ec).
    destruct (cached_get s0 s code_point Hs) as [r [s' [E [Hs' [_ [_ [Hhit Hpost]]]]]]].
    unfold OrderedDict.contains in Ec.
    destruct (OrderedDict.lookup Z.eq_dec code_point
                (LruCache._cache (PcfFont._cache s))) as [v|] eqn:El;
      [|discriminate].
    destruct Hs as [_ [_ He]].
    destruct (He code_point v (lookup_Some_In Z.eq_dec _ _ _ El))
      as [a [g [m' [Ev _]]]].
    subst v. specialize (Hhit a eq_refl). subst r.
    exists a, s'. rewrite E. auto.
  - rewrite !(get_glyph_miss code_point s Ec).
    pose proof (triple_load_one s0 code_point m Hm s (conj Hs Ec)) as Hl.
    destruct (load_glyphs (PcfFont.CodePoint code_point) s) as [[[]|e] s1].
    + left. destruct Hl as [Hs1 [a Ha]].
      destruct (cached_get s0 s1 code_point Hs1)
        as [r [s' [E [Hs' [_ [_ [Hhit Hpost]]]]]]].
      specialize (Hhit a Ha). subst r.
      exists a, s'. rewrite E. auto.
    + right. exists e. auto.
Qed.

(** *** The states of an opened font *)

(** A font just opened has an empty cache of the given capacity and has
    allocated nothing. *)
Lemma init_fresh (bytes : list byte) (capacity : Z) (self : font) :
  fst (PcfFont.__init__ Bitmap bytes capacity) = Ok self ->
  PcfFont._cache self = LruCache.init capacity /\ PcfFont.heap self = [].
Proof.
  unfold PcfFont.__init__.
  match goal with
  | |- fst (?m ?f) = _ -> _ =>
      assert (H : triple (fun _ => True) m
                    (fun r _ => PcfFont._cache r = LruCache.init capacity
                                /\ PcfFont.heap r = [])
                    (fun _ => True));
      [|specialize (H f I); destruct (m f) as [[r|e] f1]; simpl;
        intros E; inversion E; subst; exact H]
  end.
  repeat lazymatch goal with
         | |- triple _ (bind _ _) _ _ => apply triple_bind_any; intros
         | |- triple _ (if ?b then _ else _) _ _ => destruct b
         | |- triple _ (raise _) _ _ => apply triple_raise; auto
         | |- triple _ (match ?x with (_, _) => _ end) _ _ => destruct x
         | |- triple _ (ret _) _ _ => apply triple_ret; intros; simpl; auto
         end.
Qed.

Lemma reachable_cache_ok (bytes : list byte) (capacity : Z) (self : font) :
  1 <= capacity ->
  reachable bytes capacity self ->
  exists s0,
    fst (PcfFont.__init__ Bitmap bytes capacity) = Ok s0 /\ cache_ok s0 self.
Proof.
  intros HC. induction 1 as [self Hinit|self arg Hr [s0 [Hinit Hs]]
                                   |self cp Hr [s0 [Hinit Hs]]].
  - exists self. split; [exact Hinit|].
    destruct (init_fresh bytes capacity self Hinit) as [Hc Hh].
    split; [apply same_font_refl|]. rewrite Hc. split.
    + split; simpl; lia.
    + simpl. intros cp v [].
  - exists s0. split; [exact Hinit|].
    pose proof (triple_load s0 arg self Hs) as H.
    destruct (load_glyphs arg self) as [[[]|e] s1]; exact H.
  - exists s0. split; [exact Hinit|].
    pose proof (triple_get_glyph s0 cp self Hs) as H.
    destruct (get_glyph cp self) as [[r|e] s1]; exact H.
Qed.

(** *** When the load of one code point returns *)

Lemma offset_pure (s s' : font) (glyph_index : Z) :
  same_font s s' ->
  fst (PcfFont._get_glyph_bitmap_offset glyph_index s)
  = fst (PcfFont._get_glyph_bitmap_offset glyph_index s').
Proof.
  intros Hs. unfold FontSpec.same_font in Hs.
  destruct Hs as [Hc [_ [_ [_ [_ [_ [_ [Hl _]]]]]]]].
  rewrite !offset_unfold. rewrite <- Hl.
  rewrite !seek_read_on_file.
  match goal with
  | |- context [Pcf.seek ?a] =>
      destruct (seek_then_reader a _ (reader_read_values (Pcf.BigEndian, [Pcf.c_I])))
        as [_ Hp]
  end.
  specialize (Hp _ _ Hc).
  match type of Hp with
  | fst ?x = fst ?y => destruct x as [[vs|e] f1]; destruct y as [[vs'|e'] f1']
  end; simpl in Hp; try discriminate; inversion Hp; subst; try reflexivity.
  destruct vs' as [|v [|w vs']]; reflexivity.
Qed.

(** A code point that is not cached, whose index, bitmap offset and
    metrics can be read, whose bitmap the host can make and fill from the
    bitmap data at that offset: the load returns. *)
Lemma load_one_returns (s0 s : font) (code_point idx off : Z)
      (m : Pcf.MetricsEntry) (b : Bitmap) :
  cache_ok s0 s ->
  OrderedDict.contains Z.eq_dec code_point (LruCache._cache (PcfFont._cache s))
  = false ->
  fst (PcfFont._get_glyph_index code_point s0) = Ok idx ->
  0 <= idx ->
  fst (PcfFont._get_metrics idx s0) = Ok m ->
  fst (PcfFont._get_glyph_bitmap_offset idx s0) = Ok off ->
  DisplayioBitmap (Pcf.right_side_bearing m - Pcf.left_side_bearing m)
                  (Pcf.character_ascent m + Pcf.character_descent m) 2
  = Ok b ->
  0 <= PcfFont._bitmap_data_location s0 + off ->
  (forall f,
      Pcf.content f = Pcf.content (PcfFont._file s0) ->
      Pcf.pos f = PcfFont._bitmap_data_location s0 + off ->
      fst (_bitmap_readinto 1 (PcfFont._glyph_padding s0) true (b, f)) = Ok tt) ->
  fst (load_glyphs (PcfFont.CodePoint code_point) s) = Ok tt.
Proof.
  intros Hs Hc Hidx Hpos Hmet Hoff Hb Hseek Hhost.
  rewrite load_glyphs_unfold. cbv zeta.
  cbn [filter]. rewrite Hc.
  cbn [negb PcfFont.sorted fold_right PcfFont.insert_sorted PcfFont.collect_indices].
  (* the index *)
  unfold bind at 1. unfold bind at 1.
  destruct (index_step s code_point) as [f1 [E1 C1]].
  rewrite E1, <- (index_pure s0 s code_point (proj1 Hs)), Hidx.
  cbn [ret]. destruct (Z.geb_spec idx 0) as [_|l]; [|lia].
  cbn [OrderedDict.assign map snd OrderedDict.keys fst map_m].
  assert (Hs1 : cache_ok s0 (PcfFont.set_file f1 s))
    by (apply cache_ok_set_file; assumption).
  remember (PcfFont.set_file f1 s) as s1 eqn:Es1. clear E1.
  (* the bitmap offset *)
  unfold bind at 1. unfold bind at 1.
  destruct (offset_step s1 idx) as [f2 [E2 C2]].
  rewrite E2, <- (offset_pure s0 s1 idx (proj1 Hs1)), Hoff.
  cbn [ret]. unfold bind at 1. cbn [ret].
  assert (Hs2 : cache_ok s0 (PcfFont.set_file f2 s1))
    by (apply cache_ok_set_file; assumption).
  remember (PcfFont.set_file f2 s1) as s2 eqn:Es2. clear E2.
  (* the metrics *)
  unfold bind at 1. unfold bind at 1.
  destruct (metrics_step s2 idx) as [f3 [E3 C3]].
  rewrite E3, <- (metrics_pure s0 s2 idx (proj1 Hs2)), Hmet.
  cbn [ret]. unfold bind at 1. cbn [ret].
  assert (Hs3 : cache_ok s0 (PcfFont.set_file f3 s2))
    by (apply cache_ok_set_file; assumption).
  remember (PcfFont.set_file f3 s2) as s3 eqn:Es3. clear E3.
  (* the glyph *)
  unfold bind at 1. cbn [PcfFont.gc_collect ret combine map_m].
  unfold bind at 1. unfold bind at 1.
  unfold PcfFont.create_glyph. unfold bind at 1. rewrite Hb. unfold Pcf.lift.
  unfold bind at 1. unfold PcfFont.alloc at 1.
  unfold bind at 1. unfold PcfFont.alloc at 1.
  unfold bind at 1. unfold PcfFont.on_lru.
  cbn [PcfFont._cache PcfFont.set_heap PcfFont.heap].
  destruct (put_entries (PcfFont._cache s3) code_point
              (Some (length (PcfFont.heap s3 ++ [PcfFont.OBitmap b])))
              (proj1 (proj2 Hs3)))
    as [c' [Ep _]].
  rewrite Ep. cbn [ret]. unfold bind at 1. cbn [ret].
  (* the bitmap *)
  cbn [combine for_each].
  unfold bind at 1. unfold PcfFont.fill_bitmap.
  unfold bind at 1. unfold state. unfold bind at 1.
  unfold PcfFont.on_file, Pcf.seek.
  cbn [PcfFont._bitmap_data_location PcfFont.set_cache PcfFont.set_heap
       PcfFont._file PcfFont.heap PcfFont._glyph_padding].
  destruct Hs3 as [Hsf3 _].
  unfold FontSpec.same_font in Hsf3.
  destruct Hsf3 as [Hc3 [Hpad [_ [_ [_ [_ [_ [_ [Hdl _]]]]]]]]].
  rewrite <- Hdl, <- Hpad.
  destruct (Z.ltb_spec (PcfFont._bitmap_data_location s0 + off) 0) as [l|_]; [lia|].
  unfold PcfFont.readinto.
  cbn [PcfFont.heap PcfFont.set_file PcfFont._file PcfFont.set_cache
       PcfFont.set_heap].
  rewrite nth_error_app1 by (rewrite length_app; simpl; lia).
  rewrite nth_error_app2 by lia. rewrite Nat.sub_diag. cbn [nth_error].
  match goal with
  | |- context [_bitmap_readinto 1 ?p true (b, ?f)] =>
      pose proof (Hhost f (eq_sym Hc3) eq_refl) as Hh;
      destruct (_bitmap_readinto 1 p true (b, f)) as [r [b' f']]
  end.
  simpl in Hh. subst r. reflexivity.
Qed.

Lemma load_cached (s : font) (code_point : Z) :
  OrderedDict.contains Z.eq_dec code_point (LruCache._cache (PcfFont._cache s))
  = true ->
  load_glyphs (PcfFont.CodePoint code_point) s = (Ok tt, s).
Proof.
  intros Hc. rewrite load_glyphs_unfold. cbv zeta. cbn [filter]. rewrite Hc.
  reflexivity.
Qed.

(** C4.  On a font opened with a capacity of at least one, in any state
    reached by calls of [load_glyphs] and [get_glyph], for a code point
    that resolves to a glyph index whose metrics entry is [m]:
    [get_glyph] returns a glyph unless loading that code point raises (a
    failed read or host call), and it does return one when the bitmap
    offset of the glyph can be read and the host can make the bitmap and
    fill it from the bitmap data at that offset; a glyph it returns has
    width [right_side_bearing - left_side_bearing], height [ascent +
    descent], [dx = left_side_bearing], [dy = - descent] and [shift_x =
    character_width]; and a second [get_glyph] of the code point returns
    the same object and leaves the file, its position and its log of
    reads included, and the allocated objects as they were. *)
Theorem get_glyph_of_metrics
        (bytes : list byte) (capacity : Z) (self : font)
        (code_point : Z) (m : Pcf.MetricsEntry) :
  1 <= capacity ->
  reachable bytes capacity self ->
  metrics_of self code_point m ->
  ((exists a self', get_glyph code_point self = (Ok (Some a), self'))
   \/ (exists e,
          fst (load_glyphs (PcfFont.CodePoint code_point) self) = Raise e
          /\ fst (get_glyph code_point self) = Raise e))
  /\ (forall idx off b,
        fst (PcfFont._get_glyph_index code_point self) = Ok idx ->
        fst (PcfFont._get_glyph_bitmap_offset idx self) = Ok off ->
        DisplayioBitmap (Pcf.right_side_bearing m - Pcf.left_side_bearing m)
                        (Pcf.character_ascent m + Pcf.character_descent m) 2
        = Ok b ->
        0 <= PcfFont._bitmap_data_location self + off ->
        (forall f,
            Pcf.content f = Pcf.content (PcfFont._file self) ->
            Pcf.pos f = PcfFont._bitmap_data_location self + off ->
            fst (_bitmap_readinto 1 (PcfFont._glyph_padding self) true (b, f))
            = Ok tt) ->
        exists a self', get_glyph code_point self = (Ok (Some a), self'))
  /\ forall a self',
      get_glyph code_point self = (Ok (Some a), self') ->
      (exists g,
          nth_error (PcfFont.heap self') a = Some (PcfFont.OGlyph g)
          /\ FontSpec.glyph_for m g)
      /\ exists self'',
          get_glyph code_point self' = (Ok (Some a), self'')
          /\ PcfFont._file self'' = PcfFont._file self'
          /\ PcfFont.heap self'' = PcfFont.heap self'.
Proof.
  intros HC Hr Hm.
  destruct (reachable_cache_ok bytes capacity self HC Hr) as [s0 [_ Hs]].
  assert (Hm0 : metrics_of s0 code_point m).
  { apply (metrics_of_same_font self s0); [|exact Hm].
    apply same_font_sym. exact (proj1 Hs). }
  pose proof (get_glyph_outcome s0 self code_point m Hs Hm0) as Hout.
  split; [|split].
  - destruct Hout as [[a [s' [E _]]]|Hraise]; [left; eauto|right; exact Hraise].
  - intros idx off b Hidx Hoff Hb Hseek Hhost.
    destruct Hout as [[a [s' [E _]]]|[e [Hraise _]]]; [eauto|].
    exfalso.
    destruct (OrderedDict.contains Z.eq_dec code_point
                (LruCache._cache (PcfFont._cache self))) eqn:Ec.
    + rewrite (load_cached self code_point Ec) in Hraise. discriminate.
    + pose proof (proj1 Hs) as Hsf.
      destruct Hm0 as [idx0 [Hidx0 [Hpos0 Hmet0]]].
      assert (idx0 = idx).
      { rewrite (index_pure s0 self code_point Hsf), Hidx in Hidx0. congruence. }
      subst idx0.
      rewrite <- (offset_pure s0 self idx Hsf) in Hoff.
      unfold FontSpec.same_font in Hsf.
      destruct Hsf as [Hc0 [Hpad [_ [_ [_ [_ [_ [_ [Hdl _]]]]]]]]].
      rewrite <- Hdl in Hseek.
      assert (Hload : fst (load_glyphs (PcfFont.CodePoint code_point) self) = Ok tt).
      { apply (load_one_returns s0 self code_point idx off m b Hs Ec Hidx0 Hpos0
                 Hmet0 Hoff Hb Hseek).
        intros f Hf Hp. rewrite Hpad. apply Hhost; congruence. }
      rewrite Hload in Hraise. discriminate.
  - intros a self' E.
    destruct Hout as [[a' [s' [E' [Hs' Hl]]]]|[e [_ Hraise]]].
    + rewrite E in E'. inversion E'; subst a' s'. split.
      * destruct Hs' as [_ [_ He]].
        destruct (He code_point (Some a) (lookup_Some_In Z.eq_dec _ _ _ Hl))
          as [a0 [g [m' [Ea [Ha [Hm' Hg]]]]]].
        inversion Ea; subst a0. exists g. split; [exact Ha|].
        rewrite (metrics_of_unique s0 code_point m m' Hm0 Hm'). exact Hg.
      * assert (Hc : OrderedDict.contains Z.eq_dec code_point
                       (LruCache._cache (PcfFont._cache self')) = true).
        { unfold OrderedDict.contains. rewrite Hl. reflexivity. }
        rewrite (get_glyph_hit code_point self' Hc).
        destruct (cached_get s0 self' code_point Hs')
          as [r [s'' [E'' [_ [Hf [Hh [Hhit _]]]]]]].
        specialize (Hhit a Hl). subst r.
        exists s''. auto.
    + rewrite E in Hraise. discriminate.
Qed.

End FacadeFacts.

(** *** The small font, end to end *)

Lemma reader_read_rows (rows : nat) (stride : Z) (width : nat) :
  PcfSpec.reader (RefHost.read_rows rows stride width).
Proof.
  induction rows as [|rows IH]; simpl.
  - apply reader_ret.
  - apply reader_bind; [apply reader_read|].
    intros data. destruct (Z.of_nat (length data) =? stride).
    + apply reader_bind; [exact IH|]. intros rest. apply reader_ret.
    + apply reader_raise.
Qed.

Lemma ref_host_reads_only : FontSpec.reads_only RefHost._bitmap_readinto.
Proof.
  intros bpp es rev b f. unfold RefHost._bitmap_readinto.
  pose proof (proj1 (reader_read_rows (Z.to_nat (RefHost.bm_height b))
                       (Pcf.bytes_per_row (RefHost.bm_width b) es)
                       (Z.to_nat (RefHost.bm_width b))) f) as H.
  destruct (RefHost.read_rows _ _ _ f) as [[rows|e] f']; exact H.
Qed.

Lemma get_glyph_of_metrics_witness :
  1 <= 128
  /\ FontSpec.reachable RefHost.DisplayioBitmap RefHost._bitmap_readinto
                        PcfSpec.sample_font 128 FontSpec.sample_opened
  /\ FontSpec.metrics_of FontSpec.sample_opened 65 PcfSpec.sample_metrics
  /\ exists a self' g,
      PcfFont.get_glyph RefHost.DisplayioBitmap RefHost._bitmap_readinto 65
                        FontSpec.sample_opened
      = (Ok (Some a), self')
      /\ nth_error (PcfFont.heap self') a = Some (PcfFont.OGlyph g)
      /\ (PcfFont.width g, PcfFont.height g, PcfFont.dx g, PcfFont.dy g,
          PcfFont.shift_x g) = (8, 8, 0, -1, 8).
Proof.
  assert (H1 : 1 <= 128) by lia.
  assert (Hr : FontSpec.reachable RefHost.DisplayioBitmap RefHost._bitmap_readinto
                 PcfSpec.sample_font 128 FontSpec.sample_opened)
    by (apply FontSpec.reach_init; exact sample_opened_ok).
  assert (Hm : FontSpec.metrics_of FontSpec.sample_opened 65 PcfSpec.sample_metrics).
  { exists 0. split; [vm_compute; reflexivity|]. split; [lia|].
    vm_compute. reflexivity. }
  split; [exact H1|]. split; [exact Hr|]. split; [exact Hm|].
  destruct (get_glyph_of_metrics RefHost.Bitmap RefHost.DisplayioBitmap
              RefHost._bitmap_readinto ref_host_reads_only
              PcfSpec.sample_font 128 FontSpec.sample_opened 65
              PcfSpec.sample_metrics H1 Hr Hm) as [_ [_ Hpost]].
  assert (E : exists s',
             PcfFont.get_glyph RefHost.DisplayioBitmap RefHost._bitmap_readinto 65
                               FontSpec.sample_opened
             = (Ok (Some 1%nat), s'))
    by (eexists; vm_compute; reflexivity).
  destruct E as [s' E].
  destruct (Hpost 1%nat s' E) as [[g [Hg [Hw [Hh [Hx [Hy Ha]]]]]] _].
  exists 1%nat, s', g. split; [exact E|]. split; [exact Hg|].
  rewrite Hw, Hh, Hx, Hy, Ha. reflexivity.
Defined.

(** The font with one glyph at [0x41], metrics [(0, 8, 8, 7, 1)] and an 8
    by 8 bitmap of zeros: [get_glyph(0x41)] returns a glyph with width 8,
    height 8, [dx] 0, [dy] -1 and [shift_x] 8 on a bitmap of 8 rows of 8
    unset pixels; a second call returns the same object without touching
    the file; [get_glyph(0x42)], in range with the sentinel index, and
    [get_glyph(0x43)], out of range, return [None]. *)
Example sample_font_end_to_end :
  let get_glyph :=
    PcfFont.get_glyph RefHost.DisplayioBitmap RefHost._bitmap_readinto in
  let first := get_glyph 65 FontSpec.sample_opened in
  let second := get_glyph 65 (snd first) in
  fst first = Ok (Some 1%nat)
  /\ nth_error (PcfFont.heap (snd first)) 1
     = Some (PcfFont.OGlyph (PcfFont.mkGlyph 0 0 8 8 0 (-1) 8 0))
  /\ nth_error (PcfFont.heap (snd first)) 0
     = Some (PcfFont.OBitmap
               (RefHost.mkBitmap 8 8 2 (repeat (repeat false 8) 8)))
  /\ fst second = Ok (Some 1%nat)
  /\ PcfFont._file (snd second) = PcfFont._file (snd first)
  /\ PcfFont.heap (snd second) = PcfFont.heap (snd first)
  /\ fst (get_glyph 66 FontSpec.sample_opened) = Ok None
  /\ get_glyph 67 FontSpec.sample_opened = (Ok None, FontSpec.sample_opened).
Proof. vm_compute. repeat split. Qed.

(** * Further properties of the cache *)

Section CacheMore.
Context {K V : Type}.
Variable K_eq_dec : forall x y : K, {x = y} + {x <> y}.

Local Abbreviation dict := (OrderedDict.t K (option V)).
Local Abbreviation keys := (@OrderedDict.keys K (option V)).
Local Abbreviation lookup := (OrderedDict.lookup K_eq_dec).
Local Abbreviation remove := (OrderedDict.remove K_eq_dec).
Local Abbreviation cache := (LruCache.t K V).
Local Abbreviation get := (LruCache.get K_eq_dec).
Local Abbreviation put := (LruCache.put K_eq_dec).
Local Abbreviation contains := (LruCache.contains K_eq_dec).
Local Abbreviation within := (@LruCacheSpec.within K V).

Lemma lookup_remove_other (k k' : K) (d : dict) :
  k' <> k -> lookup k' (remove k d) = lookup k' d.
Proof.
  intros Hn. induction d as [|[k0 v0] d IH]; simpl; auto.
  destruct (K_eq_dec k k0) as [e|n]; simpl.
  - subst. destruct (K_eq_dec k' k0); [contradiction|exact IH].
  - destruct (K_eq_dec k' k0); [reflexivity|exact IH].
Qed.

Lemma lookup_app_other (k' : K) (d : dict) (kl : K) (vl : option V) :
  k' <> kl -> lookup k' (d ++ [(kl, vl)]) = lookup k' d.
Proof.
  intros Hn. induction d as [|[k0 v0] d IH]; simpl.
  - destruct (K_eq_dec k' kl); [contradiction|reflexivity].
  - destruct (K_eq_dec k' k0); [reflexivity|exact IH].
Qed.

Lemma remove_remove (k : K) (d : dict) : remove k (remove k d) = remove k d.
Proof. apply remove_absent. apply remove_not_In. Qed.

(** X1.  On a cache of capacity at least one that holds no more than its
    capacity, [put(k, v)] returns, after it [contains(k)] is true, and
    [get(k)] returns [v] and leaves the cache exactly as the [put] left
    it (the key is already at the front). *)
Theorem put_then_get (c : cache) (k : K) (v : option V) :
  within c ->
  exists c1,
    put k v c = (Ok tt, c1)
    /\ contains k c1 = (Ok true, c1)
    /\ get k c1 = (Ok v, c1)
    /\ hd_error (LruCache._cache c1) = Some (k, v).
Proof.
  intros Hw. destruct (apply_put K_eq_dec c k v Hw) as [c1 [E [Hcap [_ Hd]]]].
  exists c1. simpl in E. split; [exact E|].
  assert (Hshape : exists rest, LruCache._cache c1 = (k, v) :: remove k rest).
  { destruct Hd as [[_ Ed]|[_ [d0 [last [_ Ed]]]]]; eauto. }
  destruct Hshape as [rest Ec]. destruct c1 as [d1 C1]. simpl in Ec. subst d1.
  split; [|split].
  - rewrite contains_pure. simpl. unfold OrderedDict.contains. simpl.
    destruct (K_eq_dec k k); [reflexivity|congruence].
  - destruct v as [x|].
    + rewrite (get_object K_eq_dec _ C1 k x)
        by (simpl; destruct (K_eq_dec k k); congruence).
      simpl. destruct (K_eq_dec k k); [|congruence].
      rewrite remove_remove. reflexivity.
    + apply get_nothing. right. simpl.
      destruct (K_eq_dec k k); congruence.
  - reflexivity.
Qed.

(** X2.  [put(k, v)] leaves every other key as it was, but for the key
    at the back of a cache at capacity: below capacity every other key
    keeps its value; at capacity every other key than the one at the back
    does. *)
Theorem put_keeps_other_keys (c : cache) (k : K) (v : option V) :
  within c ->
  exists c',
    put k v c = (Ok tt, c')
    /\ (Z.of_nat (length (LruCache._cache c)) < LruCache._capacity c ->
        forall k', k' <> k ->
                   lookup k' (LruCache._cache c') = lookup k' (LruCache._cache c))
    /\ (Z.of_nat (length (LruCache._cache c)) = LruCache._capacity c ->
        exists front kl vl,
          LruCache._cache c = front ++ [(kl, vl)]
          /\ forall k', k' <> k -> k' <> kl ->
                        lookup k' (LruCache._cache c')
                        = lookup k' (LruCache._cache c)).
Proof.
  intros Hw. destruct (apply_put K_eq_dec c k v Hw) as [c' [E [Hcap [_ Hd]]]].
  exists c'. simpl in E. split; [exact E|]. split.
  - intros Hlt k' Hn.
    destruct Hd as [[_ Ed]|[Heq _]]; [|lia].
    rewrite Ed. simpl. destruct (K_eq_dec k' k); [contradiction|].
    apply lookup_remove_other. exact Hn.
  - intros Heq.
    destruct Hd as [[Hlt _]|[_ [d0 [[kl vl] [Ec Ed]]]]]; [lia|].
    exists d0, kl, vl. split; [exact Ec|].
    intros k' Hn Hl. rewrite Ed, Ec. simpl.
    destruct (K_eq_dec k' k); [contradiction|].
    rewrite lookup_remove_other by exact Hn.
    rewrite lookup_app_other by exact Hl. reflexivity.
Qed.

(** X3.  A cache of capacity zero or less cannot take an entry: on the
    empty cache every [put] raises KeyError (from [popitem] on the empty
    dictionary) and leaves the cache empty, and so does any sequence of
    [put] calls that is not empty. *)
Theorem put_without_capacity (C : Z) (k : K) (v : option V)
        (more : list (K * option V)) :
  C <= 0 ->
  put k v (LruCache.init C) = (Raise KeyError, LruCache.init C)
  /\ LruCacheSpec.put_all K_eq_dec ((k, v) :: more) (LruCache.init C)
     = (Raise KeyError, LruCache.init C).
Proof.
  intros HC.
  assert (E : put k v (LruCache.init C) = (Raise KeyError, LruCache.init C)).
  { unfold LruCache.put, bind, state, when, LruCache.on_cache. simpl.
    unfold OrderedDict.len. simpl.
    destruct (Z.geb_spec 0 C) as [_|l]; [reflexivity|lia]. }
  split; [exact E|].
  unfold LruCacheSpec.put_all. simpl. unfold bind at 1. simpl. rewrite E.
  reflexivity.
Qed.

End CacheMore.

Lemma put_then_get_witness :
  LruCacheSpec.within CacheSamples.full_pair
  /\ exists c1,
      LruCache.put Z.eq_dec 3 (Some 30) CacheSamples.full_pair = (Ok tt, c1)
      /\ LruCache.get Z.eq_dec 3 c1 = (Ok (Some 30), c1).
Proof.
  assert (Hw : LruCacheSpec.within CacheSamples.full_pair)
    by (split; simpl; lia).
  split; [exact Hw|].
  destruct (put_then_get Z.eq_dec CacheSamples.full_pair 3 (Some 30) Hw)
    as [c1 [E [_ [G _]]]].
  exists c1. split; assumption.
Defined.

Lemma put_keeps_other_keys_witness :
  LruCacheSpec.within CacheSamples.full_pair
  /\ exists c',
      LruCache.put Z.eq_dec 3 (Some 30) CacheSamples.full_pair = (Ok tt, c')
      /\ OrderedDict.lookup Z.eq_dec 1 (LruCache._cache c') = Some (Some 10).
Proof.
  assert (Hw : LruCacheSpec.within CacheSamples.full_pair)
    by (split; simpl; lia).
  split; [exact Hw|].
  destruct (put_keeps_other_keys Z.eq_dec CacheSamples.full_pair 3 (Some 30) Hw)
    as [c' [E [_ Hfull]]].
  exists c'. split; [exact E|].
  destruct (Hfull eq_refl) as [front [kl [vl [Ec Hk]]]].
  assert (Hkl : kl = 2).
  { change (LruCache._cache CacheSamples.full_pair)
      with ([(1, Some 10)] ++ [(2, Some 20)]) in Ec.
    apply app_inj_tail in Ec. destruct Ec as [_ Ekv]. congruence. }
  rewrite Hk; [reflexivity| |]; [discriminate|rewrite Hkl; discriminate].
Defined.

Lemma put_without_capacity_witness :
  0 <= 0
  /\ LruCache.put Z.eq_dec 1 (Some 10) (LruCache.init (V := Z) 0)
     = (Raise KeyError, LruCache.init 0).
Proof.
  split; [lia|].
  apply (put_without_capacity Z.eq_dec 0 1 (Some 10) []). lia.
Defined.

(** * Further properties of the decoders *)

Lemma byte_value_bound (b : byte) : 0 <= Pcf.byte_value b < 256.
Proof.
  unfold Pcf.byte_value. pose proof (Byte.to_N_bounded b). lia.
Qed.

Lemma uint_be_acc (bs : list byte) (acc : Z) :
  0 <= acc ->
  0 <= fold_left (fun a b => a * 256 + Pcf.byte_value b) bs acc
  < (acc + 1) * 256 ^ Z.of_nat (length bs).
Proof.
  revert acc. induction bs as [|b bs IH]; intros acc Hacc.
  - simpl. lia.
  - cbn [fold_left length]. pose proof (byte_value_bound b) as Hb.
    specialize (IH (acc * 256 + Pcf.byte_value b) ltac:(lia)).
    rewrite Nat2Z.inj_succ, Z.pow_succ_r by lia.
    assert (0 < 256 ^ Z.of_nat (length bs)) by (apply Z.pow_pos_nonneg; lia).
    nia.
Qed.

Lemma uint_be_bound (bs : list byte) :
  0 <= Pcf.uint_be bs < 256 ^ Z.of_nat (length bs).
Proof.
  unfold Pcf.uint_be. pose proof (uint_be_acc bs 0 ltac:(lia)). lia.
Qed.

Lemma decode_in_range (order : Pcf.byte_order) (c : Pcf.code) (bs : list byte) :
  length bs = Pcf.code_size c ->
  PcfSpec.in_range c (Pcf.decode order c bs).
Proof.
  intros Hlen. unfold Pcf.decode.
  set (u := Pcf.uint_be match order with
                        | Pcf.BigEndian => bs
                        | Pcf.LittleEndian => rev bs
                        end).
  assert (Hu : 0 <= u < 256 ^ Z.of_nat (Pcf.code_size c)).
  { unfold u. rewrite <- Hlen. destruct order.
    - rewrite <- (length_rev bs). apply uint_be_bound.
    - apply uint_be_bound. }
  clearbody u. clear Hlen.
  destruct c; cbv [Pcf.code_size Pcf.code_signed PcfSpec.in_range andb] in *;
    repeat match goal with
           | H : context [256 ^ ?n] |- _ =>
               let v := eval vm_compute in (256 ^ n) in
               change (256 ^ n) with v in H
           | |- context [2 ^ ?n] =>
               let v := eval vm_compute in (2 ^ n) in
               change (2 ^ n) with v
           end;
    try match goal with
        | |- context [?a <=? ?b] => destruct (Z.leb_spec a b)
        end; lia.
Qed.

Lemma unpack_fields_in_range (order : Pcf.byte_order) (codes : list Pcf.code) :
  forall buffer,
    length buffer = fold_right (fun c n => (Pcf.code_size c + n)%nat) 0%nat codes ->
    Forall2 PcfSpec.in_range codes (Pcf.unpack_fields order codes buffer).
Proof.
  induction codes as [|c codes IH]; intros buffer Hlen; simpl.
  - constructor.
  - simpl in Hlen. constructor.
    + apply decode_in_range. rewrite length_firstn. lia.
    + apply IH. rewrite length_skipn. lia.
Qed.

(** X4.  [read_values] returns exactly when the file has the bytes of the
    format left: it then gives one value per code of the format, each in
    the range of its code, and moves the position by the size of the
    format; on a shorter file it raises the [struct] error, the position
    at the end of what it could read. *)
Theorem read_values_outcome (fmt : Pcf.struct_format) (f : Pcf.File) :
  let left_ := Z.of_nat (length (PcfSpec.remaining f)) in
  (Pcf.calcsize fmt <= left_ ->
   exists vs,
     Pcf.read_values fmt f
     = (Ok vs, Pcf.mkFile (Pcf.content f) (Pcf.pos f + Pcf.calcsize fmt)
                          (Pcf.Read (Pcf.calcsize fmt) :: Pcf.log f))
     /\ Forall2 PcfSpec.in_range (snd fmt) vs)
  /\ (left_ < Pcf.calcsize fmt ->
      Pcf.read_values fmt f
      = (Raise StructError,
         Pcf.mkFile (Pcf.content f) (Pcf.pos f + left_)
                    (Pcf.Read (Pcf.calcsize fmt) :: Pcf.log f))).
Proof.
  intros left_. unfold Pcf.read_values, bind, Pcf.read, Pcf.lift, Pcf.unpack.
  fold (PcfSpec.remaining f).
  assert (Hsize : 0 <= Pcf.calcsize fmt) by (unfold Pcf.calcsize; lia).
  split.
  - intros Hle.
    assert (Hl : Z.of_nat (length (firstn (Z.to_nat (Pcf.calcsize fmt))
                                         (PcfSpec.remaining f)))
                 = Pcf.calcsize fmt)
      by (rewrite length_firstn; unfold left_ in Hle; lia).
    rewrite Hl, Z.eqb_refl.
    eexists. split; [reflexivity|].
    apply unpack_fields_in_range.
    unfold Pcf.calcsize in Hl at 2. apply Nat2Z.inj. exact Hl.
  - intros Hlt.
    assert (Hl : firstn (Z.to_nat (Pcf.calcsize fmt)) (PcfSpec.remaining f)
                 = PcfSpec.remaining f)
      by (apply firstn_all2; unfold left_ in Hlt; lia).
    rewrite Hl. fold left_.
    destruct (Z.eqb_spec left_ (Pcf.calcsize fmt)) as [e|n]; [lia|reflexivity].
Qed.

Lemma read_values_outcome_witness :
  Pcf.calcsize (Pcf.BigEndian, [Pcf.c_h; Pcf.c_B])
  <= Z.of_nat (length (PcfSpec.remaining (Pcf.mkFile [xff; xfe; x07; x00] 1 [])))
  /\ fst (Pcf.read_values (Pcf.BigEndian, [Pcf.c_h; Pcf.c_B])
                          (Pcf.mkFile [xff; xfe; x07; x00] 1 []))
     = Ok [-505; 0].
Proof.
  assert (H : Pcf.calcsize (Pcf.BigEndian, [Pcf.c_h; Pcf.c_B])
              <= Z.of_nat (length (PcfSpec.remaining
                                     (Pcf.mkFile [xff; xfe; x07; x00] 1 []))))
    by (vm_compute; discriminate).
  split; [exact H|].
  destruct (proj1 (read_values_outcome (Pcf.BigEndian, [Pcf.c_h; Pcf.c_B])
                     (Pcf.mkFile [xff; xfe; x07; x00] 1 [])) H) as [vs [E _]].
  rewrite E. vm_compute in E. inversion E. reflexivity.
Defined.

Lemma decode_be16_signed (x : Z) :
  -32768 <= x < 32768 ->
  Pcf.decode Pcf.BigEndian Pcf.c_h (PcfSpec.be16 x) = x.
Proof.
  intros Hx. unfold Pcf.decode, PcfSpec.be16, Pcf.uint_be. simpl.
  rewrite !byte_of_value_mod.
  match goal with
  | |- context [?a <=? ?b] => destruct (Z.leb_spec a b)
  end; Z.div_mod_to_equations; lia.
Qed.

Lemma decode_be16_unsigned (x : Z) :
  0 <= x < 65536 ->
  Pcf.decode Pcf.BigEndian Pcf.c_H (PcfSpec.be16 x) = x.
Proof.
  intros Hx. unfold Pcf.decode, PcfSpec.be16, Pcf.uint_be. simpl.
  rewrite !byte_of_value_mod. Z.div_mod_to_equations. lia.
Qed.

(** The twelve bytes of a standard record, decoded where they lie. *)
Lemma standard_metrics_at (m : Pcf.MetricsEntry) (pre post : list byte)
      (log : list Pcf.io_event) :
  -32768 <= Pcf.left_side_bearing m < 32768 ->
  -32768 <= Pcf.right_side_bearing m < 32768 ->
  -32768 <= Pcf.character_width m < 32768 ->
  -32768 <= Pcf.character_ascent m < 32768 ->
  -32768 <= Pcf.character_descent m < 32768 ->
  0 <= Pcf.character_attributes m < 65536 ->
  Pcf.read_metrics_entry_standard
    (Pcf.mkFile (pre ++ PcfSpec.standard_bytes m ++ post) (Z.of_nat (length pre)) log)
  = (Ok m,
     Pcf.mkFile (pre ++ PcfSpec.standard_bytes m ++ post)
                (Z.of_nat (length pre) + 12) (Pcf.Read 12 :: log)).
Proof.
  intros H1 H2 H3 H4 H5 H6.
  unfold Pcf.read_metrics_entry_standard, Pcf.read_values, bind.
  change (Pcf.calcsize
            (Pcf.BigEndian, [Pcf.c_h; Pcf.c_h; Pcf.c_h; Pcf.c_h; Pcf.c_h; Pcf.c_H]))
    with (Z.of_nat (length (PcfSpec.standard_bytes m))).
  rewrite read_at.
  unfold Pcf.lift, Pcf.unpack.
  change (Z.of_nat (length (PcfSpec.standard_bytes m))
          =? Pcf.calcsize
               (Pcf.BigEndian, [Pcf.c_h; Pcf.c_h; Pcf.c_h; Pcf.c_h; Pcf.c_h; Pcf.c_H]))
    with true.
  cbv iota.
  change (Pcf.unpack_fields
            (fst (Pcf.BigEndian, [Pcf.c_h; Pcf.c_h; Pcf.c_h; Pcf.c_h; Pcf.c_h; Pcf.c_H]))
            (snd (Pcf.BigEndian, [Pcf.c_h; Pcf.c_h; Pcf.c_h; Pcf.c_h; Pcf.c_h; Pcf.c_H]))
            (PcfSpec.standard_bytes m))
    with [Pcf.decode Pcf.BigEndian Pcf.c_h (PcfSpec.be16 (Pcf.left_side_bearing m));
          Pcf.decode Pcf.BigEndian Pcf.c_h (PcfSpec.be16 (Pcf.right_side_bearing m));
          Pcf.decode Pcf.BigEndian Pcf.c_h (PcfSpec.be16 (Pcf.character_width m));
          Pcf.decode Pcf.BigEndian Pcf.c_h (PcfSpec.be16 (Pcf.character_ascent m));
          Pcf.decode Pcf.BigEndian Pcf.c_h (PcfSpec.be16 (Pcf.character_descent m));
          Pcf.decode Pcf.BigEndian Pcf.c_H
                     (PcfSpec.be16 (Pcf.character_attributes m))].
  rewrite !decode_be16_signed, decode_be16_unsigned by assumption.
  destruct m. reflexivity.
Qed.

(** X5.  Round trip of the standard metrics record: for every entry whose
    five numeric fields fit in a signed 16-bit integer and whose
    attributes fit in an unsigned one, the standard decoder, reading the
    twelve bytes that hold the six fields most significant byte first
    (negative fields in two's complement), returns the entry, attributes
    included, and moves the position by 12. *)
Theorem standard_metrics_round_trip
        (m : Pcf.MetricsEntry) (pre post : list byte) (log : list Pcf.io_event) :
  -32768 <= Pcf.left_side_bearing m < 32768 ->
  -32768 <= Pcf.right_side_bearing m < 32768 ->
  -32768 <= Pcf.character_width m < 32768 ->
  -32768 <= Pcf.character_ascent m < 32768 ->
  -32768 <= Pcf.character_descent m < 32768 ->
  0 <= Pcf.character_attributes m < 65536 ->
  Pcf.read_metrics_entry_standard
    (Pcf.mkFile (pre ++ PcfSpec.standard_bytes m ++ post) (Z.of_nat (length pre)) log)
  = (Ok m,
     Pcf.mkFile (pre ++ PcfSpec.standard_bytes m ++ post)
                (Z.of_nat (length pre) + 12) (Pcf.Read 12 :: log)).
Proof. apply standard_metrics_at. Qed.

Lemma standard_metrics_round_trip_witness :
  -32768 <= -3 < 32768 /\ 0 <= 513 < 65536
  /\ fst (Pcf.read_metrics_entry_standard
            (Pcf.mkFile ([x00; x00] ++ PcfSpec.standard_bytes
                                         (Pcf.mkMetricsEntry (-3) 8 8 7 (-1) 513)
                                    ++ [x00])
                        (Z.of_nat (length [x00; x00])) []))
     = Ok (Pcf.mkMetricsEntry (-3) 8 8 7 (-1) 513).
Proof.
  split; [lia|]. split; [lia|].
  rewrite (standard_metrics_round_trip (Pcf.mkMetricsEntry (-3) 8 8 7 (-1) 513)
             [x00; x00] [x00] []); simpl; try lia.
  reflexivity.
Defined.

(** X6.  For every positive alignment the row stride is the least
    multiple of the alignment whose bits hold the width: it is a multiple
    of [bytes_align], its bits are at least [width], and one alignment
    unit less would not do. *)
Theorem bytes_per_row_least_multiple (width bytes_align : Z) :
  0 < bytes_align ->
  Pcf.bytes_per_row width bytes_align mod bytes_align = 0
  /\ width <= Pcf.bytes_per_row width bytes_align * 8
  /\ (Pcf.bytes_per_row width bytes_align - bytes_align) * 8 < width.
Proof.
  intros Ha. unfold Pcf.bytes_per_row.
  pose proof (Z.div_mod (width + bytes_align * 8 - 1) (bytes_align * 8)
                        ltac:(lia)) as E.
  pose proof (Z.mod_pos_bound (width + bytes_align * 8 - 1) (bytes_align * 8)
                              ltac:(lia)) as R.
  split; [apply Z.mod_mul; lia|]. split; nia.
Qed.

Lemma bytes_per_row_least_multiple_witness :
  0 < 4
  /\ Pcf.bytes_per_row 33 4 mod 4 = 0
  /\ 33 <= Pcf.bytes_per_row 33 4 * 8
  /\ (Pcf.bytes_per_row 33 4 - 4) * 8 < 33.
Proof.
  split; [lia|]. apply (bytes_per_row_least_multiple 33 4). lia.
Defined.

(** * Further properties of opening a font *)

(** X7.  A file that does not start with the four magic bytes, a file
    shorter than four bytes included, is refused with the ValueError
    "Magic mismatch, unknown font file" after one read of four bytes. *)
Theorem init_magic_mismatch (Bitmap : Type) (bytes : list byte) (capacity : Z) :
  firstn 4 bytes <> PcfSpec.magic ->
  PcfFont.__init__ Bitmap bytes capacity
  = (Raise (ValueError "Magic mismatch, unknown font file"),
     Pcf.mkFile bytes (Z.of_nat (length (firstn 4 bytes)))
                [Pcf.Read 4; Pcf.Seek 0]).
Proof.
  intros Hm. unfold PcfFont.__init__, Pcf.open.
  unfold bind at 1. unfold Pcf.seek at 1.
  cbn [Z.ltb Z.compare Pcf.content Pcf.log].
  unfold bind at 1. unfold Pcf.read at 1.
  cbn [Pcf.pos Pcf.content Pcf.log].
  change (Z.to_nat 0) with 0%nat. change (Z.to_nat 4) with 4%nat.
  cbn [skipn]. unfold PcfFont.bytes_eqb.
  destruct (list_eq_dec byte_eq_dec [x01; x66; x63; x70] (firstn 4 bytes)) as [e|n].
  - exfalso. apply Hm. symmetry. exact e.
  - reflexivity.
Qed.

Lemma init_magic_mismatch_witness :
  firstn 4 [x01; x66; x63] <> PcfSpec.magic
  /\ fst (PcfFont.__init__ RefHost.Bitmap [x01; x66; x63] 128)
     = Raise (ValueError "Magic mismatch, unknown font file").
Proof.
  assert (H : firstn 4 [x01; x66; x63] <> PcfSpec.magic) by discriminate.
  split; [exact H|].
  rewrite (init_magic_mismatch RefHost.Bitmap [x01; x66; x63] 128 H). reflexivity.
Defined.

(** Through the header of a file built from a table of contents: the
    goal is left at the test of the number of tables. *)
Ltac init_header toc body Hok Hlen :=
  unfold PcfFont.__init__, PcfSpec.font_file, Pcf.open;
  unfold bind at 1; unfold Pcf.seek at 1;
  cbn [Z.ltb Z.compare Pcf.content Pcf.log];
  unfold bind at 1;
  match goal with
  | |- context [Pcf.read 4 ?f] =>
      rewrite (read_at [] PcfSpec.magic
                 (PcfSpec.le32 (Z.of_nat (length toc))
                  ++ flat_map PcfSpec.toc_entry_bytes toc ++ body)
                 [Pcf.Seek 0]
               : Pcf.read 4 f = _)
  end;
  change (negb (PcfFont.bytes_eqb [x01; x66; x63; x70] PcfSpec.magic)) with false;
  cbv iota;
  unfold bind at 1;
  match goal with
  | |- context [Pcf.read_values (Pcf.LittleEndian, [Pcf.c_I]) ?f] =>
      rewrite (read_le32 (Z.of_nat (length toc)) PcfSpec.magic
                 (flat_map PcfSpec.toc_entry_bytes toc ++ body)
                 [Pcf.Read 4; Pcf.Seek 0]
                 ltac:(unfold PcfSpec.u32; lia)
               : Pcf.read_values _ f = _)
  end;
  unfold bind at 1; unfold Pcf.tuple1 at 1, ret at 1;
  unfold bind at 1; rewrite Nat2Z.id;
  let f' := fresh "f'" in
  let E := fresh "E" in
  destruct (read_toc_retains toc Hok
              (PcfSpec.magic ++ PcfSpec.le32 (Z.of_nat (length toc))) body
              [Pcf.Read 4; Pcf.Read 4; Pcf.Seek 0] [])
    as [f' E];
  match goal with
  | |- context [PcfFont.read_toc (length toc) [] ?f] =>
      rewrite (E : PcfFont.read_toc (length toc) [] f = _)
  end;
  unfold OrderedDict.len; rewrite retained_count.

Lemma check_formats_pass (entries : list Pcf.TableTocEntry) (f : Pcf.File) :
  Forall PcfSpec.msb_first entries ->
  for_each entries PcfFont.check_format f = (Ok tt, f).
Proof.
  induction 1 as [|e entries He Hes IH]; [reflexivity|].
  simpl. unfold bind. unfold PcfFont.check_format at 1.
  unfold PcfSpec.msb_first in He. rewrite He, Z.eqb_refl. simpl. exact IH.
Qed.

Lemma check_formats_fail (entries : list Pcf.TableTocEntry) (f : Pcf.File) :
  Exists (fun e => ~ PcfSpec.msb_first e) entries ->
  for_each entries PcfFont.check_format f
  = (Raise (ValueError "Only support MSByte data and MSBit glyph"), f).
Proof.
  induction entries as [|e entries IH]; intros H; [inversion H|].
  simpl. unfold bind. unfold PcfFont.check_format at 1.
  destruct (Z.eqb_spec (Z.land (Pcf.format e)
                               (Z.lor Pcf._PCF_BYTE_MASK Pcf._PCF_BIT_MASK))
                       (Z.lor Pcf._PCF_BYTE_MASK Pcf._PCF_BIT_MASK)) as [g|b].
  - simpl. apply IH. inversion H as [? ? Hb|? ? Hr]; subst; [contradiction|exact Hr].
  - reflexivity.
Qed.

(** X8.  A font file whose table of contents names at least four
    required kinds, one of the retained tables not declaring most
    significant byte and bit first, is refused with the ValueError "Only
    support MSByte data and MSBit glyph", whichever table it is. *)
Theorem init_rejects_lsb_tables
        (Bitmap : Type) (toc : list PcfSpec.toc_entry) (body : list byte)
        (capacity : Z) :
  PcfSpec.toc_ok toc ->
  (4 <= length (PcfSpec.kinds toc))%nat ->
  Exists (fun e => ~ PcfSpec.msb_first e) (map snd (PcfSpec.retained toc [])) ->
  fst (PcfFont.__init__ Bitmap (PcfSpec.font_file toc body) capacity)
  = Raise (ValueError "Only support MSByte data and MSBit glyph").
Proof.
  intros [Hok Hlen] Hfour Hbad.
  init_header toc body Hok Hlen.
  destruct (Z.ltb_spec (Z.of_nat (length (PcfSpec.kinds toc))) 4) as [l|_]; [lia|].
  unfold bind at 1. rewrite (check_formats_fail _ _ Hbad). reflexivity.
Qed.

(** X9.  A font file with at least four required kinds, all declared most
    significant byte and bit first, whose bitmaps table has a scan unit
    other than one byte, is refused with the ValueError "Only support
    bits stored in bytes". *)
Theorem init_rejects_wide_scan_unit
        (Bitmap : Type) (toc : list PcfSpec.toc_entry) (body : list byte)
        (capacity : Z) (bitmaps : Pcf.TableTocEntry) :
  PcfSpec.toc_ok toc ->
  (4 <= length (PcfSpec.kinds toc))%nat ->
  Forall PcfSpec.msb_first (map snd (PcfSpec.retained toc [])) ->
  OrderedDict.lookup Z.eq_dec Pcf._PCF_TABLETYPE_BITMAPS (PcfSpec.retained toc [])
  = Some bitmaps ->
  Z.land (Pcf.format bitmaps) Pcf._PCF_SCAN_UNIT_MASK <> 0 ->
  fst (PcfFont.__init__ Bitmap (PcfSpec.font_file toc body) capacity)
  = Raise (ValueError "Only support bits stored in bytes").
Proof.
  intros [Hok Hlen] Hfour Hgood Hb Hscan.
  init_header toc body Hok Hlen.
  destruct (Z.ltb_spec (Z.of_nat (length (PcfSpec.kinds toc))) 4) as [l|_]; [lia|].
  unfold bind at 1. rewrite (check_formats_pass _ _ Hgood).
  unfold bind at 1. unfold PcfFont.getitem at 1. rewrite Hb. cbn [ret].
  destruct (Z.eqb_spec (Z.land (Pcf.format bitmaps) Pcf._PCF_SCAN_UNIT_MASK) 0)
    as [e|n]; [contradiction|reflexivity].
Qed.

(** X10.  A font file with at least four required kinds, all declared
    most significant byte and bit first, and no bitmaps table, is not
    refused with a ValueError: [tables[_PCF_TABLETYPE_BITMAPS]] raises
    KeyError. *)
Theorem init_missing_bitmaps_key_error
        (Bitmap : Type) (toc : list PcfSpec.toc_entry) (body : list byte)
        (capacity : Z) :
  PcfSpec.toc_ok toc ->
  (4 <= length (PcfSpec.kinds toc))%nat ->
  Forall PcfSpec.msb_first (map snd (PcfSpec.retained toc [])) ->
  ~ PcfSpec.has Pcf._PCF_TABLETYPE_BITMAPS toc ->
  fst (PcfFont.__init__ Bitmap (PcfSpec.font_file toc body) capacity)
  = Raise KeyError.
Proof.
  intros [Hok Hlen] Hfour Hgood Hno.
  assert (Hl : OrderedDict.lookup Z.eq_dec Pcf._PCF_TABLETYPE_BITMAPS
                                  (PcfSpec.retained toc []) = None).
  { apply lookup_None. intros Hin.
    destruct (retained_keys toc []) as [_ Hk]; [constructor|].
    apply Hk in Hin. destruct Hin as [[]|Hin].
    apply filter_In in Hin. apply Hno. exact (proj1 Hin). }
  init_header toc body Hok Hlen.
  destruct (Z.ltb_spec (Z.of_nat (length (PcfSpec.kinds toc))) 4) as [l|_]; [lia|].
  unfold bind at 1. rewrite (check_formats_pass _ _ Hgood).
  unfold bind at 1. unfold PcfFont.getitem at 1. rewrite Hl. reflexivity.
Qed.

Ltac toc_ok_by_evaluation :=
  split; [|simpl; lia];
  repeat constructor; unfold PcfSpec.u32; vm_compute; intuition discriminate.

Ltac all_msb_first :=
  vm_compute; repeat (constructor; [reflexivity|]); constructor.

Lemma init_rejects_lsb_tables_witness :
  PcfSpec.toc_ok PcfSpec.lsb_metrics_toc
  /\ (4 <= length (PcfSpec.kinds PcfSpec.lsb_metrics_toc))%nat
  /\ fst (PcfFont.__init__ RefHost.Bitmap
            (PcfSpec.font_file PcfSpec.lsb_metrics_toc PcfSpec.sample_body) 128)
     = Raise (ValueError "Only support MSByte data and MSBit glyph").
Proof.
  assert (Hok : PcfSpec.toc_ok PcfSpec.lsb_metrics_toc) by toc_ok_by_evaluation.
  assert (Hfour : (4 <= length (PcfSpec.kinds PcfSpec.lsb_metrics_toc))%nat)
    by (vm_compute; lia).
  split; [exact Hok|]. split; [exact Hfour|].
  apply (init_rejects_lsb_tables RefHost.Bitmap PcfSpec.lsb_metrics_toc
           PcfSpec.sample_body 128 Hok Hfour).
  apply Exists_cons_tl. apply Exists_cons_hd.
  unfold PcfSpec.msb_first. vm_compute. discriminate.
Defined.

Lemma init_rejects_wide_scan_unit_witness :
  PcfSpec.toc_ok PcfSpec.wide_scan_toc
  /\ (4 <= length (PcfSpec.kinds PcfSpec.wide_scan_toc))%nat
  /\ fst (PcfFont.__init__ RefHost.Bitmap
            (PcfSpec.font_file PcfSpec.wide_scan_toc PcfSpec.sample_body) 128)
     = Raise (ValueError "Only support bits stored in bytes").
Proof.
  assert (Hok : PcfSpec.toc_ok PcfSpec.wide_scan_toc) by toc_ok_by_evaluation.
  assert (Hfour : (4 <= length (PcfSpec.kinds PcfSpec.wide_scan_toc))%nat)
    by (vm_compute; lia).
  split; [exact Hok|]. split; [exact Hfour|].
  apply (init_rejects_wide_scan_unit RefHost.Bitmap PcfSpec.wide_scan_toc
           PcfSpec.sample_body 128 (Pcf.mkTableTocEntry 28 36 148) Hok Hfour).
  - all_msb_first.
  - vm_compute. reflexivity.
  - vm_compute. discriminate.
Defined.

Lemma init_missing_bitmaps_key_error_witness :
  PcfSpec.toc_ok PcfSpec.no_bitmaps_toc
  /\ (4 <= length (PcfSpec.kinds PcfSpec.no_bitmaps_toc))%nat
  /\ ~ PcfSpec.has Pcf._PCF_TABLETYPE_BITMAPS PcfSpec.no_bitmaps_toc
  /\ fst (PcfFont.__init__ RefHost.Bitmap
            (PcfSpec.font_file PcfSpec.no_bitmaps_toc PcfSpec.sample_body) 128)
     = Raise KeyError.
Proof.
  assert (Hok : PcfSpec.toc_ok PcfSpec.no_bitmaps_toc) by toc_ok_by_evaluation.
  assert (Hfour : (4 <= length (PcfSpec.kinds PcfSpec.no_bitmaps_toc))%nat)
    by (vm_compute; lia).
  assert (Hno : ~ PcfSpec.has Pcf._PCF_TABLETYPE_BITMAPS PcfSpec.no_bitmaps_toc)
    by (unfold PcfSpec.has; vm_compute; intuition discriminate).
  split; [exact Hok|]. split; [exact Hfour|]. split; [exact Hno|].
  apply (init_missing_bitmaps_key_error RefHost.Bitmap PcfSpec.no_bitmaps_toc
           PcfSpec.sample_body 128 Hok Hfour); [all_msb_first|exact Hno].
Defined.

(** *** What an opened font holds *)

Lemma reader_seek (target : Z) : PcfSpec.reader (Pcf.seek target).
Proof.
  split.
  - intros f. unfold Pcf.seek. destruct (target <? 0); reflexivity.
  - intros f f' Hc Hp. unfold Pcf.seek. destruct (target <? 0); simpl; auto.
Qed.

Lemma reader_tuple1 (vs : list Z) : PcfSpec.reader (Pcf.tuple1 vs).
Proof.
  unfold Pcf.tuple1. destruct vs as [|a [|b vs]];
    first [apply reader_ret | apply reader_raise].
Qed.

Lemma reader_tuple2 (vs : list Z) : PcfSpec.reader (Pcf.tuple2 vs).
Proof.
  unfold Pcf.tuple2. destruct vs as [|a [|b [|c vs]]];
    first [apply reader_ret | apply reader_raise].
Qed.

Lemma reader_tuple4 (vs : list Z) : PcfSpec.reader (Pcf.tuple4 vs).
Proof.
  unfold Pcf.tuple4. destruct vs as [|a [|b [|c [|d [|e vs]]]]];
    first [apply reader_ret | apply reader_raise].
Qed.

Lemma reader_tuple5 (vs : list Z) : PcfSpec.reader (Pcf.tuple5 vs).
Proof.
  unfold Pcf.tuple5. destruct vs as [|a [|b [|c [|d [|e [|g vs]]]]]];
    first [apply reader_ret | apply reader_raise].
Qed.

Lemma reader_getitem (key : Z) (tables : PcfFont.Tables) :
  PcfSpec.reader (PcfFont.getitem key tables).
Proof.
  unfold PcfFont.getitem. destruct (OrderedDict.lookup Z.eq_dec key tables);
    [apply reader_ret | apply reader_raise].
Qed.

Lemma reader_read_toc (count : nat) :
  forall tables, PcfSpec.reader (PcfFont.read_toc count tables).
Proof.
  induction count as [|count IH]; intros tables; simpl.
  - apply reader_ret.
  - apply reader_bind; [apply reader_read_values|]. intros vs.
    apply reader_bind; [apply reader_tuple4|]. intros [[[a b] c] d]. apply IH.
Qed.

Lemma reader_check_formats (entries : list Pcf.TableTocEntry) :
  PcfSpec.reader (for_each entries PcfFont.check_format).
Proof.
  induction entries as [|e entries IH]; simpl.
  - apply reader_ret.
  - apply reader_bind; [|intros u; exact IH].
    unfold PcfFont.check_format.
    destruct (negb _); [apply reader_raise | apply reader_ret].
Qed.

Lemma read_values_range (fmt : Pcf.struct_format) (f : Pcf.File) :
  match Pcf.read_values fmt f with
  | (Ok vs, _) => Forall2 PcfSpec.in_range (snd fmt) vs
  | (Raise _, _) => True
  end.
Proof.
  unfold Pcf.read_values, bind, Pcf.read, Pcf.lift, Pcf.unpack.
  destruct (Z.eqb_spec (Z.of_nat (length (firstn (Z.to_nat (Pcf.calcsize fmt))
                                                 (skipn (Z.to_nat (Pcf.pos f))
                                                        (Pcf.content f)))))
                       (Pcf.calcsize fmt)) as [e|n]; [|exact I].
  apply unpack_fields_in_range. unfold Pcf.calcsize in e at 2.
  apply Nat2Z.inj. exact e.
Qed.

(** The entries the loop of [__init__] retains have offsets read as
    unsigned 32-bit values. *)
Lemma read_toc_offsets (count : nat) :
  forall (tables : PcfFont.Tables) (f : Pcf.File),
    Forall (fun e => 0 <= Pcf.offset e) (map snd tables) ->
    match PcfFont.read_toc count tables f with
    | (Ok tables', _) => Forall (fun e => 0 <= Pcf.offset e) (map snd tables')
    | (Raise _, _) => True
    end.
Proof.
  induction count as [|count IH]; intros tables f Ht; simpl; [exact Ht|].
  unfold bind at 1.
  pose proof (read_values_range
                (Pcf.LittleEndian, [Pcf.c_I; Pcf.c_I; Pcf.c_I; Pcf.c_I]) f) as Hr.
  destruct (Pcf.read_values _ f) as [[vs|e] f1]; [|exact I].
  simpl in Hr.
  inversion Hr as [|? a ? vs1 Ha Hr1]; subst.
  inversion Hr1 as [|? b ? vs2 Hb Hr2]; subst.
  inversion Hr2 as [|? c ? vs3 Hc Hr3]; subst.
  inversion Hr3 as [|? d ? vs4 Hd Hr4]; subst.
  inversion Hr4; subst.
  unfold bind at 1. cbn [Pcf.tuple4 ret].
  apply IH.
  destruct (PcfFont.is_necessary a); [|exact Ht].
  rewrite Forall_forall in *. intros e He.
  apply in_map_iff in He. destruct He as [[k e'] [Ee Hin]]. simpl in Ee. subst e'.
  apply In_assign in Hin. destruct Hin as [Enew|Hold].
  - inversion Enew; subst. simpl in *. lia.
  - apply Ht. apply in_map_iff. exists (k, e). auto.
Qed.

Lemma getitem_In {S : Type} (key : Z) (tables : PcfFont.Tables) (s : S) :
  match PcfFont.getitem key tables s with
  | (Ok e, _) => In e (map snd tables)
  | (Raise _, _) => True
  end.
Proof.
  unfold PcfFont.getitem.
  destruct (OrderedDict.lookup Z.eq_dec key tables) as [e|] eqn:El; [|exact I].
  simpl. apply lookup_Some_In in El. apply in_map_iff. exists (key, e). auto.
Qed.

(** One step of [__init__]: a reader, then the rest, the file keeping
    its bytes. *)
Lemma init_step {A B : Type} (bytes : list byte) (m : M Pcf.File A)
      (G : A -> Prop) (k : A -> M Pcf.File B) (R : B -> Pcf.File -> Prop) :
  PcfSpec.reader m ->
  (forall s, match m s with (Ok a, _) => G a | (Raise _, _) => True end) ->
  (forall a, G a ->
             Hoare.triple (fun s => Pcf.content s = bytes) (k a) R (fun _ => True)) ->
  Hoare.triple (fun s => Pcf.content s = bytes) (bind m k) R (fun _ => True).
Proof.
  intros [Hc _] HG Hk s Hs. unfold bind.
  specialize (Hc s). specialize (HG s).
  destruct (m s) as [[a|e] s1]; [|exact I].
  simpl in Hc. apply (Hk a HG s1). congruence.
Qed.

Lemma land_3_cases (x : Z) : In (2 ^ Z.land x 3) [1; 2; 4; 8].
Proof.
  change 3 with (Z.ones 2). rewrite Z.land_ones by lia.
  pose proof (Z.mod_pos_bound x (2 ^ 2) ltac:(lia)) as H.
  change (2 ^ 2) with 4 in *.
  assert (Hc : x mod 4 = 0 \/ x mod 4 = 1 \/ x mod 4 = 2 \/ x mod 4 = 3) by lia.
  destruct Hc as [E|[E|[E|E]]]; rewrite E; simpl; auto.
Qed.

Ltac any_outcome :=
  intros ?s;
  match goal with
  | |- match ?x with _ => _ end => destruct x as [[|] ?]; exact I
  end.

(** The fields of a font that [__init__] returns. *)
Lemma init_fields (Bitmap : Type) (bytes : list byte) (capacity : Z)
      (self : PcfFont.t Bitmap) :
  fst (PcfFont.__init__ Bitmap bytes capacity) = Ok self ->
  In (PcfFont._glyph_padding self) [1; 2; 4; 8]
  /\ 8 <= PcfFont._bitmap_position_lut_location self
  /\ PcfFont._bitmap_position_lut_location self + 16
     <= PcfFont._bitmap_data_location self
  /\ 6 <= PcfFont._metrics_data_location self
  /\ 14 <= PcfFont._encoded_glyph_indices_location self
  /\ PcfSpec.in_range Pcf.c_h (PcfFont._min_byte1 self)
  /\ PcfSpec.in_range Pcf.c_h (PcfFont._max_byte1 self)
  /\ PcfSpec.in_range Pcf.c_h (PcfFont._min_byte2 self)
  /\ PcfSpec.in_range Pcf.c_h (PcfFont._max_byte2 self)
  /\ PcfSpec.in_range Pcf.c_h (PcfFont._default_char self)
  /\ PcfFont._cache self = LruCache.init capacity
  /\ PcfFont.heap self = []
  /\ Pcf.content (PcfFont._file self) = bytes.
Proof.
  unfold PcfFont.__init__.
  match goal with
  | |- fst (?m ?f) = _ -> ?concl =>
      assert (H : Hoare.triple (fun s => Pcf.content s = bytes) m
                    (fun r _ =>
                       In (PcfFont._glyph_padding r) [1; 2; 4; 8]
                       /\ 8 <= PcfFont._bitmap_position_lut_location r
                       /\ PcfFont._bitmap_position_lut_location r + 16
                          <= PcfFont._bitmap_data_location r
                       /\ 6 <= PcfFont._metrics_data_location r
                       /\ 14 <= PcfFont._encoded_glyph_indices_location r
                       /\ PcfSpec.in_range Pcf.c_h (PcfFont._min_byte1 r)
                       /\ PcfSpec.in_range Pcf.c_h (PcfFont._max_byte1 r)
                       /\ PcfSpec.in_range Pcf.c_h (PcfFont._min_byte2 r)
                       /\ PcfSpec.in_range Pcf.c_h (PcfFont._max_byte2 r)
                       /\ PcfSpec.in_range Pcf.c_h (PcfFont._default_char r)
                       /\ PcfFont._cache r = LruCache.init capacity
                       /\ PcfFont.heap r = []
                       /\ Pcf.content (PcfFont._file r) = bytes)
                    (fun _ => True));
      [|specialize (H f eq_refl); destruct (m f) as [[r|e] f1]; simpl;
        intros E; inversion E; subst; exact H]
  end.
  apply (init_step bytes _ (fun _ => True)); [apply reader_seek|any_outcome|].
  intros u _.
  apply (init_step bytes _ (fun _ => True)); [apply reader_read|any_outcome|].
  intros magic _.
  destruct (negb _); [apply triple_raise; auto|].
  apply (init_step bytes _ (fun _ => True)); [apply reader_read_values| |].
  { any_outcome. }
  intros vs _.
  apply (init_step bytes _ (fun _ => True)); [apply reader_tuple1| |].
  { any_outcome. }
  intros tables_count _.
  apply (init_step bytes _
           (fun tables => Forall (fun e => 0 <= Pcf.offset e) (map snd tables)));
    [apply reader_read_toc| |].
  { intros s. apply read_toc_offsets. constructor. }
  intros tables Htables.
  destruct (OrderedDict.len tables <? 4); [apply triple_raise; auto|].
  apply (init_step bytes _ (fun _ => True)); [apply reader_check_formats| |].
  { any_outcome. }
  intros u1 _.
  apply (init_step bytes _ (fun e => In e (map snd tables)));
    [apply reader_getitem|intros s; apply getitem_In|].
  intros bitmaps Hbitmaps.
  destruct (negb _); [apply triple_raise; auto|].
  apply (init_step bytes _ (fun _ => True)); [apply reader_seek| |].
  { any_outcome. }
  intros u2 _.
  apply (init_step bytes _ (Forall2 PcfSpec.in_range [Pcf.c_I]));
    [apply reader_read_values|intros s; apply read_values_range|].
  intros vs0 Hvs0.
  inversion Hvs0 as [|? glyph_count ? rest0 Hgc Hrest0]; subst.
  inversion Hrest0; subst.
  apply (init_step bytes _ (fun a => a = glyph_count)); [apply reader_tuple1| |].
  { intros s. reflexivity. }
  intros gc Egc. subst gc.
  apply (init_step bytes _ (fun e => In e (map snd tables)));
    [apply reader_getitem|intros s; apply getitem_In|].
  intros metrics Hmetrics.
  apply (init_step bytes _ (fun _ => True)); [apply reader_seek| |].
  { any_outcome. }
  intros u3 _.
  apply (init_step bytes _ (fun _ => True)).
  { destruct (_ >? 0); apply reader_read_values. }
  { any_outcome. }
  intros vs1 _.
  apply (init_step bytes _ (fun _ => True)); [apply reader_tuple1| |].
  { any_outcome. }
  intros metrics_count _.
  destruct (negb _); [apply triple_raise; auto|].
  apply (init_step bytes _ (fun e => In e (map snd tables)));
    [apply reader_getitem|intros s; apply getitem_In|].
  intros encodings Hencodings.
  apply (init_step bytes _ (fun _ => True)); [apply reader_seek| |].
  { any_outcome. }
  intros u4 _.
  apply (init_step bytes _
           (Forall2 PcfSpec.in_range [Pcf.c_h; Pcf.c_h; Pcf.c_h; Pcf.c_h; Pcf.c_h]));
    [apply reader_read_values|intros s; apply read_values_range|].
  intros vs2 Hvs2.
  inversion Hvs2 as [|? b2min ? r1 H2min Hr1]; subst.
  inversion Hr1 as [|? b2max ? r2 H2max Hr2]; subst.
  inversion Hr2 as [|? b1min ? r3 H1min Hr3]; subst.
  inversion Hr3 as [|? b1max ? r4 H1max Hr4]; subst.
  inversion Hr4 as [|? dchar ? r5 Hdchar Hr5]; subst.
  inversion Hr5; subst.
  apply (init_step bytes _ (fun x => x = (b2min, b2max, b1min, b1max, dchar)));
    [apply reader_tuple5| |].
  { intros s. reflexivity. }
  intros x Ex. subst x. cbv iota beta.
  apply (init_step bytes _ (fun _ => True)).
  { match goal with
    | |- PcfSpec.reader (match ?x with _ => _ end) => destruct x
    end; [apply reader_ret|apply reader_raise]. }
  { any_outcome. }
  intros acc_table _.
  apply (init_step bytes _ (fun _ => True)); [apply reader_seek| |].
  { any_outcome. }
  intros u5 _.
  apply (init_step bytes _ (fun _ => True)); [apply reader_read_values| |].
  { any_outcome. }
  intros vs3 _.
  apply (init_step bytes _ (fun _ => True)); [apply reader_tuple2| |].
  { any_outcome. }
  intros [ascent descent] _.
  apply (init_step bytes _ (fun _ => True)).
  { destruct (_ >? 0); apply reader_seek. }
  { any_outcome. }
  intros u6 _.
  apply (init_step bytes _ (fun _ => True)); [apply reader_metrics_standard| |].
  { any_outcome. }
  intros minbounds _.
  apply (init_step bytes _ (fun _ => True)); [apply reader_metrics_standard| |].
  { any_outcome. }
  intros maxbounds _.
  intros s Hs. unfold bind, state, ret.
  cbn [PcfFont._glyph_padding PcfFont._bitmap_position_lut_location
       PcfFont._bitmap_data_location PcfFont._metrics_data_location
       PcfFont._encoded_glyph_indices_location PcfFont._min_byte1
       PcfFont._max_byte1 PcfFont._min_byte2 PcfFont._max_byte2
       PcfFont._default_char PcfFont._cache PcfFont.heap PcfFont._file].
  rewrite Forall_forall in Htables.
  pose proof (Htables _ Hbitmaps). pose proof (Htables _ Hmetrics).
  pose proof (Htables _ Hencodings).
  simpl in Hgc, H2min, H2max, H1min, H1max, Hdchar.
  split; [apply land_3_cases|].
  repeat split; try assumption; try lia.
  destruct (_ >? 0); lia.
Qed.

(** X11.  Every font that [__init__] returns has a glyph padding of 1, 2,
    4 or 8, table locations past the fields that precede them (so none is
    negative), encoding bounds and default character that fit in a signed
    16-bit integer, an empty cache of the capacity asked for, nothing
    allocated, and a file that holds the bytes it was opened on. *)
Theorem init_result (Bitmap : Type) (bytes : list byte) (capacity : Z)
        (self : PcfFont.t Bitmap) :
  fst (PcfFont.__init__ Bitmap bytes capacity) = Ok self ->
  In (PcfFont._glyph_padding self) [1; 2; 4; 8]
  /\ 8 <= PcfFont._bitmap_position_lut_location self
  /\ PcfFont._bitmap_position_lut_location self + 16
     <= PcfFont._bitmap_data_location self
  /\ 6 <= PcfFont._metrics_data_location self
  /\ 14 <= PcfFont._encoded_glyph_indices_location self
  /\ PcfSpec.in_range Pcf.c_h (PcfFont._min_byte1 self)
  /\ PcfSpec.in_range Pcf.c_h (PcfFont._max_byte1 self)
  /\ PcfSpec.in_range Pcf.c_h (PcfFont._min_byte2 self)
  /\ PcfSpec.in_range Pcf.c_h (PcfFont._max_byte2 self)
  /\ PcfSpec.in_range Pcf.c_h (PcfFont._default_char self)
  /\ PcfFont._cache self = LruCache.init capacity
  /\ PcfFont.heap self = []
  /\ Pcf.content (PcfFont._file self) = bytes.
Proof. apply init_fields. Qed.

Lemma init_result_witness :
  fst (PcfFont.__init__ RefHost.Bitmap PcfSpec.sample_font 128)
  = Ok FontSpec.sample_opened
  /\ In (PcfFont._glyph_padding FontSpec.sample_opened) [1; 2; 4; 8]
  /\ PcfFont._cache FontSpec.sample_opened = LruCache.init 128
  /\ PcfFont.heap FontSpec.sample_opened = []
  /\ Pcf.content (PcfFont._file FontSpec.sample_opened) = PcfSpec.sample_font.
Proof.
  assert (E : fst (PcfFont.__init__ RefHost.Bitmap PcfSpec.sample_font 128)
              = Ok FontSpec.sample_opened) by (vm_compute; reflexivity).
  split; [exact E|].
  pose proof (init_result RefHost.Bitmap PcfSpec.sample_font 128
                FontSpec.sample_opened E) as H.
  repeat split; apply H.
Defined.

(** * Further properties of loading glyphs *)

(** ** What a computation keeps *)

Section KeepsRules.
Context {S : Type}.
Variable R : S -> S -> Prop.
Hypothesis R_refl : forall s, R s s.
Hypothesis R_trans : forall s1 s2 s3, R s1 s2 -> R s2 s3 -> R s1 s3.
Import Hoare.

Lemma keeps_ret {A : Type} (a : A) : keeps R (ret a).
Proof. intros s. apply R_refl. Qed.

Lemma keeps_raise {A : Type} (e : exn) : keeps R (raise e : M S A).
Proof. intros s. apply R_refl. Qed.

Lemma keeps_state : keeps R (state : M S S).
Proof. intros s. apply R_refl. Qed.

Lemma keeps_lift {A : Type} (r : res A) : keeps R (Pcf.lift r : M S A).
Proof. intros s. apply R_refl. Qed.

Lemma keeps_bind {A B : Type} (m : M S A) (k : A -> M S B) :
  keeps R m -> (forall a, keeps R (k a)) -> keeps R (bind m k).
Proof.
  intros Hm Hk s. unfold bind. specialize (Hm s).
  destruct (m s) as [[a|e] s1]; simpl in *; [|exact Hm].
  apply R_trans with (1 := Hm). apply Hk.
Qed.

Lemma keeps_when (b : bool) (m : M S unit) : keeps R m -> keeps R (when b m).
Proof. intros Hm. destruct b; [exact Hm|apply keeps_ret]. Qed.

Lemma keeps_for_each {A : Type} (xs : list A) (body : A -> M S unit) :
  (forall x, keeps R (body x)) -> keeps R (for_each xs body).
Proof.
  intros H. induction xs as [|x xs IH]; simpl.
  - apply keeps_ret.
  - apply keeps_bind; [apply H|intros u; exact IH].
Qed.

Lemma keeps_map_m {A B : Type} (f : A -> M S B) (xs : list A) :
  (forall x, keeps R (f x)) -> keeps R (map_m f xs).
Proof.
  intros H. induction xs as [|x xs IH]; simpl.
  - apply keeps_ret.
  - apply keeps_bind; [apply H|intros y].
    apply keeps_bind; [exact IH|intros ys; apply keeps_ret].
Qed.

End KeepsRules.

(** ** A relation kept by every step of the font is kept by its methods *)

Lemma keeps_on_lru {Bitmap A : Type}
      (R : PcfFont.t Bitmap -> PcfFont.t Bitmap -> Prop)
      (m : M (LruCache.t Z nat) A) :
  (forall s c, R s (PcfFont.set_cache c s)) ->
  Hoare.keeps R (PcfFont.on_lru m).
Proof.
  intros H s. unfold PcfFont.on_lru. destruct (m (PcfFont._cache s)) as [r c].
  simpl. apply H.
Qed.

Section FontKeeps.
Variable Bitmap : Type.
Variable DisplayioBitmap : Z -> Z -> Z -> res Bitmap.
Variable _bitmap_readinto : Z -> Z -> bool -> M (Bitmap * Pcf.File) unit.
Variable R : PcfFont.t Bitmap -> PcfFont.t Bitmap -> Prop.
Hypothesis R_refl : forall s, R s s.
Hypothesis R_trans : forall s1 s2 s3, R s1 s2 -> R s2 s3 -> R s1 s3.
Hypothesis R_file :
  forall s f, Pcf.content f = Pcf.content (PcfFont._file s) ->
              R s (PcfFont.set_file f s).
Hypothesis R_contains :
  forall k, Hoare.keeps R (PcfFont.on_lru (LruCache.contains Z.eq_dec k)).
Hypothesis R_get :
  forall k, Hoare.keeps R (PcfFont.on_lru (LruCache.get Z.eq_dec k)).
Hypothesis R_put :
  forall k v, Hoare.keeps R (PcfFont.on_lru (LruCache.put Z.eq_dec k v)).
Hypothesis R_heap : forall s h, R s (PcfFont.set_heap h s).
Hypothesis R_readinto :
  forall bitmap bits_per_pixel element_size reverse_pixels_in_element,
    Hoare.keeps R (PcfFont.readinto _bitmap_readinto bitmap bits_per_pixel
                                    element_size reverse_pixels_in_element).
Import Hoare.

Local Abbreviation font := (PcfFont.t Bitmap).

Lemma keeps_on_file {A : Type} (m : M Pcf.File A) :
  PcfSpec.reader m -> keeps R (PcfFont.on_file m : M font A).
Proof.
  intros [Hc _] s. unfold PcfFont.on_file. specialize (Hc (PcfFont._file s)).
  destruct (m (PcfFont._file s)) as [r f]. simpl in *. apply R_file. exact Hc.
Qed.

Lemma keeps_alloc (o : PcfFont.obj Bitmap) : keeps R (PcfFont.alloc o).
Proof. intros s. unfold PcfFont.alloc. simpl. apply R_heap. Qed.

Lemma keeps_tuple1 (vs : list Z) : keeps R (Pcf.tuple1 vs : M font Z).
Proof.
  destruct vs as [|v [|w vs]]; (apply keeps_ret || apply keeps_raise);
    exact R_refl.
Qed.

Ltac keeps_walk :=
  repeat first
    [ apply (keeps_bind R R_trans); [|intros ?]
    | apply (keeps_ret R R_refl)
    | apply (keeps_raise R R_refl)
    | apply (keeps_state R R_refl)
    | apply (keeps_lift R R_refl)
    | apply keeps_tuple1
    | apply R_contains
    | apply R_get
    | apply R_put
    | apply keeps_alloc
    | apply R_readinto
    | apply keeps_on_file;
      first [ apply reader_seek | apply reader_read_values
            | apply reader_metrics_standard | apply reader_metrics_compressed ]
    | match goal with
      | |- keeps R (if ?b then _ else _) => destruct b
      end ].

Lemma keeps_index (code_point : Z) : keeps R (PcfFont._get_glyph_index code_point).
Proof. unfold PcfFont._get_glyph_index. keeps_walk. Qed.

Lemma keeps_offset (glyph_index : Z) :
  keeps R (PcfFont._get_glyph_bitmap_offset glyph_index).
Proof. unfold PcfFont._get_glyph_bitmap_offset. keeps_walk. Qed.

Lemma keeps_metrics (glyph_index : Z) : keeps R (PcfFont._get_metrics glyph_index).
Proof. unfold PcfFont._get_metrics. keeps_walk. Qed.

Lemma keeps_collect (code_points : list Z) :
  forall glyphs_indices,
    keeps R (PcfFont.collect_indices code_points glyphs_indices).
Proof.
  induction code_points as [|c rest IH]; intros d; simpl.
  - apply (keeps_ret R R_refl).
  - apply (keeps_bind R R_trans); [apply keeps_index|intros i; apply IH].
Qed.

Lemma keeps_create (entry : Pcf.MetricsEntry * Z) :
  keeps R (PcfFont.create_glyph DisplayioBitmap entry).
Proof. destruct entry as [m c]. unfold PcfFont.create_glyph. keeps_walk. Qed.

Lemma keeps_fill (entry : Z * nat) :
  keeps R (PcfFont.fill_bitmap _bitmap_readinto entry).
Proof. destruct entry as [o b]. unfold PcfFont.fill_bitmap. keeps_walk. Qed.

Lemma keeps_load_glyphs (code_points : PcfFont.code_points_arg) :
  keeps R (PcfFont.load_glyphs DisplayioBitmap _bitmap_readinto code_points).
Proof.
  unfold PcfFont.load_glyphs. cbv zeta.
  apply (keeps_bind R R_trans); [apply (keeps_state R R_refl)|intros self].
  destruct (PcfFont.sorted _); [apply (keeps_ret R R_refl)|].
  apply (keeps_bind R R_trans); [apply keeps_collect|intros d].
  destruct d as [|e d]; [apply (keeps_ret R R_refl)|].
  apply (keeps_bind R R_trans);
    [apply (keeps_map_m R R_refl R_trans); apply keeps_offset|intros offs].
  apply (keeps_bind R R_trans);
    [apply (keeps_map_m R R_refl R_trans); apply keeps_metrics|intros ms].
  apply (keeps_bind R R_trans); [apply (keeps_ret R R_refl)|intros u].
  apply (keeps_bind R R_trans);
    [apply (keeps_map_m R R_refl R_trans); apply keeps_create|intros bs].
  apply (keeps_for_each R R_refl R_trans). apply keeps_fill.
Qed.

Lemma keeps_get_glyph (code_point : Z) :
  keeps R (PcfFont.get_glyph DisplayioBitmap _bitmap_readinto code_point).
Proof.
  unfold PcfFont.get_glyph.
  apply (keeps_bind R R_trans); [apply R_contains|intros present].
  apply (keeps_bind R R_trans); [|intros u; apply R_get].
  apply (keeps_when R R_refl).
  apply (keeps_bind R R_trans); [apply keeps_load_glyphs|intros u].
  apply (keeps_ret R R_refl).
Qed.

Lemma keeps_reachable (bytes : list byte) (capacity : Z) (self : font) :
  FontSpec.reachable DisplayioBitmap _bitmap_readinto bytes capacity self ->
  exists s0,
    fst (PcfFont.__init__ Bitmap bytes capacity) = Ok s0 /\ R s0 self.
Proof.
  induction 1 as [self Hinit|self arg Hr [s0 [Hinit Hs]]
                       |self cp Hr [s0 [Hinit Hs]]].
  - exists self. auto.
  - exists s0. split; [exact Hinit|].
    apply R_trans with (1 := Hs). apply keeps_load_glyphs.
  - exists s0. split; [exact Hinit|].
    apply R_trans with (1 := Hs). apply keeps_get_glyph.
Qed.

End FontKeeps.

(** ** The header and the bytes of a font in use *)

Lemma header_kept_readinto (Bitmap : Type)
      (_bitmap_readinto : Z -> Z -> bool -> M (Bitmap * Pcf.File) unit)
      (bitmap : nat) (bits_per_pixel element_size : Z)
      (reverse_pixels_in_element : bool) :
  Hoare.keeps FontSpec.header_kept
              (PcfFont.readinto _bitmap_readinto bitmap bits_per_pixel
                                element_size reverse_pixels_in_element).
Proof.
  intros s. unfold PcfFont.readinto.
  destruct (nth_error (PcfFont.heap s) bitmap) as [[b|g]|]; try reflexivity.
  destruct (_bitmap_readinto _ _ _ _) as [r [b' f']]. reflexivity.
Qed.

Lemma bytes_kept_readinto (Bitmap : Type)
      (_bitmap_readinto : Z -> Z -> bool -> M (Bitmap * Pcf.File) unit)
      (bitmap : nat) (bits_per_pixel element_size : Z)
      (reverse_pixels_in_element : bool) :
  FontSpec.reads_only _bitmap_readinto ->
  Hoare.keeps FontSpec.bytes_kept
              (PcfFont.readinto _bitmap_readinto bitmap bits_per_pixel
                                element_size reverse_pixels_in_element).
Proof.
  intros Hro s. unfold PcfFont.readinto, FontSpec.bytes_kept.
  destruct (nth_error (PcfFont.heap s) bitmap) as [[b|g]|]; try reflexivity.
  specialize (Hro bits_per_pixel element_size reverse_pixels_in_element b
                  (PcfFont._file s)).
  destruct (_bitmap_readinto _ _ _ _) as [r [b' f']]. exact Hro.
Qed.

(** X12.  Whatever calls of [load_glyphs] and [get_glyph] a font has
    served, at any capacity and with any host, whether the calls returned
    or raised, [ascent], [descent] and [get_bounding_box] give what they
    gave when the font was opened, and so do all the values [__init__]
    computed from the tables. *)
Theorem getters_fixed
        (Bitmap : Type) (DisplayioBitmap : Z -> Z -> Z -> res Bitmap)
        (_bitmap_readinto : Z -> Z -> bool -> M (Bitmap * Pcf.File) unit)
        (bytes : list byte) (capacity : Z) (self : PcfFont.t Bitmap) :
  FontSpec.reachable DisplayioBitmap _bitmap_readinto bytes capacity self ->
  exists s0,
    fst (PcfFont.__init__ Bitmap bytes capacity) = Ok s0
    /\ PcfFont.ascent self = PcfFont.ascent s0
    /\ PcfFont.descent self = PcfFont.descent s0
    /\ PcfFont.get_bounding_box self = PcfFont.get_bounding_box s0
    /\ FontSpec.header_kept s0 self.
Proof.
  intros Hr.
  destruct (keeps_reachable Bitmap DisplayioBitmap _bitmap_readinto
              FontSpec.header_kept) with (9 := Hr) as [s0 [Hinit Hk]].
  - intros s. reflexivity.
  - unfold FontSpec.header_kept. intros s1 s2 s3 H12 H23. congruence.
  - intros s f _. reflexivity.
  - intros k. apply keeps_on_lru. reflexivity.
  - intros k. apply keeps_on_lru. reflexivity.
  - intros k v. apply keeps_on_lru. reflexivity.
  - intros s h. reflexivity.
  - intros. apply header_kept_readinto.
  - exists s0. split; [exact Hinit|].
    unfold PcfFont.ascent, PcfFont.descent, PcfFont.get_bounding_box.
    pose proof Hk as Hh. unfold FontSpec.header_kept, FontSpec.header in Hh.
    inversion Hh. repeat split; auto.
Qed.

(** X13.  With a host whose [readinto] leaves the bytes of the file
    alone, the file of a font holds the bytes it was opened on, whatever
    calls of [load_glyphs] and [get_glyph] the font has served, at any
    capacity. *)
Theorem file_bytes_fixed
        (Bitmap : Type) (DisplayioBitmap : Z -> Z -> Z -> res Bitmap)
        (_bitmap_readinto : Z -> Z -> bool -> M (Bitmap * Pcf.File) unit)
        (bytes : list byte) (capacity : Z) (self : PcfFont.t Bitmap) :
  FontSpec.reads_only _bitmap_readinto ->
  FontSpec.reachable DisplayioBitmap _bitmap_readinto bytes capacity self ->
  Pcf.content (PcfFont._file self) = bytes.
Proof.
  intros Hro Hr.
  destruct (keeps_reachable Bitmap DisplayioBitmap _bitmap_readinto
              FontSpec.bytes_kept) with (9 := Hr) as [s0 [Hinit Hk]].
  - intros s. reflexivity.
  - unfold FontSpec.bytes_kept. intros s1 s2 s3 H12 H23. congruence.
  - intros s f H. exact H.
  - intros k. apply keeps_on_lru. reflexivity.
  - intros k. apply keeps_on_lru. reflexivity.
  - intros k v. apply keeps_on_lru. reflexivity.
  - intros s h. reflexivity.
  - intros. apply bytes_kept_readinto. exact Hro.
  - unfold FontSpec.bytes_kept in Hk. rewrite Hk.
    apply (init_fields Bitmap bytes capacity s0 Hinit).
Qed.

Lemma sample_used_reachable :
  FontSpec.reachable RefHost.DisplayioBitmap RefHost._bitmap_readinto
                     PcfSpec.sample_font 128 FontSpec.sample_used.
Proof.
  unfold FontSpec.sample_used. apply FontSpec.reach_get_glyph.
  apply FontSpec.reach_init. vm_compute. reflexivity.
Defined.

Lemma getters_fixed_witness :
  FontSpec.reachable RefHost.DisplayioBitmap RefHost._bitmap_readinto
                     PcfSpec.sample_font 128 FontSpec.sample_used
  /\ exists s0,
      fst (PcfFont.__init__ RefHost.Bitmap PcfSpec.sample_font 128) = Ok s0
      /\ PcfFont.ascent FontSpec.sample_used = PcfFont.ascent s0
      /\ PcfFont.descent FontSpec.sample_used = PcfFont.descent s0
      /\ PcfFont.get_bounding_box FontSpec.sample_used
         = PcfFont.get_bounding_box s0
      /\ FontSpec.header_kept s0 FontSpec.sample_used.
Proof.
  split; [exact sample_used_reachable|].
  apply (getters_fixed RefHost.Bitmap RefHost.DisplayioBitmap
                       RefHost._bitmap_readinto PcfSpec.sample_font 128
                       FontSpec.sample_used).
  exact sample_used_reachable.
Defined.

Lemma file_bytes_fixed_witness :
  FontSpec.reads_only RefHost._bitmap_readinto
  /\ FontSpec.reachable RefHost.DisplayioBitmap RefHost._bitmap_readinto
                        PcfSpec.sample_font 128 FontSpec.sample_used
  /\ Pcf.content (PcfFont._file FontSpec.sample_used) = PcfSpec.sample_font.
Proof.
  split; [exact ref_host_reads_only|].
  split; [exact sample_used_reachable|].
  apply (file_bytes_fixed RefHost.Bitmap RefHost.DisplayioBitmap
                          RefHost._bitmap_readinto PcfSpec.sample_font 128
                          FontSpec.sample_used).
  - exact ref_host_reads_only.
  - exact sample_used_reachable.
Defined.

(** ** Loading what is cached, and the order of the code points *)

Section LoadMore.
Variable Bitmap : Type.
Variable DisplayioBitmap : Z -> Z -> Z -> res Bitmap.
Variable _bitmap_readinto : Z -> Z -> bool -> M (Bitmap * Pcf.File) unit.

Local Abbreviation font := (PcfFont.t Bitmap).
Local Abbreviation load_glyphs :=
  (PcfFont.load_glyphs DisplayioBitmap _bitmap_readinto).
Local Abbreviation get_glyph :=
  (PcfFont.get_glyph DisplayioBitmap _bitmap_readinto).
Local Abbreviation cached c s :=
  (OrderedDict.contains Z.eq_dec c (LruCache._cache (PcfFont._cache s))).

Lemma filter_all_cached (s : font) (cs : list Z) :
  Forall (fun c => cached c s = true) cs ->
  filter (fun c => negb (cached c s)) cs = [].
Proof.
  induction 1 as [|c cs Hc _ IH]; simpl; [reflexivity|].
  rewrite Hc. exact IH.
Qed.

(** X14.  [load_glyphs] on code points that are all in the cache, given
    as an int, a str or an iterable, returns and leaves the font as it
    was: the cache and its order, the file, its position and its log of
    reads, and the allocated objects. *)
Theorem load_glyphs_all_cached (code_points : PcfFont.code_points_arg) (s : font) :
  Forall (fun c => cached c s = true) (FontSpec.code_points_of code_points) ->
  load_glyphs code_points s = (Ok tt, s).
Proof.
  intros H. rewrite load_glyphs_unfold. cbv zeta.
  change (match code_points with
          | PcfFont.CodePoint c => [c]
          | PcfFont.Text t => map PcfFont.ord (list_ascii_of_string t)
          | PcfFont.Iter cs => cs
          end) with (FontSpec.code_points_of code_points).
  rewrite (filter_all_cached s _ H). reflexivity.
Qed.

Lemma insert_sorted_comm (x y : Z) (l : list Z) :
  PcfFont.insert_sorted x (PcfFont.insert_sorted y l)
  = PcfFont.insert_sorted y (PcfFont.insert_sorted x l).
Proof.
  induction l as [|a l IH].
  - simpl. destruct (Z.leb_spec x y), (Z.leb_spec y x); try reflexivity; try lia.
    assert (x = y) by lia. subst. reflexivity.
  - cbn [PcfFont.insert_sorted].
    destruct (Z.leb_spec y a), (Z.leb_spec x a); cbn [PcfFont.insert_sorted].
    + destruct (Z.leb_spec x y), (Z.leb_spec y x), (Z.leb_spec x a),
        (Z.leb_spec y a); try reflexivity; try lia.
      assert (x = y) by lia. subst. reflexivity.
    + destruct (Z.leb_spec x y), (Z.leb_spec y a), (Z.leb_spec x a);
        try reflexivity; lia.
    + destruct (Z.leb_spec y x), (Z.leb_spec y a), (Z.leb_spec x a);
        try reflexivity; lia.
    + destruct (Z.leb_spec y a), (Z.leb_spec x a); try lia.
      rewrite IH. reflexivity.
Qed.

Lemma sorted_filter_permutation (keep : Z -> bool) (cs cs' : list Z) :
  Permutation cs cs' ->
  PcfFont.sorted (filter keep cs) = PcfFont.sorted (filter keep cs').
Proof.
  unfold PcfFont.sorted.
  induction 1 as [|x l l' _ IH|x y l|l l' l'' _ IH1 _ IH2].
  - reflexivity.
  - simpl. destruct (keep x); simpl; rewrite IH; reflexivity.
  - simpl. destruct (keep x), (keep y); simpl; try reflexivity.
    apply insert_sorted_comm.
  - congruence.
Qed.

(** X15.  [load_glyphs] on an iterable does the same whatever the order
    of its code points: two iterables that are permutations of each other
    give the same outcome and the same font, file log and allocated
    objects included. *)
Theorem load_glyphs_any_order (cs cs' : list Z) (s : font) :
  Permutation cs cs' ->
  load_glyphs (PcfFont.Iter cs) s = load_glyphs (PcfFont.Iter cs') s.
Proof.
  intros H. rewrite !load_glyphs_unfold. cbv zeta.
  rewrite (sorted_filter_permutation _ cs cs' H). reflexivity.
Qed.

(** X16.  [get_glyph] on a code point that is not cached and that the
    encoding table does not resolve returns [None]; it leaves the cache
    and the allocated objects as they were, so the miss is not cached,
    and of the file it changes the position and the log at most. *)
Theorem get_glyph_unsupported (code_point : Z) (s : font) :
  cached code_point s = false ->
  fst (PcfFont._get_glyph_index code_point s) = Ok (-1) ->
  exists f',
    get_glyph code_point s = (Ok None, PcfFont.set_file f' s)
    /\ Pcf.content f' = Pcf.content (PcfFont._file s).
Proof.
  intros Hc Hi.
  destruct (index_step Bitmap s code_point) as [f' [Ei Hf]].
  rewrite Hi in Ei. exists f'. split; [|exact Hf].
  rewrite (get_glyph_miss Bitmap DisplayioBitmap _bitmap_readinto code_point s Hc).
  rewrite load_glyphs_unfold. cbv zeta. cbn [filter]. rewrite Hc.
  cbn [negb PcfFont.sorted fold_right PcfFont.insert_sorted
       PcfFont.collect_indices].
  unfold bind. rewrite Ei. change (-1 >=? 0) with false. unfold ret.
  cbv beta iota. unfold PcfFont.on_lru.
  change (PcfFont._cache (PcfFont.set_file f' s)) with (PcfFont._cache s).
  rewrite (get_nothing Z.eq_dec (PcfFont._cache s) code_point).
  - destruct s. reflexivity.
  - unfold OrderedDict.contains in Hc.
    destruct (OrderedDict.lookup Z.eq_dec code_point
                                 (LruCache._cache (PcfFont._cache s)));
      [discriminate|left; reflexivity].
Qed.

(** X17.  A glyph index that [_get_glyph_index] returns is -1 or lies
    between 0 and 65534: the value [0xFFFF] of the table never comes out
    as an index. *)
Theorem get_glyph_index_range (code_point : Z) (s : font) (glyph_index : Z) :
  fst (PcfFont._get_glyph_index code_point s) = Ok glyph_index ->
  glyph_index = -1 \/ 0 <= glyph_index < 65535.
Proof.
  rewrite get_glyph_index_unfold. cbv zeta.
  match goal with |- context [if ?b then _ else _] => destruct b end.
  - simpl. intros E. inversion E. left. reflexivity.
  - rewrite seek_read_on_file. unfold bind at 1.
    match goal with
    | |- context [Pcf.seek ?a ?f] => destruct (Pcf.seek a f) as [[[]|e] f1]
    end; [|discriminate].
    pose proof (read_values_range (Pcf.BigEndian, [Pcf.c_H]) f1) as Hr.
    destruct (Pcf.read_values (Pcf.BigEndian, [Pcf.c_H]) f1) as [[vs|e] f2];
      [|discriminate].
    simpl in Hr. inversion Hr as [|? v ? vs' Hv Hvs]; subst.
    inversion Hvs; subst. simpl in Hv.
    unfold bind, Pcf.tuple1, ret.
    destruct (Z.eqb_spec v 65535) as [e|n]; simpl; intros E; inversion E; subst.
    + left. reflexivity.
    + right. lia.
Qed.

End LoadMore.

Lemma load_glyphs_all_cached_witness :
  Forall (fun c => OrderedDict.contains Z.eq_dec c
                     (LruCache._cache (PcfFont._cache FontSpec.sample_used))
                   = true)
         (FontSpec.code_points_of (PcfFont.Text "AA"))
  /\ PcfFont.load_glyphs RefHost.DisplayioBitmap RefHost._bitmap_readinto
                         (PcfFont.Text "AA") FontSpec.sample_used
     = (Ok tt, FontSpec.sample_used).
Proof.
  assert (H : Forall (fun c => OrderedDict.contains Z.eq_dec c
                                 (LruCache._cache
                                    (PcfFont._cache FontSpec.sample_used))
                               = true)
                     (FontSpec.code_points_of (PcfFont.Text "AA"))).
  { simpl FontSpec.code_points_of.
    repeat (constructor; [vm_compute; reflexivity|]). constructor. }
  split; [exact H|].
  apply (load_glyphs_all_cached RefHost.Bitmap RefHost.DisplayioBitmap
                                RefHost._bitmap_readinto (PcfFont.Text "AA")
                                FontSpec.sample_used H).
Defined.

Lemma load_glyphs_any_order_witness :
  Permutation [66; 65] [65; 66]
  /\ PcfFont.load_glyphs RefHost.DisplayioBitmap RefHost._bitmap_readinto
                         (PcfFont.Iter [66; 65]) FontSpec.sample_opened
     = PcfFont.load_glyphs RefHost.DisplayioBitmap RefHost._bitmap_readinto
                           (PcfFont.Iter [65; 66]) FontSpec.sample_opened.
Proof.
  split; [apply perm_swap|].
  apply (load_glyphs_any_order RefHost.Bitmap RefHost.DisplayioBitmap
                               RefHost._bitmap_readinto [66; 65] [65; 66]
                               FontSpec.sample_opened).
  apply perm_swap.
Defined.

Lemma get_glyph_unsupported_witness :
  OrderedDict.contains Z.eq_dec 66
    (LruCache._cache (PcfFont._cache FontSpec.sample_opened)) = false
  /\ fst (PcfFont._get_glyph_index 66 FontSpec.sample_opened) = Ok (-1)
  /\ exists f',
      PcfFont.get_glyph RefHost.DisplayioBitmap RefHost._bitmap_readinto 66
                        FontSpec.sample_opened
      = (Ok None, PcfFont.set_file f' FontSpec.sample_opened)
      /\ Pcf.content f' = Pcf.content (PcfFont._file FontSpec.sample_opened).
Proof.
  split; [vm_compute; reflexivity|]. split; [vm_compute; reflexivity|].
  apply (get_glyph_unsupported RefHost.Bitmap RefHost.DisplayioBitmap
                               RefHost._bitmap_readinto 66
                               FontSpec.sample_opened);
    vm_compute; reflexivity.
Defined.

Lemma get_glyph_index_range_witness :
  fst (PcfFont._get_glyph_index 65 FontSpec.sample_opened) = Ok 0
  /\ (0 = -1 \/ 0 <= 0 < 65535).
Proof.
  split; [vm_compute; reflexivity|].
  apply (get_glyph_index_range RefHost.Bitmap 65 FontSpec.sample_opened 0).
  vm_compute. reflexivity.
Defined.

(** ** A font opened without capacity *)

Lemma empty_cache_kept (Bitmap : Type)
      (DisplayioBitmap : Z -> Z -> Z -> res Bitmap)
      (_bitmap_readinto : Z -> Z -> bool -> M (Bitmap * Pcf.File) unit)
      (bytes : list byte) (capacity : Z) (self : PcfFont.t Bitmap) :
  capacity <= 0 ->
  FontSpec.reachable DisplayioBitmap _bitmap_readinto bytes capacity self ->
  PcfFont._cache self = LruCache.init capacity.
Proof.
  intros HC Hr.
  destruct (keeps_reachable Bitmap DisplayioBitmap _bitmap_readinto
              (fun s s' => PcfFont._cache s = LruCache.init capacity ->
                           PcfFont._cache s' = LruCache.init capacity))
    with (9 := Hr) as [s0 [Hinit Hk]].
  - intros s H. exact H.
  - intros s1 s2 s3 H12 H23 H. auto.
  - intros s f _ H. exact H.
  - intros k s H. unfold PcfFont.on_lru. rewrite contains_pure. simpl. exact H.
  - intros k s H. unfold PcfFont.on_lru.
    rewrite (get_nothing Z.eq_dec (PcfFont._cache s) k)
      by (rewrite H; left; reflexivity).
    simpl. exact H.
  - intros k v s H. unfold PcfFont.on_lru. rewrite H.
    unfold LruCache.put, bind, state, when, LruCache.on_cache. simpl.
    unfold OrderedDict.len. simpl.
    destruct (Z.geb_spec 0 capacity) as [_|l]; [reflexivity|lia].
  - intros s h H. exact H.
  - intros b bpp es rev s H. unfold PcfFont.readinto.
    destruct (nth_error (PcfFont.heap s) b) as [[b0|g]|]; try exact H.
    destruct (_bitmap_readinto _ _ _ _) as [r [b' f']]. exact H.
  - apply Hk. apply (init_fields Bitmap bytes capacity s0 Hinit).
Qed.

(** X18.  A font opened with a capacity of zero or less never holds a
    glyph: after any calls of [load_glyphs] and [get_glyph] its cache is
    empty, and [get_glyph] never returns a glyph, it returns [None] or
    raises (KeyError, from the cache, once a glyph has been made). *)
Theorem font_without_capacity
        (Bitmap : Type) (DisplayioBitmap : Z -> Z -> Z -> res Bitmap)
        (_bitmap_readinto : Z -> Z -> bool -> M (Bitmap * Pcf.File) unit)
        (bytes : list byte) (capacity : Z) (self : PcfFont.t Bitmap) :
  capacity <= 0 ->
  FontSpec.reachable DisplayioBitmap _bitmap_readinto bytes capacity self ->
  PcfFont._cache self = LruCache.init capacity
  /\ forall code_point glyph,
      fst (PcfFont.get_glyph DisplayioBitmap _bitmap_readinto code_point self)
      <> Ok (Some glyph).
Proof.
  intros HC Hr.
  pose proof (empty_cache_kept Bitmap DisplayioBitmap _bitmap_readinto bytes
                capacity self HC Hr) as He.
  split; [exact He|]. intros code_point glyph.
  rewrite (get_glyph_miss Bitmap DisplayioBitmap _bitmap_readinto code_point self)
    by (rewrite He; reflexivity).
  pose proof (empty_cache_kept Bitmap DisplayioBitmap _bitmap_readinto bytes
                capacity _ HC
                (FontSpec.reach_load_glyphs DisplayioBitmap _bitmap_readinto
                   bytes capacity self (PcfFont.CodePoint code_point) Hr))
    as He1.
  destruct (PcfFont.load_glyphs DisplayioBitmap _bitmap_readinto
                                (PcfFont.CodePoint code_point) self)
    as [[[]|e] s1]; simpl in *; [|discriminate].
  unfold PcfFont.on_lru.
  rewrite (get_nothing Z.eq_dec (PcfFont._cache s1) code_point)
    by (rewrite He1; left; reflexivity).
  simpl. discriminate.
Qed.

Lemma font_without_capacity_witness :
  0 <= 0
  /\ FontSpec.reachable RefHost.DisplayioBitmap RefHost._bitmap_readinto
                        PcfSpec.sample_font 0 FontSpec.sample_without_capacity
  /\ PcfFont._cache FontSpec.sample_without_capacity = LruCache.init 0
  /\ forall code_point glyph,
      fst (PcfFont.get_glyph RefHost.DisplayioBitmap RefHost._bitmap_readinto
                             code_point FontSpec.sample_without_capacity)
      <> Ok (Some glyph).
Proof.
  assert (Hr : FontSpec.reachable RefHost.DisplayioBitmap
                 RefHost._bitmap_readinto PcfSpec.sample_font 0
                 FontSpec.sample_without_capacity).
  { unfold FontSpec.sample_without_capacity. apply FontSpec.reach_get_glyph.
    apply FontSpec.reach_init. vm_compute. reflexivity. }
  split; [lia|]. split; [exact Hr|].
  apply (font_without_capacity RefHost.Bitmap RefHost.DisplayioBitmap
                               RefHost._bitmap_readinto PcfSpec.sample_font 0
                               FontSpec.sample_without_capacity);
    [lia|exact Hr].
Defined.

(** * Further properties of the table readers *)

Lemma decode_be32 (x : Z) :
  PcfSpec.u32 x -> Pcf.decode Pcf.BigEndian Pcf.c_I (PcfSpec.be32 x) = x.
Proof.
  unfold PcfSpec.u32. intros Hx.
  unfold Pcf.decode, PcfSpec.be32, Pcf.uint_be. simpl.
  rewrite !byte_of_value_mod.
  Z.div_mod_to_equations. lia.
Qed.

(** Reading one big-endian 32-bit value written in the file. *)
Lemma read_be32 (x : Z) (pre post : list byte) (log : list Pcf.io_event) :
  PcfSpec.u32 x ->
  Pcf.read_values (Pcf.BigEndian, [Pcf.c_I])
    (Pcf.mkFile (pre ++ PcfSpec.be32 x ++ post) (Z.of_nat (length pre)) log)
  = (Ok [x],
     Pcf.mkFile (pre ++ PcfSpec.be32 x ++ post) (Z.of_nat (length pre) + 4)
                (Pcf.Read 4 :: log)).
Proof.
  intros Hx. unfold Pcf.read_values, bind.
  change (Pcf.calcsize (Pcf.BigEndian, [Pcf.c_I]))
    with (Z.of_nat (length (PcfSpec.be32 x))).
  rewrite read_at.
  unfold Pcf.lift, Pcf.unpack.
  change (Z.of_nat (length (PcfSpec.be32 x))
          =? Pcf.calcsize (Pcf.BigEndian, [Pcf.c_I])) with true.
  cbv iota.
  change (Pcf.unpack_fields (fst (Pcf.BigEndian, [Pcf.c_I]))
            (snd (Pcf.BigEndian, [Pcf.c_I])) (PcfSpec.be32 x))
    with [Pcf.decode Pcf.BigEndian Pcf.c_I (PcfSpec.be32 x)].
  rewrite decode_be32 by assumption. reflexivity.
Qed.

(** The five bytes of a compressed record, decoded where they lie. *)
Lemma compressed_metrics_at (m : Pcf.MetricsEntry) (pre post : list byte)
      (log : list Pcf.io_event) :
  PcfSpec.metrics_fit true m ->
  Pcf.read_metrics_entry_compressed
    (Pcf.mkFile (pre ++ PcfSpec.biased_bytes m ++ post) (Z.of_nat (length pre)) log)
  = (Ok (PcfSpec.metrics_read_back true m),
     Pcf.mkFile (pre ++ PcfSpec.biased_bytes m ++ post)
                (Z.of_nat (length pre) + 5) (Pcf.Read 5 :: log)).
Proof.
  intros [H1 [H2 [H3 [H4 H5]]]].
  unfold Pcf.read_metrics_entry_compressed, Pcf.read_values, bind.
  change (Pcf.calcsize (Pcf.BigEndian, [Pcf.c_B; Pcf.c_B; Pcf.c_B; Pcf.c_B; Pcf.c_B]))
    with (Z.of_nat (length (PcfSpec.biased_bytes m))).
  rewrite read_at.
  unfold Pcf.lift, Pcf.unpack, PcfSpec.biased_bytes. simpl.
  unfold Pcf.decode, Pcf.uint_be. simpl.
  rewrite !byte_of_value by lia.
  unfold ret. repeat f_equal; lia.
Qed.

(** The record of index [i] in a table of records of [k] bytes lies [k *
    i] bytes into the table. *)
Lemma record_in_table {A : Type} (record : A -> list byte) (k : nat)
      (xs : list A) :
  (forall y, length (record y) = k) ->
  forall (i : nat) (x : A),
    nth_error xs i = Some x ->
    exists before after,
      flat_map record xs = before ++ record x ++ after
      /\ length before = (k * i)%nat.
Proof.
  intros Hk. induction xs as [|y xs IH]; intros i x Hi.
  - destruct i; discriminate.
  - destruct i as [|i]; simpl in Hi.
    + inversion Hi; subst. exists [], (flat_map record xs).
      split; [reflexivity|]. simpl. lia.
    + destruct (IH i x Hi) as [before [after [E Hl]]].
      exists (record y ++ before), after. split.
      * simpl. rewrite E, <- app_assoc. reflexivity.
      * rewrite length_app, Hk, Hl. lia.
Qed.

Section TableReaders.
Variable Bitmap : Type.
Local Abbreviation font := (PcfFont.t Bitmap).

(** A file computation run on the file of the font, after a seek. *)
Lemma seek_on_file_at {A : Type} (self : font) (pre : list byte) (at_ : Z)
      (m : M Pcf.File A) :
  PcfSpec.reader m ->
  at_ = Z.of_nat (length pre) ->
  fst ((PcfFont.on_file (Pcf.seek at_) ;; PcfFont.on_file m) self)
  = fst (m (Pcf.mkFile (Pcf.content (PcfFont._file self)) (Z.of_nat (length pre))
                       (Pcf.Seek at_ :: Pcf.log (PcfFont._file self)))).
Proof.
  intros Hm Hat.
  destruct (seek_reader_on_file Bitmap self at_ m Hm) as [f' [E _]].
  rewrite E. cbn [fst]. unfold bind, Pcf.seek.
  destruct (Z.ltb_spec at_ 0) as [l|_]; [lia|]. rewrite <- Hat. reflexivity.
Qed.

(** X19.  [_get_metrics] reads the record of the glyph in the metrics
    table: in a font whose file holds, from [_metrics_data_location] on,
    the records of the entries [ms] (of 5 bytes each in a compressed
    table, of 12 otherwise), the metrics of glyph [i] are the entry of
    index [i], without its attributes in a compressed table. *)
Theorem get_metrics_nth (self : font) (pre post : list byte)
        (ms : list Pcf.MetricsEntry) (i : nat) (m : Pcf.MetricsEntry) :
  Pcf.content (PcfFont._file self)
  = pre ++ flat_map (PcfSpec.metrics_record (PcfFont._metrics_compressed self)) ms
        ++ post ->
  PcfFont._metrics_data_location self = Z.of_nat (length pre) ->
  nth_error ms i = Some m ->
  PcfSpec.metrics_fit (PcfFont._metrics_compressed self) m ->
  fst (PcfFont._get_metrics (Z.of_nat i) self)
  = Ok (PcfSpec.metrics_read_back (PcfFont._metrics_compressed self) m).
Proof.
  intros Hc Hl Hi Hm. rewrite metrics_unfold.
  destruct (PcfFont._metrics_compressed self).
  - destruct (record_in_table (PcfSpec.metrics_record true) 5 ms
                (fun y => eq_refl) i m Hi) as [before [after [E Hb]]].
    rewrite E in Hc.
    rewrite (seek_on_file_at self (pre ++ before)).
    + rewrite Hc, <- !app_assoc, (app_assoc pre before).
      unfold PcfSpec.metrics_record.
      rewrite (compressed_metrics_at m (pre ++ before) (after ++ post) _ Hm).
      reflexivity.
    + apply reader_metrics_compressed.
    + rewrite length_app, Hb, Hl. lia.
  - destruct (record_in_table (PcfSpec.metrics_record false) 12 ms
                (fun y => eq_refl) i m Hi) as [before [after [E Hb]]].
    rewrite E in Hc. destruct Hm as [H1 [H2 [H3 [H4 [H5 H6]]]]].
    rewrite (seek_on_file_at self (pre ++ before)).
    + rewrite Hc, <- !app_assoc, (app_assoc pre before).
      unfold PcfSpec.metrics_record.
      rewrite (standard_metrics_at m (pre ++ before) (after ++ post) _
                 H1 H2 H3 H4 H5 H6).
      reflexivity.
    + apply reader_metrics_standard.
    + rewrite length_app, Hb, Hl. lia.
Qed.

(** X20.  [_get_glyph_bitmap_offset] reads the entry of the glyph in the
    table of bitmap offsets: in a font whose file holds, from
    [_bitmap_position_lut_location] on, the unsigned 32-bit offsets
    [offsets], most significant byte first, the offset of glyph [i] is
    the one of index [i]. *)
Theorem get_glyph_bitmap_offset_nth (self : font) (pre post : list byte)
        (offsets : list Z) (i : nat) (offset : Z) :
  Pcf.content (PcfFont._file self)
  = pre ++ flat_map PcfSpec.be32 offsets ++ post ->
  PcfFont._bitmap_position_lut_location self = Z.of_nat (length pre) ->
  nth_error offsets i = Some offset ->
  PcfSpec.u32 offset ->
  fst (PcfFont._get_glyph_bitmap_offset (Z.of_nat i) self) = Ok offset.
Proof.
  intros Hc Hl Hi Ho. rewrite offset_unfold.
  destruct (record_in_table PcfSpec.be32 4 offsets (fun y => eq_refl) i offset Hi)
    as [before [after [E Hb]]].
  rewrite E in Hc.
  rewrite seek_read_on_file. unfold bind at 1. unfold Pcf.seek.
  destruct (Z.ltb_spec (PcfFont._bitmap_position_lut_location self
                        + Z.of_nat i * 4) 0) as [l|_]; [lia|].
  cbn [Pcf.content Pcf.pos Pcf.log].
  replace (PcfFont._bitmap_position_lut_location self + Z.of_nat i * 4)
    with (Z.of_nat (length (pre ++ before)))
    by (rewrite length_app, Hb, Hl; lia).
  rewrite Hc, <- !app_assoc, (app_assoc pre before).
  rewrite (read_be32 offset (pre ++ before) (after ++ post) _ Ho).
  reflexivity.
Qed.

End TableReaders.

Lemma get_metrics_nth_witness :
  Pcf.content (PcfFont._file FontSpec.sample_opened)
  = firstn 142 PcfSpec.sample_font
      ++ flat_map (PcfSpec.metrics_record
                     (PcfFont._metrics_compressed FontSpec.sample_opened))
                  [PcfSpec.sample_metrics]
      ++ skipn 147 PcfSpec.sample_font
  /\ PcfFont._metrics_data_location FontSpec.sample_opened
     = Z.of_nat (length (firstn 142 PcfSpec.sample_font))
  /\ nth_error [PcfSpec.sample_metrics] 0 = Some PcfSpec.sample_metrics
  /\ PcfSpec.metrics_fit (PcfFont._metrics_compressed FontSpec.sample_opened)
                         PcfSpec.sample_metrics
  /\ fst (PcfFont._get_metrics (Z.of_nat 0) FontSpec.sample_opened)
     = Ok (PcfSpec.metrics_read_back
             (PcfFont._metrics_compressed FontSpec.sample_opened)
             PcfSpec.sample_metrics).
Proof.
  assert (Hfit : PcfSpec.metrics_fit
                   (PcfFont._metrics_compressed FontSpec.sample_opened)
                   PcfSpec.sample_metrics).
  { change (PcfFont._metrics_compressed FontSpec.sample_opened) with true.
    simpl. lia. }
  split; [vm_compute; reflexivity|]. split; [vm_compute; reflexivity|].
  split; [reflexivity|]. split; [exact Hfit|].
  apply (get_metrics_nth RefHost.Bitmap FontSpec.sample_opened
                         (firstn 142 PcfSpec.sample_font)
                         (skipn 147 PcfSpec.sample_font)
                         [PcfSpec.sample_metrics] 0 PcfSpec.sample_metrics);
    [vm_compute; reflexivity|vm_compute; reflexivity|reflexivity|exact Hfit].
Defined.

Lemma get_glyph_bitmap_offset_nth_witness :
  Pcf.content (PcfFont._file FontSpec.sample_opened)
  = firstn 156 PcfSpec.sample_font
      ++ flat_map PcfSpec.be32 [0; 8; 16]
      ++ skipn 168 PcfSpec.sample_font
  /\ PcfFont._bitmap_position_lut_location FontSpec.sample_opened
     = Z.of_nat (length (firstn 156 PcfSpec.sample_font))
  /\ nth_error [0; 8; 16] 2 = Some 16
  /\ PcfSpec.u32 16
  /\ fst (PcfFont._get_glyph_bitmap_offset (Z.of_nat 2) FontSpec.sample_opened)
     = Ok 16.
Proof.
  assert (Hu : PcfSpec.u32 16) by (unfold PcfSpec.u32; lia).
  split; [vm_compute; reflexivity|]. split; [vm_compute; reflexivity|].
  split; [reflexivity|]. split; [exact Hu|].
  apply (get_glyph_bitmap_offset_nth RefHost.Bitmap FontSpec.sample_opened
                                     (firstn 156 PcfSpec.sample_font)
                                     (skipn 168 PcfSpec.sample_font)
                                     [0; 8; 16] 2 16);
    [vm_compute; reflexivity|vm_compute; reflexivity|reflexivity|exact Hu].
Defined.

(** * Further properties of opening a font: the counts *)

(** Reading an unsigned 32-bit value where the file has one. *)
Lemma read_u32_here (f : Pcf.File) (v : Z) :
  0 <= Pcf.pos f ->
  PcfSpec.u32_be_at (Pcf.content f) (Pcf.pos f) = Some v ->
  Pcf.read_values (Pcf.BigEndian, [Pcf.c_I]) f
  = (Ok [v],
     Pcf.mkFile (Pcf.content f) (Pcf.pos f + 4) (Pcf.Read 4 :: Pcf.log f)).
Proof.
  intros Hat Hv. unfold PcfSpec.u32_be_at in Hv.
  unfold Pcf.read_values, bind, Pcf.read. simpl.
  destruct (skipn (Z.to_nat (Pcf.pos f)) (Pcf.content f))
    as [|b3 [|b2 [|b1 [|b0 rest]]]]; try discriminate.
  inversion Hv; subst. simpl.
  unfold Pcf.lift, Pcf.unpack. simpl.
  unfold Pcf.decode, Pcf.uint_be. simpl. reflexivity.
Qed.

Lemma read_u16_here (f : Pcf.File) (v : Z) :
  0 <= Pcf.pos f ->
  PcfSpec.u16_be_at (Pcf.content f) (Pcf.pos f) = Some v ->
  Pcf.read_values (Pcf.BigEndian, [Pcf.c_H]) f
  = (Ok [v],
     Pcf.mkFile (Pcf.content f) (Pcf.pos f + 2) (Pcf.Read 2 :: Pcf.log f)).
Proof.
  intros Hat Hv. unfold PcfSpec.u16_be_at in Hv.
  unfold Pcf.read_values, bind, Pcf.read. simpl.
  destruct (skipn (Z.to_nat (Pcf.pos f)) (Pcf.content f)) as [|hi [|lo rest]];
    try discriminate.
  inversion Hv; subst. simpl.
  unfold Pcf.lift, Pcf.unpack. simpl.
  unfold Pcf.decode, Pcf.uint_be. simpl. reflexivity.
Qed.

(** X21.  A font file that passes the checks of the table of contents and
    of the formats, whose metrics table counts another number of glyphs
    than its bitmaps table, is refused with the ValueError "Corrupted
    font data"; the metrics count is read as 16 bits when the metrics
    are compressed and as 32 bits otherwise. *)
Theorem init_count_mismatch
        (Bitmap : Type) (toc : list PcfSpec.toc_entry) (body : list byte)
        (capacity : Z) (bitmaps metrics : Pcf.TableTocEntry)
        (glyph_count metrics_count : Z) :
  PcfSpec.toc_ok toc ->
  (4 <= length (PcfSpec.kinds toc))%nat ->
  Forall PcfSpec.msb_first (map snd (PcfSpec.retained toc [])) ->
  OrderedDict.lookup Z.eq_dec Pcf._PCF_TABLETYPE_BITMAPS (PcfSpec.retained toc [])
  = Some bitmaps ->
  Z.land (Pcf.format bitmaps) Pcf._PCF_SCAN_UNIT_MASK = 0 ->
  OrderedDict.lookup Z.eq_dec Pcf._PCF_TABLETYPE_METRICS (PcfSpec.retained toc [])
  = Some metrics ->
  PcfSpec.u32_be_at (PcfSpec.font_file toc body) (Pcf.offset bitmaps + 4)
  = Some glyph_count ->
  (if Z.land (Pcf.format metrics) Pcf._PCF_COMPRESSED_METRICS >? 0
   then PcfSpec.u16_be_at (PcfSpec.font_file toc body) (Pcf.offset metrics + 4)
   else PcfSpec.u32_be_at (PcfSpec.font_file toc body) (Pcf.offset metrics + 4))
  = Some metrics_count ->
  metrics_count <> glyph_count ->
  fst (PcfFont.__init__ Bitmap (PcfSpec.font_file toc body) capacity)
  = Raise (ValueError "Corrupted font data").
Proof.
  intros [Hok Hlen] Hfour Hgood Hb Hscan Hm Hgc Hmc Hne.
  init_header toc body Hok Hlen.
  destruct (Z.ltb_spec (Z.of_nat (length (PcfSpec.kinds toc))) 4) as [l|_]; [lia|].
  match goal with
  | E : PcfFont.read_toc ?n ?t ?f = (_, ?f1) |- _ =>
      pose proof (proj1 (reader_read_toc n t) f) as Hc;
      pose proof (read_toc_offsets n t f (Forall_nil _)) as Hoff;
      rewrite E in Hc, Hoff; cbn [snd Pcf.content] in Hc
  end.
  rewrite Forall_forall in Hoff.
  assert (Hbo : 0 <= Pcf.offset bitmaps).
  { apply Hoff. apply in_map_iff. exists (Pcf._PCF_TABLETYPE_BITMAPS, bitmaps).
    split; [reflexivity|]. apply lookup_Some_In with (1 := Hb). }
  assert (Hmo : 0 <= Pcf.offset metrics).
  { apply Hoff. apply in_map_iff. exists (Pcf._PCF_TABLETYPE_METRICS, metrics).
    split; [reflexivity|]. apply lookup_Some_In with (1 := Hm). }
  unfold bind at 1. rewrite (check_formats_pass _ _ Hgood).
  unfold bind at 1. unfold PcfFont.getitem at 1. rewrite Hb. cbn [ret].
  rewrite Hscan. cbn [Z.eqb negb].
  unfold bind at 1. unfold Pcf.seek at 1.
  destruct (Z.ltb_spec (Pcf.offset bitmaps + 4) 0) as [l|_]; [lia|].
  unfold bind at 1.
  rewrite (read_u32_here _ glyph_count)
    by (cbn [Pcf.pos Pcf.content]; first [lia|rewrite Hc; exact Hgc]).
  unfold bind at 1. unfold Pcf.tuple1 at 1, ret at 1.
  unfold bind at 1. unfold PcfFont.getitem at 1. rewrite Hm. cbn [ret].
  unfold bind at 1. unfold Pcf.seek at 1.
  destruct (Z.ltb_spec (Pcf.offset metrics + 4) 0) as [l|_]; [lia|].
  cbn [Pcf.content Pcf.pos Pcf.log].
  unfold bind at 1.
  destruct (Z.land (Pcf.format metrics) Pcf._PCF_COMPRESSED_METRICS >? 0).
  - rewrite (read_u16_here _ metrics_count)
      by (cbn [Pcf.pos Pcf.content]; first [lia|rewrite Hc; exact Hmc]).
    unfold bind at 1. unfold Pcf.tuple1 at 1, ret at 1.
    destruct (Z.eqb_spec metrics_count glyph_count) as [e|_]; [contradiction|].
    reflexivity.
  - rewrite (read_u32_here _ metrics_count)
      by (cbn [Pcf.pos Pcf.content]; first [lia|rewrite Hc; exact Hmc]).
    unfold bind at 1. unfold Pcf.tuple1 at 1, ret at 1.
    destruct (Z.eqb_spec metrics_count glyph_count) as [e|_]; [contradiction|].
    reflexivity.
Qed.

Lemma init_count_mismatch_witness :
  PcfSpec.toc_ok PcfSpec.sample_toc
  /\ (4 <= length (PcfSpec.kinds PcfSpec.sample_toc))%nat
  /\ PcfSpec.u32_be_at
       (PcfSpec.font_file PcfSpec.sample_toc PcfSpec.miscounted_body) (148 + 4)
     = Some 1
  /\ PcfSpec.u16_be_at
       (PcfSpec.font_file PcfSpec.sample_toc PcfSpec.miscounted_body) (136 + 4)
     = Some 2
  /\ 2 <> 1
  /\ fst (PcfFont.__init__ RefHost.Bitmap
            (PcfSpec.font_file PcfSpec.sample_toc PcfSpec.miscounted_body) 128)
     = Raise (ValueError "Corrupted font data").
Proof.
  assert (Hok : PcfSpec.toc_ok PcfSpec.sample_toc) by toc_ok_by_evaluation.
  assert (Hfour : (4 <= length (PcfSpec.kinds PcfSpec.sample_toc))%nat)
    by (vm_compute; lia).
  split; [exact Hok|]. split; [exact Hfour|].
  split; [vm_compute; reflexivity|]. split; [vm_compute; reflexivity|].
  split; [lia|].
  apply (init_count_mismatch RefHost.Bitmap PcfSpec.sample_toc
           PcfSpec.miscounted_body 128
           (Pcf.mkTableTocEntry 12 36 148) (Pcf.mkTableTocEntry 268 12 136)
           1 2 Hok Hfour).
  - all_msb_first.
  - vm_compute. reflexivity.
  - vm_compute. reflexivity.
  - vm_compute. reflexivity.
  - vm_compute. reflexivity.
  - vm_compute. reflexivity.
  - lia.
Defined.

(** * The exceptions of opening a font *)

Section OutcomeRules.
Context {S : Type}.
Import Hoare.

Lemma outcome_ret {A : Type} (a : A) (Q : A -> Prop) (X : exn -> Prop) :
  Q a -> outcome (ret a : M S A) Q X.
Proof. intros H s. exact H. Qed.

Lemma outcome_raise {A : Type} (e : exn) (Q : A -> Prop) (X : exn -> Prop) :
  X e -> outcome (raise e : M S A) Q X.
Proof. intros H s. exact H. Qed.

Lemma outcome_bind {A B : Type} (m : M S A) (k : A -> M S B)
      (Q : A -> Prop) (R : B -> Prop) (X : exn -> Prop) :
  outcome m Q X -> (forall a, Q a -> outcome (k a) R X) ->
  outcome (bind m k) R X.
Proof.
  intros Hm Hk s. unfold bind. specialize (Hm s).
  destruct (m s) as [[a|e] s1]; simpl in *; [|exact Hm].
  apply (Hk a Hm s1).
Qed.

Lemma outcome_bind_ret {A B : Type} (a : A) (k : A -> M S B)
      (R : B -> Prop) (X : exn -> Prop) :
  outcome (k a) R X -> outcome (bind (ret a) k) R X.
Proof. intros H s. exact (H s). Qed.

End OutcomeRules.

Lemma outcome_seek (target : Z) (X : exn -> Prop) :
  0 <= target -> Hoare.outcome (Pcf.seek target) (fun _ => True) X.
Proof.
  intros H s. unfold Pcf.seek.
  destruct (Z.ltb_spec target 0) as [l|_]; [lia|exact I].
Qed.

Lemma outcome_read_values (fmt : Pcf.struct_format) (X : exn -> Prop) :
  X StructError ->
  Hoare.outcome (Pcf.read_values fmt) (Forall2 PcfSpec.in_range (snd fmt)) X.
Proof.
  intros HX f.
  pose proof (read_values_range fmt f) as Hr. revert Hr.
  unfold Pcf.read_values, bind, Pcf.read, Pcf.lift, Pcf.unpack.
  destruct (Z.of_nat _ =? Pcf.calcsize fmt); simpl; auto.
Qed.

Lemma outcome_metrics_standard (X : exn -> Prop) :
  X StructError ->
  Hoare.outcome Pcf.read_metrics_entry_standard (fun _ => True) X.
Proof.
  intros HX. unfold Pcf.read_metrics_entry_standard.
  apply (outcome_bind _ _ _ _ _ (outcome_read_values _ X HX)).
  intros vs Hvs. simpl in Hvs.
  repeat match goal with
         | H : Forall2 _ (_ :: _) _ |- _ => inversion H; clear H; subst
         | H : Forall2 _ [] _ |- _ => inversion H; clear H; subst
         end.
  intros s. exact I.
Qed.

Lemma outcome_getitem {S : Type} (key : Z) (tables : PcfFont.Tables)
      (X : exn -> Prop) :
  X KeyError ->
  Hoare.outcome (PcfFont.getitem key tables : M S Pcf.TableTocEntry)
                (fun e => In e (map snd tables)) X.
Proof.
  intros HX s. unfold PcfFont.getitem.
  destruct (OrderedDict.lookup Z.eq_dec key tables) as [e|] eqn:E; simpl; auto.
  apply in_map_iff. exists (key, e). split; [reflexivity|].
  apply lookup_Some_In with (1 := E).
Qed.

Lemma outcome_check_formats (entries : list Pcf.TableTocEntry)
      (X : exn -> Prop) :
  X (ValueError "Only support MSByte data and MSBit glyph") ->
  Hoare.outcome (for_each entries PcfFont.check_format) (fun _ => True) X.
Proof.
  intros HX. induction entries as [|e entries IH]; simpl.
  - intros s. exact I.
  - apply (outcome_bind _ _ (fun _ => True)); [|intros u _; exact IH].
    intros s. unfold PcfFont.check_format. destruct (negb _); simpl; auto.
Qed.

Lemma outcome_read_toc (X : exn -> Prop) (count : nat) :
  X StructError ->
  forall tables,
    PcfSpec.tables_ok tables ->
    Hoare.outcome (PcfFont.read_toc count tables) PcfSpec.tables_ok X.
Proof.
  intros HX. induction count as [|count IH]; intros tables Ht; simpl.
  - intros s. exact Ht.
  - apply (outcome_bind _ _ _ _ _ (outcome_read_values _ X HX)).
    intros vs Hvs. simpl in Hvs.
    inversion Hvs as [|? a ? vs1 Ha Hr1]; subst.
    inversion Hr1 as [|? b ? vs2 Hb Hr2]; subst.
    inversion Hr2 as [|? c ? vs3 Hc Hr3]; subst.
    inversion Hr3 as [|? d ? vs4 Hd Hr4]; subst.
    inversion Hr4; subst.
    cbn [Pcf.tuple4]. apply outcome_bind_ret. apply IH.
    unfold PcfFont.is_necessary.
    destruct (in_dec Z.eq_dec a PcfFont.necessary_tables_types) as [i|n];
      [|exact Ht].
    destruct Ht as [Hoff [Hnd Hincl]]. split; [|split].
    + rewrite Forall_forall in *. intros e He.
      apply in_map_iff in He. destruct He as [[k e'] [Ee Hin]]. simpl in Ee.
      subst e'. apply In_assign in Hin. destruct Hin as [Enew|Hold].
      * inversion Enew; subst. simpl in *. lia.
      * apply Hoff. apply in_map_iff. exists (k, e). auto.
    + apply NoDup_keys_assign. exact Hnd.
    + intros k Hk. apply In_keys_assign in Hk. destruct Hk as [E|Hk].
      * subst. exact i.
      * apply Hincl. exact Hk.
Qed.

(** Four tables of the required kinds include an accelerator table. *)
Lemma accelerator_among_four (tables : PcfFont.Tables) :
  PcfSpec.tables_ok tables ->
  4 <= OrderedDict.len tables ->
  exists entry,
    In entry (map snd tables)
    /\ (if OrderedDict.contains Z.eq_dec Pcf._PCF_TABLETYPE_ACCELERATORS tables
        then OrderedDict.lookup Z.eq_dec Pcf._PCF_TABLETYPE_ACCELERATORS tables
        else OrderedDict.lookup Z.eq_dec Pcf._PCF_TABLETYPE_BDFACCELERATORS tables)
       = Some entry.
Proof.
  intros [_ [Hnd Hincl]] Hlen. unfold OrderedDict.contains.
  destruct (OrderedDict.lookup Z.eq_dec Pcf._PCF_TABLETYPE_ACCELERATORS tables)
    as [e|] eqn:Ea.
  - exists e. split; [|reflexivity]. apply in_map_iff.
    exists (Pcf._PCF_TABLETYPE_ACCELERATORS, e). split; [reflexivity|].
    apply lookup_Some_In with (1 := Ea).
  - destruct (OrderedDict.lookup Z.eq_dec Pcf._PCF_TABLETYPE_BDFACCELERATORS tables)
      as [e|] eqn:Eb.
    + exists e. split; [|reflexivity]. apply in_map_iff.
      exists (Pcf._PCF_TABLETYPE_BDFACCELERATORS, e). split; [reflexivity|].
      apply lookup_Some_In with (1 := Eb).
    + exfalso.
      apply (proj1 (lookup_None Z.eq_dec _ _)) in Ea.
      apply (proj1 (lookup_None Z.eq_dec _ _)) in Eb.
      assert (Hthree : incl (OrderedDict.keys tables)
                            [Pcf._PCF_TABLETYPE_METRICS;
                             Pcf._PCF_TABLETYPE_BITMAPS;
                             Pcf._PCF_TABLETYPE_BDFENCODINGS]).
      { intros k Hk. pose proof (Hincl k Hk) as Hn.
        unfold PcfFont.necessary_tables_types in Hn. simpl in Hn. simpl.
        destruct Hn as [E|[E|[E|[E|[E|[]]]]]]; subst; auto; contradiction. }
      pose proof (NoDup_incl_length Hnd Hthree) as Hl.
      unfold OrderedDict.len in Hlen. unfold OrderedDict.keys in Hl.
      rewrite length_map in Hl. simpl in Hl. lia.
Qed.

Ltac split_values H :=
  simpl in H;
  repeat match goal with
         | H' : Forall2 _ (_ :: _) _ |- _ => inversion H'; clear H'; subst
         | H' : Forall2 _ [] _ |- _ => inversion H'; clear H'; subst
         end.

Lemma init_outcome (Bitmap : Type) (bytes : list byte) (capacity : Z) :
  match fst (PcfFont.__init__ Bitmap bytes capacity) with
  | Ok _ => True
  | Raise e => PcfSpec.init_error e
  end.
Proof.
  unfold PcfFont.__init__.
  match goal with
  | |- match fst (?m ?f) with _ => _ end =>
      assert (H : Hoare.outcome m (fun _ => True) PcfSpec.init_error);
      [|exact (H f)]
  end.
  assert (XS : PcfSpec.init_error StructError) by exact I.
  assert (XK : PcfSpec.init_error KeyError) by exact I.
  apply (outcome_bind _ _ (fun _ => True));
    [apply outcome_seek; lia|intros u _].
  apply (outcome_bind _ _ (fun _ => True)); [intros s; exact I|intros magic _].
  destruct (negb _); [apply outcome_raise; simpl; auto|].
  apply (outcome_bind _ _ _ _ _ (outcome_read_values _ _ XS)).
  intros vs Hvs. split_values Hvs. cbn [Pcf.tuple1]. apply outcome_bind_ret.
  apply (outcome_bind _ _ PcfSpec.tables_ok).
  { apply outcome_read_toc; [exact XS|].
    split; [constructor|]. split; [constructor|]. intros k []. }
  intros tables Ht.
  destruct (Z.ltb_spec (OrderedDict.len tables) 4) as [l|Hfour];
    [apply outcome_raise; simpl; auto|].
  apply (outcome_bind _ _ (fun _ => True)).
  { apply outcome_check_formats. simpl. auto. }
  intros u1 _.
  pose proof (proj1 Ht) as Hoff. rewrite Forall_forall in Hoff.
  apply (outcome_bind _ _ _ _ _ (outcome_getitem _ tables _ XK)).
  intros bitmaps Hb. apply Hoff in Hb.
  destruct (negb _); [apply outcome_raise; simpl; auto|].
  apply (outcome_bind _ _ (fun _ => True));
    [apply outcome_seek; lia|intros u2 _].
  apply (outcome_bind _ _ _ _ _ (outcome_read_values _ _ XS)).
  intros vs0 Hvs0. split_values Hvs0. cbn [Pcf.tuple1]. apply outcome_bind_ret.
  apply (outcome_bind _ _ _ _ _ (outcome_getitem _ tables _ XK)).
  intros metrics Hm. apply Hoff in Hm.
  apply (outcome_bind _ _ (fun _ => True));
    [apply outcome_seek; lia|intros u3 _].
  apply (outcome_bind _ _ (fun vs => exists v, vs = [v])).
  { destruct (_ >? 0).
    - intros s. pose proof (outcome_read_values (Pcf.BigEndian, [Pcf.c_H]) _ XS s) as H.
      destruct (fst (Pcf.read_values _ s)) as [vs1|e]; [|exact H].
      split_values H. eexists. reflexivity.
    - intros s. pose proof (outcome_read_values (Pcf.BigEndian, [Pcf.c_I]) _ XS s) as H.
      destruct (fst (Pcf.read_values _ s)) as [vs1|e]; [|exact H].
      split_values H. eexists. reflexivity. }
  intros vs1 [metrics_count Evs1]. subst vs1.
  cbn [Pcf.tuple1]. apply outcome_bind_ret.
  destruct (negb _); [apply outcome_raise; simpl; auto|].
  apply (outcome_bind _ _ _ _ _ (outcome_getitem _ tables _ XK)).
  intros encodings He. apply Hoff in He.
  apply (outcome_bind _ _ (fun _ => True));
    [apply outcome_seek; lia|intros u4 _].
  apply (outcome_bind _ _ _ _ _ (outcome_read_values _ _ XS)).
  intros vs2 Hvs2. split_values Hvs2. cbn [Pcf.tuple5]. apply outcome_bind_ret.
  cbv iota beta.
  destruct (accelerator_among_four tables Ht Hfour) as [acc [Hacc Eacc]].
  rewrite Eacc. apply outcome_bind_ret. apply Hoff in Hacc.
  apply (outcome_bind _ _ (fun _ => True));
    [apply outcome_seek; lia|intros u5 _].
  apply (outcome_bind _ _ _ _ _ (outcome_read_values _ _ XS)).
  intros vs3 Hvs3. split_values Hvs3. cbn [Pcf.tuple2]. apply outcome_bind_ret.
  cbv iota beta.
  apply (outcome_bind _ _ (fun _ => True)).
  { destruct (_ >? 0); apply outcome_seek; lia. }
  intros u6 _.
  apply (outcome_bind _ _ _ _ _ (outcome_metrics_standard _ XS)).
  intros minbounds _.
  apply (outcome_bind _ _ _ _ _ (outcome_metrics_standard _ XS)).
  intros maxbounds _.
  intros s. exact I.
Qed.

(** X22.  [__init__] fails in six ways only, whatever the bytes of the
    file: with one of its four ValueErrors, with the KeyError of a
    missing bitmaps, metrics or encodings table, or with [struct.error]
    where the file ends early.  It never seeks to a negative position,
    and the accelerator table it looks up is there whenever it gets that
    far, four tables of the five kinds including one. *)
Theorem init_errors (Bitmap : Type) (bytes : list byte) (capacity : Z) (e : exn) :
  fst (PcfFont.__init__ Bitmap bytes capacity) = Raise e ->
  PcfSpec.init_error e.
Proof.
  intros E. pose proof (init_outcome Bitmap bytes capacity) as H.
  rewrite E in H. exact H.
Qed.

Lemma init_errors_witness :
  fst (PcfFont.__init__ RefHost.Bitmap PcfSpec.no_metrics_font 128)
  = Raise KeyError
  /\ PcfSpec.init_error KeyError.
Proof.
  assert (E : fst (PcfFont.__init__ RefHost.Bitmap PcfSpec.no_metrics_font 128)
              = Raise KeyError) by (vm_compute; reflexivity).
  split; [exact E|].
  apply (init_errors RefHost.Bitmap PcfSpec.no_metrics_font 128 KeyError E).
Defined.

(** * The objects a font has made *)

Lemma list_set_app_ge {A : Type} (h0 more : list A) (x : A) :
  forall i : nat,
    (length h0 <= i)%nat ->
    PcfFont.list_set i x (h0 ++ more)
    = h0 ++ PcfFont.list_set (i - length h0) x more.
Proof.
  induction h0 as [|y h0 IH]; intros i Hi; simpl.
  - rewrite Nat.sub_0_r. reflexivity.
  - destruct i as [|i]; simpl in Hi; [lia|].
    cbn [PcfFont.list_set Nat.sub]. rewrite IH by lia. reflexivity.
Qed.

Section ObjectsKept.
Variable Bitmap : Type.
Variable DisplayioBitmap : Z -> Z -> Z -> res Bitmap.
Variable _bitmap_readinto : Z -> Z -> bool -> M (Bitmap * Pcf.File) unit.
Import Hoare.

Local Abbreviation font := (PcfFont.t Bitmap).
Local Abbreviation load_glyphs :=
  (PcfFont.load_glyphs DisplayioBitmap _bitmap_readinto).
Local Abbreviation get_glyph :=
  (PcfFont.get_glyph DisplayioBitmap _bitmap_readinto).
Local Abbreviation create_glyph := (PcfFont.create_glyph DisplayioBitmap).
Local Abbreviation fill_bitmap := (PcfFont.fill_bitmap _bitmap_readinto).
Local Abbreviation objects_kept := (@FontSpec.objects_kept Bitmap).
Local Abbreviation same_heap :=
  (fun s s' : font => PcfFont.heap s' = PcfFont.heap s).

Lemma same_heap_kept {A : Type} (s0 : font) (m : M font A) :
  keeps same_heap m ->
  triple (objects_kept s0) m (fun _ => objects_kept s0) (objects_kept s0).
Proof.
  intros Hm s [more E]. specialize (Hm s).
  destruct (m s) as [[a|e] s1]; simpl in Hm; exists more; congruence.
Qed.

Lemma same_heap_trans (s1 s2 s3 : font) :
  same_heap s1 s2 -> same_heap s2 s3 -> same_heap s1 s3.
Proof. intros H12 H23. congruence. Qed.

Lemma triple_index_kept (s0 : font) (code_points : list Z)
      (glyphs_indices : OrderedDict.t Z Z) :
  triple (objects_kept s0) (PcfFont.collect_indices code_points glyphs_indices)
         (fun _ => objects_kept s0) (objects_kept s0).
Proof.
  apply same_heap_kept.
  apply (keeps_collect Bitmap same_heap (fun s => eq_refl) same_heap_trans
           (fun s f _ => eq_refl)).
Qed.

Lemma triple_offset_kept (s0 : font) (glyph_index : Z) :
  triple (objects_kept s0) (PcfFont._get_glyph_bitmap_offset glyph_index)
         (fun _ => objects_kept s0) (objects_kept s0).
Proof.
  apply same_heap_kept.
  apply (keeps_offset Bitmap same_heap (fun s => eq_refl) same_heap_trans
           (fun s f _ => eq_refl)).
Qed.

Lemma triple_metrics_kept (s0 : font) (glyph_index : Z) :
  triple (objects_kept s0) (PcfFont._get_metrics glyph_index)
         (fun _ => objects_kept s0) (objects_kept s0).
Proof.
  apply same_heap_kept.
  apply (keeps_metrics Bitmap same_heap (fun s => eq_refl) same_heap_trans
           (fun s f _ => eq_refl)).
Qed.

Lemma triple_map_m_kept {A B : Type} (s0 : font) (f : A -> M font B)
      (xs : list A) :
  (forall x, triple (objects_kept s0) (f x)
                    (fun _ => objects_kept s0) (objects_kept s0)) ->
  triple (objects_kept s0) (map_m f xs)
         (fun _ => objects_kept s0) (objects_kept s0).
Proof.
  intros H. induction xs as [|x xs IH]; simpl.
  - apply triple_ret. auto.
  - apply (triple_bind _ _ _ (fun _ => objects_kept s0)); [apply H|intros y].
    apply (triple_bind _ _ _ (fun _ => objects_kept s0)); [exact IH|intros ys].
    apply triple_ret. auto.
Qed.

(** A new glyph and its bitmap go to fresh addresses. *)
Lemma triple_create_kept (s0 : font) (entry : Pcf.MetricsEntry * Z) :
  triple (objects_kept s0) (create_glyph entry)
         (fun bitmap s => objects_kept s0 s
                          /\ (length (PcfFont.heap s0) <= bitmap)%nat)
         (objects_kept s0).
Proof.
  destruct entry as [m c]. intros s [more E].
  unfold PcfFont.create_glyph, bind, Pcf.lift.
  destruct (DisplayioBitmap _ _ _) as [b|e]; [|exists more; exact E].
  unfold PcfFont.alloc, PcfFont.on_lru.
  cbn [PcfFont.heap PcfFont.set_heap PcfFont._cache].
  destruct (LruCache.put _ _ _ _) as [[[]|e] c'];
    cbn [PcfFont.heap PcfFont.set_heap PcfFont.set_cache ret];
    rewrite E, <- !app_assoc.
  - split; [eexists; reflexivity|]. rewrite length_app. lia.
  - eexists. reflexivity.
Qed.

(** Filling a bitmap at a fresh address leaves the objects made before
    as they were. *)
Lemma triple_fill_kept (s0 : font) (entry : Z * nat) :
  (length (PcfFont.heap s0) <= snd entry)%nat ->
  triple (objects_kept s0) (fill_bitmap entry)
         (fun _ => objects_kept s0) (objects_kept s0).
Proof.
  destruct entry as [o b]. simpl. intros Hb s [more E].
  unfold PcfFont.fill_bitmap, bind, state, PcfFont.on_file.
  destruct (Pcf.seek _ _) as [[[]|e] f1];
    cbn [PcfFont.heap PcfFont.set_file]; [|exists more; exact E].
  unfold PcfFont.readinto. cbn [PcfFont.heap PcfFont.set_file PcfFont._file].
  destruct (nth_error (PcfFont.heap s) b) as [[b0|g]|];
    try (exists more; exact E).
  destruct (_bitmap_readinto _ _ _ _) as [r [b' f']].
  assert (H : objects_kept s0
                (PcfFont.set_file f'
                   (PcfFont.set_heap
                      (PcfFont.list_set b (PcfFont.OBitmap b') (PcfFont.heap s))
                      (PcfFont.set_file f1 s)))).
  { cbn [PcfFont.heap PcfFont.set_file PcfFont.set_heap].
    unfold FontSpec.objects_kept.
    cbn [PcfFont.heap PcfFont.set_file PcfFont.set_heap].
    rewrite E, list_set_app_ge by exact Hb. eexists. reflexivity. }
  destruct r; exact H.
Qed.

Lemma triple_load_body_kept (s0 : font) (code_points : list Z) :
  triple (objects_kept s0)
         (glyphs_indices <- PcfFont.collect_indices code_points [] ;;
          match glyphs_indices with
          | [] => ret tt
          | _ =>
              bitmaps_offsets <-
                map_m PcfFont._get_glyph_bitmap_offset (map snd glyphs_indices) ;;
              char_metrics <- map_m PcfFont._get_metrics (map snd glyphs_indices) ;;
              PcfFont.gc_collect ;;
              bitmaps <-
                map_m create_glyph
                      (combine char_metrics (OrderedDict.keys glyphs_indices)) ;;
              for_each (combine bitmaps_offsets bitmaps) fill_bitmap
          end)
         (fun _ => objects_kept s0) (objects_kept s0).
Proof.
  apply (triple_bind _ _ _ (fun _ => objects_kept s0));
    [apply triple_index_kept|intros d].
  destruct d as [|p d']; [apply triple_ret; auto|].
  remember (p :: d') as d eqn:Ed. clear Ed p d'.
  apply (triple_bind _ _ _ (fun _ => objects_kept s0));
    [apply triple_map_m_kept; apply triple_offset_kept|intros offsets].
  apply (triple_bind _ _ _ (fun _ => objects_kept s0));
    [apply triple_map_m_kept; apply triple_metrics_kept|intros ms].
  apply (triple_bind _ _ _ (fun _ => objects_kept s0));
    [apply triple_ret; auto|intros u].
  eapply triple_bind.
  { apply (triple_map_m (objects_kept s0)
             (fun _ bitmap => (length (PcfFont.heap s0) <= bitmap)%nat)).
    intros entry _. apply triple_create_kept. }
  intros bitmaps. apply triple_pure. intros Hfresh.
  apply triple_for_each. intros [o b] Hin. apply triple_fill_kept. simpl.
  apply in_combine_r in Hin.
  clear - Hfresh Hin. induction Hfresh as [|x y xs ys Hy _ IH]; [destruct Hin|].
  destruct Hin as [E|Hin]; [subst; exact Hy|exact (IH Hin)].
Qed.

Lemma triple_load_kept (s0 : font) (code_points : PcfFont.code_points_arg) :
  triple (objects_kept s0) (load_glyphs code_points)
         (fun _ => objects_kept s0) (objects_kept s0).
Proof.
  intros s Hs. rewrite load_glyphs_unfold. cbv zeta.
  destruct (PcfFont.sorted _) as [|c cs]; [exact Hs|].
  apply (triple_load_body_kept s0 (c :: cs) s Hs).
Qed.

(** X23.  [load_glyphs] and [get_glyph] only add to the objects of the
    font: every object made before the call, a glyph or a bitmap, is
    there after it as it was, whether the call returns or raises; the
    bitmaps a call fills are the ones it has made. *)
Theorem objects_never_change :
  (forall code_points, keeps objects_kept (load_glyphs code_points))
  /\ (forall code_point, keeps objects_kept (get_glyph code_point)).
Proof.
  assert (Hrefl : forall s : font, objects_kept s s).
  { intros s. exists []. rewrite app_nil_r. reflexivity. }
  assert (Hload : forall code_points, keeps objects_kept (load_glyphs code_points)).
  { intros code_points s.
    pose proof (triple_load_kept s code_points s (Hrefl s)) as H.
    destruct (load_glyphs code_points s) as [[[]|e] s1]; exact H. }
  assert (Hcache : forall (s s1 : font) c,
             objects_kept s s1 -> objects_kept s (PcfFont.set_cache c s1)).
  { intros s s1 c [more E]. exists more. exact E. }
  split; [exact Hload|].
  intros code_point s. rewrite get_glyph_unfold.
  destruct (negb _); cbn [when]; unfold bind.
  - specialize (Hload (PcfFont.CodePoint code_point) s).
    destruct (load_glyphs (PcfFont.CodePoint code_point) s) as [[[]|e] s1];
      simpl in *; [|exact Hload].
    unfold PcfFont.on_lru. destruct (LruCache.get _ _ _) as [r c].
    apply Hcache. exact Hload.
  - simpl. unfold PcfFont.on_lru. destruct (LruCache.get _ _ _) as [r c].
    apply Hcache. apply Hrefl.
Qed.

End ObjectsKept.

(** * The metrics a font can give *)

Lemma metrics_compressed_fit (f : Pcf.File) (m : Pcf.MetricsEntry) :
  fst (Pcf.read_metrics_entry_compressed f) = Ok m ->
  PcfSpec.metrics_fit true m /\ PcfSpec.metrics_read_back true m = m.
Proof.
  unfold Pcf.read_metrics_entry_compressed, bind.
  pose proof (read_values_range
                (Pcf.BigEndian, [Pcf.c_B; Pcf.c_B; Pcf.c_B; Pcf.c_B; Pcf.c_B]) f)
    as Hr.
  destruct (Pcf.read_values _ f) as [[vs|e] f1]; [|discriminate].
  split_values Hr. simpl. intros E. inversion E; subst. clear E.
  unfold PcfSpec.in_range in *. simpl. split; [lia|reflexivity].
Qed.

Lemma metrics_standard_fit (f : Pcf.File) (m : Pcf.MetricsEntry) :
  fst (Pcf.read_metrics_entry_standard f) = Ok m ->
  PcfSpec.metrics_fit false m.
Proof.
  unfold Pcf.read_metrics_entry_standard, bind.
  pose proof (read_values_range
                (Pcf.BigEndian,
                 [Pcf.c_h; Pcf.c_h; Pcf.c_h; Pcf.c_h; Pcf.c_h; Pcf.c_H]) f)
    as Hr.
  destruct (Pcf.read_values _ f) as [[vs|e] f1]; [|discriminate].
  split_values Hr. simpl. intros E. inversion E; subst. clear E.
  simpl. auto 10.
Qed.

(** X24.  Whatever the bytes of the file, the metrics [_get_metrics]
    returns fit the records of the table: in a compressed table the five
    fields lie between -128 and 127 and the attributes are 0; otherwise
    the five fields are signed 16-bit values and the attributes an
    unsigned one. *)
Theorem get_metrics_fit (Bitmap : Type) (self : PcfFont.t Bitmap)
        (glyph_index : Z) (m : Pcf.MetricsEntry) :
  fst (PcfFont._get_metrics glyph_index self) = Ok m ->
  PcfSpec.metrics_fit (PcfFont._metrics_compressed self) m
  /\ PcfSpec.metrics_read_back (PcfFont._metrics_compressed self) m = m.
Proof.
  rewrite metrics_unfold.
  destruct (PcfFont._metrics_compressed self).
  - match goal with
    | |- context [PcfFont.on_file (Pcf.seek ?a)] =>
        destruct (seek_reader_on_file Bitmap self a
                    Pcf.read_metrics_entry_compressed
                    reader_metrics_compressed) as [f' [E _]]
    end.
    rewrite E. cbn [fst]. unfold bind at 1.
    destruct (Pcf.seek _ _) as [[[]|e] f1]; [|discriminate].
    apply metrics_compressed_fit.
  - match goal with
    | |- context [PcfFont.on_file (Pcf.seek ?a)] =>
        destruct (seek_reader_on_file Bitmap self a
                    Pcf.read_metrics_entry_standard
                    reader_metrics_standard) as [f' [E _]]
    end.
    rewrite E. cbn [fst]. unfold bind at 1.
    destruct (Pcf.seek _ _) as [[[]|e] f1]; [|discriminate].
    intros H. split; [apply metrics_standard_fit with (1 := H)|reflexivity].
Qed.

Lemma get_metrics_fit_witness :
  fst (PcfFont._get_metrics 0 FontSpec.sample_opened)
  = Ok PcfSpec.sample_metrics
  /\ PcfSpec.metrics_fit (PcfFont._metrics_compressed FontSpec.sample_opened)
                         PcfSpec.sample_metrics
  /\ PcfSpec.metrics_read_back
       (PcfFont._metrics_compressed FontSpec.sample_opened)
       PcfSpec.sample_metrics
     = PcfSpec.sample_metrics.
Proof.
  assert (E : fst (PcfFont._get_metrics 0 FontSpec.sample_opened)
              = Ok PcfSpec.sample_metrics) by (vm_compute; reflexivity).
  split; [exact E|].
  apply (get_metrics_fit RefHost.Bitmap FontSpec.sample_opened 0
                         PcfSpec.sample_metrics E).
Defined.
